(** * Bollinger-Forest back-tester: a shallow embedding and its properties

    The development follows the Python package [bollinger_forest]:

    - [indicators.py]: [calculate_wma_3], [calculate_bollinger_bands],
      [calculate_atr], [calculate_max_drawdown], [calculate_sharpe_ratio];
    - [models/classical.py]: [ClassicalBollingerStrategy.run];
    - [models/enhanced.py]: [EnhancedBollingerStrategy.prepare_features] and
      [EnhancedBollingerStrategy.run];
    - [data.py]: [ensure_data_dir] and [get_stock_data], over an explicit
      state of the data directory;
    - [cli.py]: [get_metrics], the function [main] reports with.

    Numbers.  The program computes with Python and NumPy floats.  All the
    definitions are written once, over an interface [Float] of float
    operations, and the interface has two instances:

    - [binary64]: the kernel's IEEE 754 binary64 numbers, the arithmetic the
      interpreter runs; the definitions evaluate on it, bit for bit as
      Python does for the float operations of the two trading loops;
    - [exact]: real numbers extended with one missing value (NaN), the
      arithmetic in which the documentation of the program states its
      formulas; rounding and the infinities are outside this instance.

    Properties of the control structure are proved for every instance of the
    interface; properties that need the laws of arithmetic are proved on
    [exact]; concrete runs are evaluated on [binary64], and the bands of a
    constant series are proved on it from the specification of the kernel's
    floats.

    pandas.  A [Series] is the list of its values, NaN marking a missing
    value; a [DataFrame] is an index and an ordered list of named columns.
    [rolling(w).mean()] and [rolling(w).std()] are embedded as the running
    updates pandas computes them with ([roll_mean] and [roll_var]: a
    compensated running sum, Welford's update, the shortcut for a window of
    equal values, the infinities read as missing), [rolling(w).apply] as
    the function of each full window, and the sums behind [.mean()] and
    [.std()] as NumPy's pairwise sum.  On [exact] the running updates are
    proved equal to the mean and the sample deviation of each window. *)

From Stdlib Require Import ZArith List Bool Ascii String Lia.
From Stdlib Require Import Reals Lra.
From Stdlib Require Import Floats.
Import ListNotations.

Local Open Scope string_scope.
Local Open Scope list_scope.
Local Open Scope Z_scope.

Set Implicit Arguments.

(** ** Exceptions and the error monad *)

Inductive exn : Type :=
| ValueError (msg : string)
| ZeroDivisionError
| KeyError (col : string)
| IndexError
| UnboundLocalError (var : string).

Inductive result (A : Type) : Type :=
| Ok (a : A)
| Raise (e : exn).

Arguments Ok {A} a.
Arguments Raise {A} e.

Definition bind {A B : Type} (m : result A) (k : A -> result B) : result B :=
  match m with
  | Ok a => k a
  | Raise e => Raise e
  end.

Notation "x <- m ;; k" := (bind m (fun x => k))
  (at level 61, m at next level, right associativity).

(** ** The float interface *)

Class Float (F : Type) : Type := {
  fzero : F;                 (* the literal 0.0 *)
  nan : F;                   (* the missing value *)
  of_Z : Z -> F;             (* int -> float conversion *)
  fadd : F -> F -> F;
  fsub : F -> F -> F;
  fmul : F -> F -> F;
  fdiv : F -> F -> F;        (* NumPy's division: never raises *)
  fabs : F -> F;
  fsqrt : F -> F;
  feqb : F -> F -> bool;     (* comparisons are false on NaN *)
  fltb : F -> F -> bool;
  fleb : F -> F -> bool;
  is_nan : F -> bool
}.

Declare Scope fl_scope.
Delimit Scope fl_scope with fl.
Infix "+" := fadd : fl_scope.
Infix "-" := fsub : fl_scope.
Infix "*" := fmul : fl_scope.
Infix "/" := fdiv : fl_scope.
Infix "==" := feqb (at level 70, no associativity) : fl_scope.
Infix "<" := fltb : fl_scope.
Infix "<=" := fleb : fl_scope.
Notation "x > y" := (fltb y x) : fl_scope.
Notation "x >= y" := (fleb y x) : fl_scope.

(** The arithmetic of the interpreter.  [of_Z] is exact on the integers the
    program converts (all of them below 2^53). *)
#[export] Instance binary64 : Float float := {|
  fzero := PrimFloat.zero;
  nan := PrimFloat.nan;
  of_Z := fun z =>
    match z with
    | Z0 => PrimFloat.zero
    | Zpos p => PrimFloat.of_uint63 (Uint63.of_Z (Zpos p))
    | Zneg p => PrimFloat.opp (PrimFloat.of_uint63 (Uint63.of_Z (Zpos p)))
    end;
  fadd := PrimFloat.add;
  fsub := PrimFloat.sub;
  fmul := PrimFloat.mul;
  fdiv := PrimFloat.div;
  fabs := PrimFloat.abs;
  fsqrt := PrimFloat.sqrt;
  feqb := PrimFloat.eqb;
  fltb := PrimFloat.ltb;
  fleb := PrimFloat.leb;
  is_nan := PrimFloat.is_nan
|}.

(** Exact arithmetic: a real number, or [None] for NaN.  A division by zero
    has no real value and is read as missing. *)
Module Exact.

Abbreviation t := (option R).

Definition lift1 (f : R -> R) (x : t) : t :=
  match x with
  | Some a => Some (f a)
  | None => None
  end.

Definition lift2 (f : R -> R -> R) (x y : t) : t :=
  match x, y with
  | Some a, Some b => Some (f a b)
  | _, _ => None
  end.

Definition div (x y : t) : t :=
  match x, y with
  | Some a, Some b => if Req_dec_T b 0%R then None else Some (a / b)%R
  | _, _ => None
  end.

Definition sqrt (x : t) : t :=
  match x with
  | Some a => if Rlt_dec a 0%R then None else Some (R_sqrt.sqrt a)
  | None => None
  end.

Definition test (p : R -> R -> bool) (x y : t) : bool :=
  match x, y with
  | Some a, Some b => p a b
  | _, _ => false
  end.

Definition Reqb (a b : R) : bool := if Req_dec_T a b then true else false.
Definition Rltb (a b : R) : bool := if Rlt_dec a b then true else false.
Definition Rleb (a b : R) : bool := if Rle_dec a b then true else false.

Definition isnan (x : t) : bool :=
  match x with
  | Some _ => false
  | None => true
  end.

End Exact.

#[export] Instance exact : Float Exact.t := {|
  fzero := Some 0%R;
  nan := None;
  of_Z := fun z => Some (IZR z);
  fadd := Exact.lift2 Rplus;
  fsub := Exact.lift2 Rminus;
  fmul := Exact.lift2 Rmult;
  fdiv := Exact.div;
  fabs := Exact.lift1 Rabs;
  fsqrt := Exact.sqrt;
  feqb := Exact.test Exact.Reqb;
  fltb := Exact.test Exact.Rltb;
  fleb := Exact.test Exact.Rleb;
  is_nan := Exact.isnan
|}.

(** Python's [/] on floats raises when the divisor compares equal to zero. *)
Definition pydiv {F : Type} `{Float F} (x y : F) : result F :=
  if (y == fzero)%fl then Raise ZeroDivisionError else Ok (x / y)%fl.

(** ** The position state machine of the enhanced strategy
    ([EnhancedBollingerStrategy.run], the body of the [for] loop) *)

Section EnhancedSimulator.

Context {F : Type} `{Float F}.

(** [self.initial_capital] *)
Variable initial_capital : F.

(** The loop's trading variables.  [position] is the Python [int]:
    0 flat, 1 long, -1 short. *)
Record account : Type := {
  cash : F;
  position : Z;
  entry_price : F;
  shares : F
}.

(** The five floats read from a row of [test_data]. *)
Record bar : Type := {
  pred_wma : F;
  upper : F;
  lower : F;
  atr : F;
  close : F
}.

(** The variables as initialised before the loop. *)
Definition start : account :=
  {| cash := initial_capital; position := 0;
     entry_price := fzero; shares := fzero |}.

(** The [if]/[elif] chain. *)
Definition trade (b : bar) (a : account) : result account :=
  if (position a =? 0) && (pred_wma b <= lower b)%fl then
    sh <- pydiv (cash a) (close b);;
    Ok {| cash := fzero; position := 1;
          entry_price := close b; shares := sh |}
  else if (position a =? 0) && (pred_wma b >= upper b)%fl then
    sh <- pydiv initial_capital (close b);;
    Ok {| cash := (initial_capital + sh * close b)%fl; position := -1;
          entry_price := close b; shares := sh |}
  else if position a =? 1 then
    let stop_loss := (entry_price a - of_Z 3 * atr b)%fl in
    if (pred_wma b < stop_loss)%fl || (pred_wma b > upper b)%fl then
      Ok {| cash := (shares a * close b)%fl; position := 0;
            entry_price := entry_price a; shares := fzero |}
    else Ok a
  else if position a =? -1 then
    let stop_loss := (entry_price a + of_Z 3 * atr b)%fl in
    if (pred_wma b > stop_loss)%fl || (pred_wma b < lower b)%fl then
      let cost := (shares a * close b)%fl in
      Ok {| cash := (cash a - cost)%fl; position := 0;
            entry_price := entry_price a; shares := fzero |}
    else Ok a
  else Ok a.

(** The second [if]/[elif] chain, which assigns [curr_val].  It has no
    [else]: for any other [position] the variable keeps what it held
    ([None] when it was never assigned). *)
Definition valuation (b : bar) (a : account) (curr_val : option F)
  : option F :=
  if position a =? 0 then Some (cash a)
  else if position a =? 1 then Some (shares a * close b)%fl
  else if position a =? -1 then Some (cash a - shares a * close b)%fl
  else curr_val.

Record loop_vars : Type := {
  acct : account;
  curr_val : option F;
  portfolio_values : list F
}.

Definition loop_start : loop_vars :=
  {| acct := start; curr_val := None; portfolio_values := [] |}.

(** One iteration: trade, value, append. *)
Definition loop_body (b : bar) (v : loop_vars) : result loop_vars :=
  a <- trade b (acct v);;
  match valuation b a (curr_val v) with
  | Some x =>
      Ok {| acct := a; curr_val := Some x;
            portfolio_values := portfolio_values v ++ [x] |}
  | None => Raise (UnboundLocalError "curr_val")
  end.

Fixpoint simulate (bars : list bar) (v : loop_vars) : result loop_vars :=
  match bars with
  | [] => Ok v
  | b :: bars' => v' <- loop_body b v;; simulate bars' v'
  end.

(** *** The transition rules as the specification words them *)

Inductive Position : Type := FLAT | LONG | SHORT.

Record PositionState : Type := {
  pos : Position;
  s_cash : F;
  s_shares : F;
  s_entryPrice : F
}.

Definition isFLAT (s : PositionState) : bool :=
  match pos s with FLAT => true | _ => false end.
Definition isLONG (s : PositionState) : bool :=
  match pos s with LONG => true | _ => false end.
Definition isSHORT (s : PositionState) : bool :=
  match pos s with SHORT => true | _ => false end.

(** Rules 1 to 4 in their priority order; the first whose guard holds
    fires, and no other. *)
Definition spec_transition (b : bar) (s : PositionState) : PositionState :=
  let predWMA := pred_wma b in
  if isFLAT s && (predWMA <= lower b)%fl then
    {| pos := LONG; s_shares := (s_cash s / close b)%fl;
       s_cash := fzero; s_entryPrice := close b |}
  else if isFLAT s && (predWMA >= upper b)%fl then
    let sh := (initial_capital / close b)%fl in
    {| pos := SHORT; s_shares := sh; s_entryPrice := close b;
       s_cash := (initial_capital + sh * close b)%fl |}
  else if isLONG s &&
          ((predWMA < s_entryPrice s - of_Z 3 * atr b)%fl
           || (predWMA > upper b)%fl) then
    {| pos := FLAT; s_cash := (s_shares s * close b)%fl;
       s_shares := fzero; s_entryPrice := s_entryPrice s |}
  else if isSHORT s &&
          ((predWMA > s_entryPrice s + of_Z 3 * atr b)%fl
           || (predWMA < lower b)%fl) then
    {| pos := FLAT; s_cash := (s_cash s - s_shares s * close b)%fl;
       s_shares := fzero; s_entryPrice := s_entryPrice s |}
  else s.

(** The valuation rule of the specification. *)
Definition spec_value (b : bar) (s : PositionState) : F :=
  match pos s with
  | FLAT => s_cash s
  | LONG => (s_shares s * close b)%fl
  | SHORT => (s_cash s - s_shares s * close b)%fl
  end.

(** The initial state, and the rules applied bar after bar. *)
Definition spec_start : PositionState :=
  {| pos := FLAT; s_cash := initial_capital; s_shares := fzero;
     s_entryPrice := fzero |}.

Definition spec_run (bars : list bar) (s : PositionState) : PositionState :=
  fold_left (fun s b => spec_transition b s) bars s.

(** How the program's variables encode a specification state. *)
Definition position_of_int (p : Z) : option Position :=
  if p =? 0 then Some FLAT
  else if p =? 1 then Some LONG
  else if p =? -1 then Some SHORT
  else None.

Definition abstract (a : account) : option PositionState :=
  match position_of_int (position a) with
  | Some p => Some {| pos := p; s_cash := cash a; s_shares := shares a;
                      s_entryPrice := entry_price a |}
  | None => None
  end.

(** The invariant of the loop. *)
Definition account_ok (a : account) : Prop :=
  (position a = 0 \/ position a = 1 \/ position a = -1) /\
  (position a = 0 -> shares a = fzero).

End EnhancedSimulator.

Arguments account F : clear implicits.
Arguments bar F : clear implicits.
Arguments loop_vars F : clear implicits.
Arguments PositionState F : clear implicits.

(** ** The fragment of pandas the program uses *)

(** A pandas Series: the list of its values. *)
Abbreviation Series F := (list F) (only parsing).

Section Pandas.

Context {F : Type} `{Float F}.

(** An index of dates (days, as integers) and the named columns in their
    order; every column is as long as the index. *)
Record DataFrame : Type := {
  index : list Z;
  columns : list (string * Series F)
}.

Definition len (df : DataFrame) : nat := List.length (index df).

Fixpoint lookup (name : string) (cols : list (string * Series F))
  : option (Series F) :=
  match cols with
  | [] => None
  | (n, s) :: cols' => if String.eqb n name then Some s else lookup name cols'
  end.

(** [df[name]] *)
Definition col (name : string) (df : DataFrame) : result (Series F) :=
  match lookup name (columns df) with
  | Some s => Ok s
  | None => Raise (KeyError name)
  end.

Fixpoint store (name : string) (s : Series F)
    (cols : list (string * Series F)) : list (string * Series F) :=
  match cols with
  | [] => [(name, s)]
  | (n, s') :: cols' =>
      if String.eqb n name then (n, s) :: cols'
      else (n, s') :: store name s cols'
  end.

(** [df[name] = s]: an existing column is replaced where it stands, a new
    one is added last. *)
Definition assign (name : string) (s : Series F) (df : DataFrame)
  : DataFrame :=
  {| index := index df; columns := store name s (columns df) |}.

(** [df[names]]: the listed columns, in the order of the list. *)
Fixpoint select (names : list string) (df : DataFrame)
  : result (list (Series F)) :=
  match names with
  | [] => Ok []
  | n :: names' =>
      s <- col n df;;
      rest <- select names' df;;
      Ok (s :: rest)
  end.

(** The rows of a list of columns, for a frame of [n] rows. *)
Definition rows (n : nat) (cols : list (Series F)) : list (list F) :=
  map (fun i => map (fun s => nth i s nan) cols) (seq 0 n).

(** Boolean-mask row selection. *)
Fixpoint pick {A : Type} (keep : list bool) (l : list A) : list A :=
  match keep, l with
  | k :: keep', x :: l' => if k then x :: pick keep' l' else pick keep' l'
  | _, _ => []
  end.

(** [df[mask]] *)
Definition mask (keep : list bool) (df : DataFrame) : DataFrame :=
  {| index := pick keep (index df);
     columns := map (fun c => (fst c, pick keep (snd c))) (columns df) |}.

(** Row [i] has no missing value in any column. *)
Definition complete (df : DataFrame) (i : nat) : bool :=
  forallb (fun c => negb (is_nan (nth i (snd c) nan))) (columns df).

(** [df.dropna()] *)
Definition dropna (df : DataFrame) : DataFrame :=
  mask (map (complete df) (seq 0 (len df))) df.

(** [s.dropna()] *)
Definition dropna_series (s : Series F) : Series F :=
  filter (fun x => negb (is_nan x)) s.

(** [float(df.iloc[i][name])] *)
Definition cell (name : string) (i : nat) (df : DataFrame) : result F :=
  s <- col name df;;
  match nth_error s i with
  | Some x => Ok x
  | None => Raise IndexError
  end.

(** Element-wise binary operation of two series on the same index. *)
Fixpoint zip_with (f : F -> F -> F) (a b : Series F) : Series F :=
  match a, b with
  | x :: a', y :: b' => f x y :: zip_with f a' b'
  | _, _ => []
  end.

(** [s.shift(k)]: values move [k] places down ([k >= 0]) or up ([k < 0]);
    the vacated places are missing. *)
Definition shift (k : Z) (s : Series F) : Series F :=
  if 0 <=? k
  then firstn (List.length s) (repeat nan (Z.to_nat k) ++ s)
  else skipn (Z.to_nat (- k)) s
       ++ repeat nan (Nat.min (Z.to_nat (- k)) (List.length s)).

(** *** Sums

    NumPy's sum of a contiguous array ([pairwise_sum], which [np.sum] and
    the [mean] and [std] of a Series run): fewer than eight values are added
    from the left; up to 128 values are added, by their position modulo 8,
    into eight running sums that are then added as a tree, and the values
    after the last full group of eight are added from the left; a longer
    array is split in two, the first part a multiple of eight long.
    (NumPy versions differ on the sign of a sum whose values are all -0.0;
    it is +0.0 here when there are fewer than eight.) *)
Fixpoint add_groups (fuel : nat) (r a : Series F) : Series F * Series F :=
  match fuel with
  | O => (r, a)
  | S fuel' =>
      if (8 <=? List.length a)%nat
      then add_groups fuel' (zip_with fadd r (firstn 8 a)) (skipn 8 a)
      else (r, a)
  end.

Definition block_sum (a : Series F) : F :=
  let (r, rest) := add_groups (List.length a) (firstn 8 a) (skipn 8 a) in
  match r with
  | [r0; r1; r2; r3; r4; r5; r6; r7] =>
      fold_left fadd rest
        (((r0 + r1) + (r2 + r3)) + ((r4 + r5) + (r6 + r7)))%fl
  | _ => nan
  end.

Fixpoint pairwise_sum (fuel : nat) (a : Series F) : F :=
  let n := List.length a in
  if (n <? 8)%nat then fold_left fadd a fzero
  else if (n <=? 128)%nat then block_sum a
  else
    match fuel with
    | O => nan
    | S fuel' =>
        let n2 := (n / 2 - (n / 2) mod 8)%nat in
        (pairwise_sum fuel' (firstn n2 a) + pairwise_sum fuel' (skipn n2 a))%fl
    end.

Definition fsum (l : Series F) : F := pairwise_sum (List.length l) l.

Definition count (l : Series F) : F := of_Z (Z.of_nat (List.length l)).

(** [.mean()] of values none of which is missing. *)
Definition mean (l : Series F) : F :=
  match l with
  | [] => nan
  | _ => (fsum l / count l)%fl
  end.

(** [.std()], with pandas' default [ddof=1]. *)
Definition std (l : Series F) : F :=
  if (List.length l <=? 1)%nat then nan
  else
    let m := mean l in
    let sq := map (fun x => ((x - m) * (x - m))%fl) l in
    fsqrt (fsum sq / of_Z (Z.of_nat (List.length l) - 1))%fl.

(** *** Windows

    [s.rolling(window=w)], with [min_periods] at its default, the window.
    Window [t] holds the values at the places [t + 1 - w] to [t].  Before
    anything is computed pandas replaces the infinities of the input by NaN
    ([_prep_values]). *)

(** A value the window functions read as missing: NaN or an infinity
    (the values whose difference with themselves is not zero). *)
Definition missing (x : F) : bool := negb ((x - x) == fzero)%fl.

Definition prep_values (s : Series F) : Series F :=
  map (fun x => if missing x then nan else x) s.

Definition window (w t : nat) (s : Series F) : Series F :=
  firstn w (skipn (t + 1 - w) s).

(** [.rolling(window=w).apply(f, raw=True)]: [f] of the window, missing
    while fewer than [w] values exist or when one of them is missing. *)
Definition rolling (w : nat) (f : Series F -> F) (s : Series F)
  : Series F :=
  map (fun t =>
         if (t + 1 <? w)%nat then nan
         else if existsb missing (window w t s) then nan
         else f (window w t s))
      (seq 0 (List.length s)).

(** The values at the places [a] to [b - 1]. *)
Definition slice (a b : nat) (s : Series F) : Series F :=
  firstn (b - a) (skipn a s).

(** C's [signbit], for a value that is not NaN, and the negation. *)
Definition signbit (x : F) : bool :=
  if (x == fzero)%fl then (of_Z 1 / x < fzero)%fl else (x < fzero)%fl.

Definition fneg (x : F) : F := (of_Z (-1) * x)%fl.

(** [.rolling(window=w).mean()] ([roll_mean]): pandas does not add each
    window up anew.  It keeps a running sum with Kahan's compensation, to
    which the value entering the window is added and from which the value
    leaving it is removed, the number of values in the window, of negative
    ones among them, and the length of the run of equal values last added;
    a window of equal values has that value for its mean. *)
Record mean_acc : Type := {
  nobs : nat;
  sum_x : F;
  neg_ct : nat;
  compensation_add : F;
  compensation_remove : F;
  num_consecutive_same_value : nat;
  prev_value : F
}.

Definition add_mean (val : F) (a : mean_acc) : mean_acc :=
  if (val == val)%fl then
    let y := (val - compensation_add a)%fl in
    let t := (sum_x a + y)%fl in
    {| nobs := S (nobs a);
       sum_x := t;
       neg_ct := if signbit val then S (neg_ct a) else neg_ct a;
       compensation_add := (t - sum_x a - y)%fl;
       compensation_remove := compensation_remove a;
       num_consecutive_same_value :=
         if (val == prev_value a)%fl
         then S (num_consecutive_same_value a) else 1%nat;
       prev_value := val |}
  else a.

Definition remove_mean (val : F) (a : mean_acc) : mean_acc :=
  if (val == val)%fl then
    let y := (fneg val - compensation_remove a)%fl in
    let t := (sum_x a + y)%fl in
    {| nobs := pred (nobs a);
       sum_x := t;
       neg_ct := if signbit val then pred (neg_ct a) else neg_ct a;
       compensation_add := compensation_add a;
       compensation_remove := (t - sum_x a - y)%fl;
       num_consecutive_same_value := num_consecutive_same_value a;
       prev_value := prev_value a |}
  else a.

Definition calc_mean (minp : nat) (a : mean_acc) : F :=
  if (minp <=? nobs a)%nat && (0 <? nobs a)%nat then
    let result := (sum_x a / of_Z (Z.of_nat (nobs a)))%fl in
    if (nobs a <=? num_consecutive_same_value a)%nat then prev_value a
    else if (neg_ct a =? 0)%nat && (result < fzero)%fl then fzero
    else if (neg_ct a =? nobs a)%nat && (result > fzero)%fl then fzero
    else result
  else nan.

(** The accumulator a window is set up from. *)
Definition mean_start (prev : F) : mean_acc :=
  {| nobs := 0; sum_x := fzero; neg_ct := 0;
     compensation_add := fzero; compensation_remove := fzero;
     num_consecutive_same_value := 0; prev_value := prev |}.

(** Window [i], from the accumulator of window [i - 1]: the bounds are
    [start = max (i + 1 - w) 0] and [end = i + 1]; the window is set up
    anew when it is the first or shares no place with the one before. *)
Definition mean_step (values : Series F) (w i : nat) (a : mean_acc)
  : mean_acc :=
  let s := (i + 1 - w)%nat in
  let e := (i + 1)%nat in
  if (i =? 0)%nat || (i <=? s)%nat then
    fold_left (fun a val => add_mean val a) (slice s e values)
              (mean_start (nth s values nan))
  else
    fold_left (fun a val => add_mean val a) (slice i e values)
      (fold_left (fun a val => remove_mean val a)
                 (slice (i - w) s values) a).

Fixpoint roll_mean (values : Series F) (w : nat) (a : mean_acc) (i n : nat)
  : Series F :=
  match n with
  | O => []
  | S n' =>
      let a' := mean_step values w i a in
      calc_mean w a' :: roll_mean values w a' (S i) n'
  end.

Definition rolling_mean (w : nat) (s : Series F) : Series F :=
  let values := prep_values s in
  roll_mean values w (mean_start nan) 0 (List.length values).

(** [.rolling(window=w).std()]: the square root of [roll_var], which keeps
    the mean and the sum of squared differences from it by Welford's
    method, with Kahan's compensation of the mean; a window of equal values
    has variance 0. *)
Record var_acc : Type := {
  var_nobs : nat;
  mean_x : F;
  ssqdm_x : F;
  var_compensation_add : F;
  var_compensation_remove : F;
  var_same_value : nat;
  var_prev_value : F
}.

Definition add_var (val : F) (a : var_acc) : var_acc :=
  if (val == val)%fl then
    let n := S (var_nobs a) in
    let prev_mean := (mean_x a - var_compensation_add a)%fl in
    let y := (val - var_compensation_add a)%fl in
    let t := (y - mean_x a)%fl in
    let m := (mean_x a + t / of_Z (Z.of_nat n))%fl in
    {| var_nobs := n;
       mean_x := m;
       ssqdm_x := (ssqdm_x a + (val - prev_mean) * (val - m))%fl;
       var_compensation_add := (t + mean_x a - y)%fl;
       var_compensation_remove := var_compensation_remove a;
       var_same_value :=
         if (val == var_prev_value a)%fl
         then S (var_same_value a) else 1%nat;
       var_prev_value := val |}
  else a.

Definition remove_var (val : F) (a : var_acc) : var_acc :=
  if (val == val)%fl then
    let n := pred (var_nobs a) in
    if (n =? 0)%nat then
      {| var_nobs := n; mean_x := fzero; ssqdm_x := fzero;
         var_compensation_add := var_compensation_add a;
         var_compensation_remove := var_compensation_remove a;
         var_same_value := var_same_value a;
         var_prev_value := var_prev_value a |}
    else
      let prev_mean := (mean_x a - var_compensation_remove a)%fl in
      let y := (val - var_compensation_remove a)%fl in
      let t := (y - mean_x a)%fl in
      let m := (mean_x a - t / of_Z (Z.of_nat n))%fl in
      {| var_nobs := n;
         mean_x := m;
         ssqdm_x := (ssqdm_x a - (val - prev_mean) * (val - m))%fl;
         var_compensation_add := var_compensation_add a;
         var_compensation_remove := (t + mean_x a - y)%fl;
         var_same_value := var_same_value a;
         var_prev_value := var_prev_value a |}
  else a.

(** [calc_var] with [ddof = 1] *)
Definition calc_var (minp : nat) (a : var_acc) : F :=
  if (minp <=? var_nobs a)%nat && (1 <? var_nobs a)%nat then
    if (var_nobs a =? 1)%nat || (var_nobs a <=? var_same_value a)%nat
    then fzero
    else (ssqdm_x a / of_Z (Z.of_nat (var_nobs a) - 1))%fl
  else nan.

Definition var_start (prev : F) : var_acc :=
  {| var_nobs := 0; mean_x := fzero; ssqdm_x := fzero;
     var_compensation_add := fzero; var_compensation_remove := fzero;
     var_same_value := 0; var_prev_value := prev |}.

Definition var_step (values : Series F) (w i : nat) (a : var_acc)
  : var_acc :=
  let s := (i + 1 - w)%nat in
  let e := (i + 1)%nat in
  if (i =? 0)%nat || (i <=? s)%nat then
    fold_left (fun a val => add_var val a) (slice s e values)
              (var_start (nth s values nan))
  else
    fold_left (fun a val => add_var val a) (slice i e values)
      (fold_left (fun a val => remove_var val a)
                 (slice (i - w) s values) a).

Fixpoint roll_var (values : Series F) (w : nat) (a : var_acc) (i n : nat)
  : Series F :=
  match n with
  | O => []
  | S n' =>
      let a' := var_step values w i a in
      calc_var (Nat.max w 1) a' :: roll_var values w a' (S i) n'
  end.

(** [zsqrt]: the square root, 0 for a negative argument. *)
Definition zsqrt (x : F) : F := if (x < fzero)%fl then fzero else fsqrt x.

Definition rolling_std (w : nat) (s : Series F) : Series F :=
  let values := prep_values s in
  map zsqrt (roll_var values w (var_start nan) 0 (List.length values)).

(** [DataFrame.max(axis=1)] on one row: the largest value that is not
    missing ([skipna] defaults to true); missing when all are. *)
Definition max_skipna (x y : F) : F :=
  if is_nan x then y
  else if is_nan y then x
  else if (x < y)%fl then y else x.

Definition row_max (l : list F) : F := fold_left max_skipna l nan.

(** [s.pct_change()]: each value over the one before it, minus 1 (on a
    series without missing values, whatever the fill method). *)
Definition pct_change (s : Series F) : Series F :=
  zip_with (fun x p => (x / p - of_Z 1)%fl) s (shift 1 s).

(** Well-formed frames: every column is as long as the index. *)
Definition wf (df : DataFrame) : Prop :=
  Forall (fun c => List.length (snd c) = len df) (columns df).

(** A well-formed frame of [n] rows that has the columns [names]. *)
Definition frame_ok (names : list string) (n : nat) (df : DataFrame) : Prop :=
  len df = n /\ wf df /\
  Forall (fun name => exists s, col name df = Ok s) names.

End Pandas.

Arguments DataFrame F : clear implicits.
Arguments mean_acc F : clear implicits.
Arguments var_acc F : clear implicits.

Fixpoint traverse {A B : Type} (f : A -> result B) (l : list A)
  : result (list B) :=
  match l with
  | [] => Ok []
  | x :: l' =>
      y <- f x;;
      ys <- traverse f l';;
      Ok (y :: ys)
  end.

(** ** [indicators.py] *)

Section Indicators.

Context {F : Type} `{Float F}.

Definition weights : list Z := [1; 2; 3].
Definition sum_weights : Z := fold_left Z.add weights 0.

(** [calculate_wma_3] *)
Definition calculate_wma_3 (series : Series F) : Series F :=
  rolling 3
    (fun x =>
       (fsum (zip_with fmul (map of_Z weights) x) / of_Z sum_weights)%fl)
    series.

(** [calculate_bollinger_bands] *)
Definition calculate_bollinger_bands (df : DataFrame F) (d : nat) (k : F)
  : result (DataFrame F) :=
  close <- col "Close" df;;
  let df := assign "MA" (rolling_mean d close) df in
  let df := assign "STD" (rolling_std d close) df in
  ma <- col "MA" df;;
  sd <- col "STD" df;;
  let df :=
    assign "Upper_Track" (zip_with fadd ma (map (fmul k) sd)) df in
  ma <- col "MA" df;;
  sd <- col "STD" df;;
  let df :=
    assign "Lower_Track" (zip_with fsub ma (map (fmul k) sd)) df in
  Ok df.

(** The rows of [pd.concat([a, b, c], axis=1)] reduced by [max(axis=1)]. *)
Fixpoint max3 (a b c : Series F) : Series F :=
  match a, b, c with
  | x :: a', y :: b', z :: c' => row_max [x; y; z] :: max3 a' b' c'
  | _, _, _ => []
  end.

Definition true_range (high low close : Series F) : Series F :=
  let high_low := zip_with fsub high low in
  let high_close := map fabs (zip_with fsub high (shift 1 close)) in
  let low_close := map fabs (zip_with fsub low (shift 1 close)) in
  max3 high_low high_close low_close.

(** [calculate_atr] *)
Definition calculate_atr (df : DataFrame F) (n : nat) : result (Series F) :=
  high <- col "High" df;;
  low <- col "Low" df;;
  close <- col "Close" df;;
  Ok (rolling_mean n (true_range high low close)).

(** [calculate_sharpe_ratio] *)
Definition calculate_sharpe_ratio (portfolio_values : Series F) : F :=
  let daily_returns := dropna_series (pct_change portfolio_values) in
  if (std daily_returns == of_Z 0)%fl then fzero
  else (mean daily_returns / std daily_returns * fsqrt (of_Z 252))%fl.

End Indicators.

(** ** [models/classical.py] *)

Section Classical.

Context {F : Type} `{Float F}.

(** [self.initial_capital], [self.d], [self.k] *)
Variable initial_capital : F.
Variable d : nat.
Variable k : F.

Record c_account : Type := {
  c_cash : F;
  c_position : Z;
  c_shares : F
}.

Record c_bar : Type := {
  c_close : F;
  c_upper : F;
  c_lower : F
}.

Definition c_start : c_account :=
  {| c_cash := initial_capital; c_position := 0; c_shares := fzero |}.

(** The [if]/[elif] of the loop. *)
Definition c_trade (b : c_bar) (a : c_account) : result c_account :=
  if (c_position a =? 0) && (c_close b <= c_lower b)%fl then
    sh <- pydiv (c_cash a) (c_close b);;
    Ok {| c_cash := fzero; c_position := 1; c_shares := sh |}
  else if (c_position a =? 1) && (c_close b >= c_upper b)%fl then
    Ok {| c_cash := (c_shares a * c_close b)%fl; c_position := 0;
          c_shares := fzero |}
  else Ok a.

Definition c_loop_body (b : c_bar) (v : c_account * list F)
  : result (c_account * list F) :=
  a <- c_trade b (fst v);;
  let curr_val := (c_cash a + c_shares a * c_close b)%fl in
  Ok (a, snd v ++ [curr_val]).

Fixpoint c_simulate (bars : list c_bar) (v : c_account * list F)
  : result (c_account * list F) :=
  match bars with
  | [] => Ok v
  | b :: bars' => v' <- c_loop_body b v;; c_simulate bars' v'
  end.

Definition c_read_bar (df : DataFrame F) (i : nat) : result c_bar :=
  close <- cell "Close" i df;;
  upper <- cell "Upper_Track" i df;;
  lower <- cell "Lower_Track" i df;;
  Ok {| c_close := close; c_upper := upper; c_lower := lower |}.

(** The bars the loop reads.  The reads of a row are grouped here; they
    can only raise for a column that is absent, whatever the row. *)
Definition c_bars (df : DataFrame F) : result (list c_bar) :=
  traverse (c_read_bar df) (seq 0 (len df)).

(** The loop of [ClassicalBollingerStrategy.run], with the account it
    ends in. *)
Definition classical_loop (df : DataFrame F)
  : result (c_account * list F) :=
  df <- calculate_bollinger_bands df d k;;
  bars <- c_bars df;;
  c_simulate bars (c_start, []).

(** [ClassicalBollingerStrategy.run] *)
Definition classical_run (df : DataFrame F) : result (DataFrame F) :=
  df <- calculate_bollinger_bands df d k;;
  bars <- c_bars df;;
  v <- c_simulate bars (c_start, []);;
  Ok (assign "Portfolio_Value" (snd v) df).

End Classical.

Arguments c_account F : clear implicits.
Arguments c_bar F : clear implicits.

(** ** [models/enhanced.py] *)

Section Enhanced.

Context {F : Type} `{Float F}.

(** [self.initial_capital] *)
Variable initial_capital : F.

(** The regressor ([sklearn]'s [RandomForestRegressor] with a fixed seed),
    through its contract: fitting on a feature matrix and a target vector
    yields a fitted state or raises; a fitted state predicts one number
    from one feature row. *)
Variable model : Type.
Variable fit : list (list F) -> Series F -> result model.
Variable predict : model -> list F -> F.

Definition digit (i : nat) : string :=
  String (Ascii.ascii_of_nat (48 + i)) EmptyString.

(** [f'WMA_3_lag_{i}'], for [i < 10] *)
Definition lag_name (i : nat) : string := "WMA_3_lag_" ++ digit i.

(** One round of the [for i in range(6)] loop. *)
Definition add_lag (acc : result (DataFrame F * list string)) (i : nat)
  : result (DataFrame F * list string) :=
  p <- acc;;
  let (df, feature_cols) := p in
  let c := lag_name i in
  wma <- col "WMA_3" df;;
  Ok (assign c (shift (Z.of_nat i) wma) df, feature_cols ++ [c]).

(** [prepare_features] *)
Definition prepare_features (df : DataFrame F)
  : result (DataFrame F * list string) :=
  close <- col "Close" df;;
  let df := assign "WMA_3" (calculate_wma_3 close) df in
  df <- calculate_bollinger_bands df 20 (of_Z 3);;
  atr <- calculate_atr df 20;;
  let df := assign "ATR" atr df in
  let feature_cols := ["Open"; "High"; "Low"; "Close"; "Volume"] in
  p <- fold_left add_lag (seq 0 6) (Ok (df, feature_cols));;
  let (df, feature_cols) := p in
  wma <- col "WMA_3" df;;
  let df := assign "Target_Diff" (zip_with fsub (shift (-1) wma) wma) df in
  Ok (dropna df, feature_cols).

(** The names [prepare_features] returns. *)
Definition feature_names : list string :=
  ["Open"; "High"; "Low"; "Close"; "Volume"; "WMA_3_lag_0"; "WMA_3_lag_1";
   "WMA_3_lag_2"; "WMA_3_lag_3"; "WMA_3_lag_4"; "WMA_3_lag_5"].

(** The columns [prepare_features] adds, last added first. *)
Definition derived_names : list string :=
  ["Target_Diff"; "WMA_3_lag_5"; "WMA_3_lag_4"; "WMA_3_lag_3"; "WMA_3_lag_2";
   "WMA_3_lag_1"; "WMA_3_lag_0"; "ATR"; "Lower_Track"; "Upper_Track"; "STD";
   "MA"; "WMA_3"].

Definition price_names : list string :=
  ["Open"; "High"; "Low"; "Close"; "Volume"].

(** The frame [prepare_features] builds before it drops rows, written out
    for an input whose Close, High and Low columns are [close], [high] and
    [low]. *)
Definition featured (df : DataFrame F) (close high low : Series F)
  : DataFrame F :=
  let wma := calculate_wma_3 close in
  let ma := rolling_mean 20 close in
  let sd := rolling_std 20 close in
  assign "Target_Diff" (zip_with fsub (shift (-1) wma) wma)
  (assign "WMA_3_lag_5" (shift 5 wma)
  (assign "WMA_3_lag_4" (shift 4 wma)
  (assign "WMA_3_lag_3" (shift 3 wma)
  (assign "WMA_3_lag_2" (shift 2 wma)
  (assign "WMA_3_lag_1" (shift 1 wma)
  (assign "WMA_3_lag_0" (shift 0 wma)
  (assign "ATR" (rolling_mean 20 (true_range high low close))
  (assign "Lower_Track" (zip_with fsub ma (map (fmul (of_Z 3)) sd))
  (assign "Upper_Track" (zip_with fadd ma (map (fmul (of_Z 3)) sd))
  (assign "STD" sd
  (assign "MA" ma
  (assign "WMA_3" wma df)))))))))))).

Definition read_bar (df : DataFrame F) (i : nat) : result (bar F) :=
  pred_wma <- cell "Predicted_WMA_Next" i df;;
  upper <- cell "Upper_Track" i df;;
  lower <- cell "Lower_Track" i df;;
  atr <- cell "ATR" i df;;
  close <- cell "Close" i df;;
  Ok {| pred_wma := pred_wma; upper := upper; lower := lower;
        atr := atr; close := close |}.

(** The bars the loop reads (grouped as in [c_bars]). *)
Definition read_bars (df : DataFrame F) : result (list (bar F)) :=
  traverse (read_bar df) (seq 0 (len df)).

(** The train/test split. *)
Definition train_of (split_date : Z) (df : DataFrame F) : DataFrame F :=
  mask (map (fun t => t <? split_date) (index df)) df.

Definition test_of (split_date : Z) (df : DataFrame F) : DataFrame F :=
  mask (map (fun t => t >=? split_date) (index df)) df.

(** [self.model.fit(X_train, y_train)] *)
Definition fit_train (feature_cols : list string) (train_data : DataFrame F)
  : result model :=
  X_train <- select feature_cols train_data;;
  y_train <- col "Target_Diff" train_data;;
  fit (rows (len train_data) X_train) y_train.

(** What follows a successful fit: the two prediction columns ... *)
Definition predict_test_data (m : model) (feature_cols : list string)
    (test_data : DataFrame F) : result (DataFrame F) :=
  X_test <- select feature_cols test_data;;
  let test_data :=
    assign "Predicted_Diff"
           (map (predict m) (rows (len test_data) X_test)) test_data in
  wma <- col "WMA_3" test_data;;
  diff <- col "Predicted_Diff" test_data;;
  Ok (assign "Predicted_WMA_Next" (zip_with fadd wma diff) test_data).

(** ... and the trading loop. *)
Definition trade_test_data (m : model) (feature_cols : list string)
    (test_data : DataFrame F) : result (DataFrame F) :=
  test_data <- predict_test_data m feature_cols test_data;;
  bars <- read_bars test_data;;
  v <- simulate initial_capital bars (loop_start initial_capital);;
  Ok (assign "Portfolio_Value" (portfolio_values v) test_data).

(** [EnhancedBollingerStrategy.run].  [self_model] is the state of
    [self.model] on entry ([None]: not fitted); the second component of the
    result is its state when the call returns or raises. *)
Definition run (self_model : option model) (df : DataFrame F)
    (split_date : Z) : result (DataFrame F) * option model :=
  match prepare_features df with
  | Raise e => (Raise e, self_model)
  | Ok (df_processed, feature_cols) =>
      let train_data := train_of split_date df_processed in
      let test_data := test_of split_date df_processed in
      if (len test_data =? 0)%nat then
        (Raise (ValueError "No test data available."), self_model)
      else
        match fit_train feature_cols train_data with
        | Raise e => (Raise e, self_model)
        | Ok m => (trade_test_data m feature_cols test_data, Some m)
        end
  end.

End Enhanced.

(** A price series as the data source delivers it. *)
Definition price_frame {F : Type} (dates : list Z)
    (open high low close volume : list F) : DataFrame F :=
  {| index := dates;
     columns := [("Open", open); ("High", high); ("Low", low);
                 ("Close", close); ("Volume", volume)] |}.

(** ** Notions used to state the properties *)

(** The accumulator of [roll_mean] and of [roll_var] at window [i + k],
    started from the accumulator [a] of the window before [i]. *)
Fixpoint mean_run {F : Type} `{Float F} (values : Series F) (w : nat)
    (a : mean_acc F) (i k : nat) : mean_acc F :=
  match k with
  | O => mean_step values w i a
  | S k' => mean_run values w (mean_step values w i a) (S i) k'
  end.

Fixpoint var_run {F : Type} `{Float F} (values : Series F) (w : nat)
    (a : var_acc F) (i k : nat) : var_acc F :=
  match k with
  | O => var_step values w i a
  | S k' => var_run values w (var_step values w i a) (S i) k'
  end.

(** The last [k] values of a list. *)
Definition lastn {A : Type} (k : nat) (l : list A) : list A :=
  skipn (List.length l - k) l.

(** The sum of the squares. *)
Definition sum_sq (l : list R) : R :=
  fold_left Rplus (map (fun x => x * x)%R l) 0%R.

(** The number of negative values. *)
Definition count_neg (l : list R) : nat :=
  List.length (filter (fun x => Exact.Rltb x 0%R) l).

(** The mean of a window and the sum of the squared differences from it,
    0 for an empty window as [roll_var] has them. *)
Definition win_mean (l : list R) : R :=
  match l with
  | [] => 0%R
  | _ => (fold_left Rplus l 0 / INR (List.length l))%R
  end.

Definition win_ssqdm (l : list R) : R :=
  match l with
  | [] => 0%R
  | _ => (sum_sq l
          - fold_left Rplus l 0 * fold_left Rplus l 0 / INR (List.length l))%R
  end.

(** What the accumulators hold, in exact arithmetic, for a window [W] of
    present values: the counts and sums of [W], no compensation, and a run
    of equal values that ends the values added so far, of which [W] holds
    the last. *)
Definition run_inv (W : list R) (same : nat) (prev : option R) : Prop :=
  exists (p : R) (H : list R),
    prev = Some p /\ W = lastn (List.length W) H /\
    (same <= List.length H)%nat /\ Forall (eq p) (lastn same H).

Definition mean_inv (W : list R) (a : mean_acc Exact.t) : Prop :=
  nobs a = List.length W /\ neg_ct a = count_neg W /\
  (exists s ca cr : R,
      sum_x a = Some s /\ s = fold_left Rplus W 0%R /\
      compensation_add a = Some ca /\ ca = 0%R /\
      compensation_remove a = Some cr /\ cr = 0%R) /\
  run_inv W (num_consecutive_same_value a) (prev_value a).

Definition var_inv (W : list R) (a : var_acc Exact.t) : Prop :=
  var_nobs a = List.length W /\
  (exists m q ca cr : R,
      mean_x a = Some m /\ m = win_mean W /\
      ssqdm_x a = Some q /\ q = win_ssqdm W /\
      var_compensation_add a = Some ca /\ ca = 0%R /\
      var_compensation_remove a = Some cr /\ cr = 0%R) /\
  run_inv W (var_same_value a) (var_prev_value a).

(** The period-over-period returns as the specification words them:
    value[t] / value[t-1] - 1 for t >= 1. *)
Fixpoint spec_returns (vs : list R) : list R :=
  match vs with
  | v0 :: (v1 :: _) as rest => (v1 / v0 - 1)%R :: spec_returns rest
  | _ => []
  end.

(** The value of a windowed column of a constant series at bar [t]. *)
Definition warm (d : nat) (v : R) (t : nat) : option R :=
  if (t + 1 <? d)%nat then None else Some v.

(** The bar the loop reads at day [t] of a constant series. *)
Definition constant_bar (c : R) (d t : nat) : c_bar (option R) :=
  {| c_close := Some c; c_upper := warm d c t; c_lower := warm d c t |}.

(** What the accumulators of [roll_mean] and [roll_var] hold while every
    value added so far is the same number [c]: the [k] values of the
    window, and a run of equal values that is at least as long. *)
Definition mean_same {F : Type} `{Float F} (c : F) (k : nat)
    (a : mean_acc F) : Prop :=
  nobs a = k /\ (k <= num_consecutive_same_value a)%nat /\ prev_value a = c.

Definition var_same {F : Type} `{Float F} (c : F) (k : nat)
    (a : var_acc F) : Prop :=
  var_nobs a = k /\ (k <= var_same_value a)%nat /\ var_prev_value a = c.

(** Bar [t] of a constant series of [c] with the bands of window [d] and
    multiplier [k], as the running reductions give them. *)
Definition flat_band {F : Type} `{Float F} (op : F -> F -> F) (c k : F)
    (d t : nat) : F :=
  if (t + 1 <? d)%nat then op nan (k * zsqrt nan)%fl
  else op c (k * zsqrt fzero)%fl.

Definition flat_bar {F : Type} `{Float F} (c k : F) (d t : nat) : c_bar F :=
  {| c_close := c;
     c_upper := flat_band fadd c k d t;
     c_lower := flat_band fsub c k d t |}.

(** ** Sample data *)

(** A regressor whose fit always succeeds and which always predicts 0. *)
Definition fit_unit (X : list (list float)) (y : Series float)
  : result unit :=
  Ok tt.

Definition no_trend (m : unit) (row : list float) : float := 0%float.

(** A long round trip followed by a short one. *)
Definition four_bars : list (bar float) :=
  [ {| pred_wma := 90; upper := 120; lower := 95; atr := 2; close := 100 |};
    {| pred_wma := 125; upper := 120; lower := 95; atr := 2; close := 110 |};
    {| pred_wma := 130; upper := 120; lower := 95; atr := 2; close := 110 |};
    {| pred_wma := 140; upper := 150; lower := 95; atr := 2; close := 120 |}
  ]%float.

(** A bar on which a flat account enters SHORT. *)
Definition short_entry_bar : bar float :=
  {| pred_wma := 130%float; upper := 120%float; lower := 95%float;
     atr := 2%float; close := 110%float |}.

(** A two-row evaluation frame. *)
Definition two_rows : DataFrame float :=
  {| index := [10; 11];
     columns := [("Close", [100; 110]%float); ("WMA_3", [90; 125]%float);
                 ("Upper_Track", [120; 120]%float);
                 ("Lower_Track", [95; 95]%float);
                 ("ATR", [2; 2]%float)] |}.

(** A price frame of 25 bars rising by 1 a day from 100. *)
Definition rising_prices : DataFrame float :=
  let ramp := map (fun i => of_Z (Z.of_nat (100 + i))) (seq 0 25) in
  price_frame (map Z.of_nat (seq 0 25)) ramp
              (map (fun x => x + 1)%float ramp)
              (map (fun x => x - 1)%float ramp) ramp
              (repeat 1000%float 25).

(** A price frame of 22 bars, every price 0. *)
Definition zero_prices : DataFrame float :=
  price_frame (map Z.of_nat (seq 0 22)) (repeat 0%float 22)
              (repeat 0%float 22) (repeat 0%float 22) (repeat 0%float 22)
              (repeat 1000%float 22).

(** Twenty bars of close 50. *)
Definition flat_prices : DataFrame float :=
  price_frame (map Z.of_nat (seq 0 20)) (repeat 50%float 20)
              (repeat 50%float 20) (repeat 50%float 20) (repeat 50%float 20)
              (repeat 1000%float 20).

(** Three bars in exact arithmetic. *)
Definition three_exact_bars : DataFrame (option R) :=
  price_frame [0; 1; 2]
    [Some 10%R; Some 11%R; Some 12%R]
    [Some 11%R; Some 12%R; Some 13%R]
    [Some 9%R; Some 10%R; Some 11%R]
    [Some 10%R; Some 11%R; Some 12%R]
    [Some 1000%R; Some 1000%R; Some 1000%R].

(** Three bars of close 5 in exact arithmetic. *)
Definition three_flat_bars : DataFrame (option R) :=
  price_frame [0; 1; 2] (repeat (Some 5%R) 3) (repeat (Some 5%R) 3)
              (repeat (Some 5%R) 3) (repeat (Some 5%R) 3)
              (repeat (Some 1000%R) 3).

(** Six bars of the constant price 0.1 (the double nearest to it). *)
Definition tenth_prices : DataFrame float :=
  price_frame (map Z.of_nat (seq 0 6)) (repeat 0x1.999999999999ap-4%float 6)
              (repeat 0x1.999999999999ap-4%float 6)
              (repeat 0x1.999999999999ap-4%float 6)
              (repeat 0x1.999999999999ap-4%float 6)
              (repeat 1000%float 6).

(** ** [indicators.py]: [calculate_max_drawdown] *)

Section Drawdown.

Context {F : Type} `{Float F}.

(** [s.cummax()]: the running maximum of the values that are not missing;
    a missing value stays missing and leaves the maximum as it is. *)
Fixpoint cummax_from (m : F) (s : Series F) : Series F :=
  match s with
  | [] => []
  | x :: s' =>
      if is_nan x then nan :: cummax_from m s'
      else let m' := max_skipna m x in m' :: cummax_from m' s'
  end.

Definition cummax (s : Series F) : Series F := cummax_from nan s.

(** [s.min()]: the least value that is not missing; missing when all are. *)
Definition min_skipna (x y : F) : F :=
  if is_nan x then y
  else if is_nan y then x
  else if (y < x)%fl then y else x.

Definition series_min (s : Series F) : F := fold_left min_skipna s nan.

(** [calculate_max_drawdown] *)
Definition calculate_max_drawdown (portfolio_values : Series F) : F :=
  let rolling_max := cummax portfolio_values in
  let drawdown :=
    map (fun q => (q - of_Z 1)%fl)
        (zip_with fdiv portfolio_values rolling_max) in
  (series_min drawdown * of_Z 100)%fl.

End Drawdown.

(** ** [cli.py]: [get_metrics] *)

Section Metrics.

Context {F : Type} `{Float F}.

(** [df.empty]: no row or no column. *)
Definition empty (df : DataFrame F) : bool :=
  (len df =? 0)%nat || (List.length (columns df) =? 0)%nat.

(** [s.iloc[-1]] *)
Definition iloc_last (s : Series F) : result F :=
  match rev s with
  | x :: _ => Ok x
  | [] => Raise IndexError
  end.

(** [get_metrics], the function nested in [main]: total return in percent
    of the hard-coded initial 100000.0, maximum drawdown, Sharpe ratio. *)
Definition get_metrics (res_df : DataFrame F) : result (F * F * F) :=
  if empty res_df then Ok (fzero, fzero, fzero)
  else
    let initial := of_Z 100000 in
    pv <- col "Portfolio_Value" res_df;;
    final <- iloc_last pv;;
    let ret := ((final - initial) / initial * of_Z 100)%fl in
    pv <- col "Portfolio_Value" res_df;;
    let dd := calculate_max_drawdown pv in
    pv <- col "Portfolio_Value" res_df;;
    let sharpe := calculate_sharpe_ratio pv in
    Ok (ret, dd, sharpe).

End Metrics.

(** ** [data.py] *)

(** [s.replace(c, "")] and [s.replace(c, d)] for one-character patterns. *)
Fixpoint remove_char (c : Ascii.ascii) (s : string) : string :=
  match s with
  | EmptyString => EmptyString
  | String a s' =>
      if Ascii.eqb a c then remove_char c s' else String a (remove_char c s')
  end.

Fixpoint subst_char (c d : Ascii.ascii) (s : string) : string :=
  match s with
  | EmptyString => EmptyString
  | String a s' =>
      String (if Ascii.eqb a c then d else a) (subst_char c d s')
  end.

(** [safe_ticker = ticker.replace("^", "").replace(".", "_")] *)
Definition safe_ticker (ticker : string) : string :=
  subst_char "."%char "_"%char (remove_char "^"%char ticker).

(** The name of the cache file inside [DATA_DIR]. *)
Definition cache_file (ticker : string) : string :=
  safe_ticker ticker ++ ".csv".

Section Data.

Context {F : Type} `{Float F}.

(** What lies outside the package: the text of a CSV file, pandas' writer
    and reader of it, and the Yahoo Finance download (taken with flat
    column names).  Reading and downloading may raise. *)
Variable csv : Type.
Variable to_csv : DataFrame F -> csv.
Variable read_csv : csv -> result (DataFrame F).
Variable download : string -> Z -> Z -> result (DataFrame F).

(** The part of the world [get_stock_data] touches: whether the directory
    [data] exists, the files in it by name, and what was printed. *)
Record world : Type := {
  data_dir : bool;
  files : list (string * csv);
  stdout : list string
}.

Fixpoint find_file (name : string) (fs : list (string * csv)) : option csv :=
  match fs with
  | [] => None
  | (n, c) :: fs' => if String.eqb n name then Some c else find_file name fs'
  end.

Fixpoint write_file (name : string) (c : csv) (fs : list (string * csv))
  : list (string * csv) :=
  match fs with
  | [] => [(name, c)]
  | (n, c') :: fs' =>
      if String.eqb n name then (n, c) :: fs'
      else (n, c') :: write_file name c fs'
  end.

(** [ensure_data_dir] *)
Definition ensure_data_dir (w : world) : world :=
  if negb (data_dir w)
  then {| data_dir := true; files := files w; stdout := stdout w |}
  else w.

Definition print (line : string) (w : world) : world :=
  {| data_dir := data_dir w; files := files w;
     stdout := stdout w ++ [line] |}.

(** [df[(df.index >= start_date) & (df.index <= end_date)]] *)
Definition between (start_date end_date : Z) (df : DataFrame F)
  : DataFrame F :=
  mask (map (fun t => (t >=? start_date) && (t <=? end_date)) (index df)) df.

(** [get_stock_data] *)
Definition get_stock_data (ticker : string) (start_date end_date : Z)
    (w : world) : result (DataFrame F) * world :=
  let w := ensure_data_dir w in
  match find_file (cache_file ticker) (files w) with
  | Some text =>
      let w := print ("Loading " ++ ticker ++ " from cache...") w in
      match read_csv text with
      | Raise e => (Raise e, w)
      | Ok df => (Ok (between start_date end_date df), w)
      end
  | None =>
      let w :=
        print ("Downloading " ++ ticker ++ " from Yahoo Finance...") w in
      match download ticker start_date end_date with
      | Raise e => (Raise e, w)
      | Ok df =>
          if empty df
          then (Raise (ValueError ("No data found for " ++ ticker)), w)
          else
            (Ok df,
             {| data_dir := data_dir w;
                files := write_file (cache_file ticker) (to_csv df) (files w);
                stdout := stdout w |})
      end
  end.

End Data.

Arguments world csv : clear implicits.

(** ** Notions used to state the further properties *)

(** The characters of a string. *)
Fixpoint chars (s : string) : list Ascii.ascii :=
  match s with
  | EmptyString => []
  | String a s' => a :: chars s'
  end.

(** The accounts the classical loop can be in: flat without shares, or long
    without cash. *)
Definition c_account_ok {F : Type} `{Float F} (a : c_account F) : Prop :=
  (c_position a = 0 /\ c_shares a = fzero) \/
  (c_position a = 1 /\ c_cash a = fzero).

(** The value the classical loop records for a bar: [cash + shares * close]
    of the account after the bar's trade. *)
Definition c_value {F : Type} `{Float F} (b : c_bar F) (a : c_account F)
  : F :=
  (c_cash a + c_shares a * c_close b)%fl.

(** What the warm-up of the bands relies on: a difference with a missing
    first operand is missing, and no number is at most a missing one. *)
Record nan_laws (F : Type) `{Float F} : Prop := {
  nan_is_nan : is_nan nan = true;
  sub_nan : forall x y : F, is_nan x = true -> is_nan (x - y)%fl = true;
  leb_nan : forall x y : F, is_nan y = true -> (x <= y)%fl = false
}.

Arguments nan_laws F {_}.

(** Bar [t] of a series holds a value. *)
Definition present {F : Type} `{Float F} (s : Series F) (t : nat) : bool :=
  negb (is_nan (nth t s nan)).

Unset Implicit Arguments.

(** * Properties *)

(** ** The error monad *)

Lemma bind_Ok_inv {A B : Type} (m : result A) (k : A -> result B) (b : B) :
  bind m k = Ok b -> exists a, m = Ok a /\ k a = Ok b.
Proof. destruct m as [a|e]; simpl; intros E; [eauto | discriminate]. Qed.

Lemma pydiv_Ok {F : Type} `{Float F} (x y : F) :
  (y == fzero)%fl = false -> pydiv x y = Ok (x / y)%fl.
Proof. intros E; unfold pydiv; now rewrite E. Qed.

Lemma pydiv_Ok_inv {F : Type} `{Float F} (x y q : F) :
  pydiv x y = Ok q -> (y == fzero)%fl = false /\ q = (x / y)%fl.
Proof.
  unfold pydiv; destruct (y == fzero)%fl; intros E;
    [discriminate | injection E as <-; auto].
Qed.

Lemma pydiv_Raise_inv {F : Type} `{Float F} (x y : F) (e : exn) :
  pydiv x y = Raise e -> e = ZeroDivisionError /\ (y == fzero)%fl = true.
Proof.
  unfold pydiv; destruct (y == fzero)%fl; intros E;
    [injection E as <-; auto | discriminate].
Qed.

(** ** The position state machine *)

Section SimulatorFacts.

Context {F : Type} `{Float F}.
Variable ic : F.

Lemma position_of_int_cases (p : Z) (q : Position) :
  position_of_int p = Some q ->
  (p = 0 /\ q = FLAT) \/ (p = 1 /\ q = LONG) \/ (p = -1 /\ q = SHORT).
Proof.
  unfold position_of_int.
  destruct (Z.eqb_spec p 0); [intros [= <-]; auto|].
  destruct (Z.eqb_spec p 1); [intros [= <-]; auto|].
  destruct (Z.eqb_spec p (-1)); [intros [= <-]; auto|discriminate].
Qed.

Lemma abstract_cases (a : account F) (s : PositionState F) :
  abstract a = Some s ->
  s_cash s = cash a /\ s_shares s = shares a /\
  s_entryPrice s = entry_price a /\
  ((position a = 0 /\ pos s = FLAT) \/ (position a = 1 /\ pos s = LONG)
   \/ (position a = -1 /\ pos s = SHORT)).
Proof.
  unfold abstract.
  destruct (position_of_int (position a)) as [q|] eqn:E; [|discriminate].
  intros [= <-]; simpl.
  repeat split; auto using position_of_int_cases.
Qed.

Lemma abstract_ok (a : account F) :
  (exists s, abstract a = Some s) <->
  (position a = 0 \/ position a = 1 \/ position a = -1).
Proof.
  split.
  - intros [s E]. apply abstract_cases in E. tauto.
  - unfold abstract, position_of_int.
    intros [-> | [-> | ->]]; simpl; eauto.
Qed.

(** One bar of the program against one application of the rules. *)
Lemma trade_abstract (b : bar F) (a a' : account F) (s : PositionState F) :
  abstract a = Some s -> trade ic b a = Ok a' ->
  abstract a' = Some (spec_transition ic b s).
Proof.
  intros Ha Ht.
  pose proof Ha as Hc; apply abstract_cases in Hc as (Ec & Es & Ee & Hp).
  destruct s as [q sc ss se]; simpl in *; subst sc ss se.
  unfold trade in Ht; unfold spec_transition, isFLAT, isLONG, isSHORT; simpl.
  destruct Hp as [[Ep ->] | [[Ep ->] | [Ep ->]]]; rewrite Ep in Ht;
    simpl in Ht |- *.
  - destruct (pred_wma b <= lower b)%fl.
    + apply bind_Ok_inv in Ht as (sh & Hd & [= <-]).
      apply pydiv_Ok_inv in Hd as [_ ->]. reflexivity.
    + destruct (pred_wma b >= upper b)%fl.
      * apply bind_Ok_inv in Ht as (sh & Hd & [= <-]).
        apply pydiv_Ok_inv in Hd as [_ ->]. reflexivity.
      * injection Ht as <-. unfold abstract; now rewrite Ep.
  - destruct (_ || _); injection Ht as <-; unfold abstract; simpl;
      [reflexivity | now rewrite Ep].
  - destruct (_ || _); injection Ht as <-; unfold abstract; simpl;
      [reflexivity | now rewrite Ep].
Qed.

Lemma trade_succeeds (b : bar F) (a : account F) :
  (close b == fzero)%fl = false -> exists a', trade ic b a = Ok a'.
Proof.
  intros Hc; unfold trade.
  rewrite !(pydiv_Ok _ _ Hc); simpl.
  repeat match goal with
         | |- context [if ?c then _ else _] => destruct c; simpl
         end; eauto.
Qed.

Lemma trade_raises (b : bar F) (a : account F) (e : exn) :
  trade ic b a = Raise e ->
  e = ZeroDivisionError /\ (close b == fzero)%fl = true /\ position a = 0.
Proof.
  unfold trade.
  destruct (Z.eqb_spec (position a) 0) as [E0|N0]; simpl.
  - destruct (pred_wma b <= lower b)%fl.
    + destruct (pydiv (cash a) (close b)) eqn:Hd; simpl; [discriminate|].
      intros [= <-]. apply pydiv_Raise_inv in Hd. tauto.
    + destruct (pred_wma b >= upper b)%fl.
      * destruct (pydiv ic (close b)) eqn:Hd; simpl; [discriminate|].
        intros [= <-]. apply pydiv_Raise_inv in Hd. tauto.
      * rewrite E0; simpl. discriminate.
  - repeat match goal with
           | |- context [if ?c then _ else _] => destruct c
           end; discriminate.
Qed.

Lemma trade_preserves (b : bar F) (a a' : account F) :
  account_ok a -> trade ic b a = Ok a' -> account_ok a'.
Proof.
  intros [Hp Hs] Ht. unfold trade in Ht. unfold account_ok.
  destruct (Z.eqb_spec (position a) 0) as [E0|N0]; simpl in Ht.
  - destruct (pred_wma b <= lower b)%fl.
    { apply bind_Ok_inv in Ht as (sh & _ & [= <-]); simpl.
      split; [auto | discriminate]. }
    destruct (pred_wma b >= upper b)%fl.
    { apply bind_Ok_inv in Ht as (sh & _ & [= <-]); simpl.
      split; [auto | discriminate]. }
    rewrite E0 in Ht; simpl in Ht. injection Ht as <-. auto.
  - destruct (Z.eqb_spec (position a) 1) as [E1|N1].
    { destruct (_ || _); injection Ht as <-; simpl; auto. }
    destruct (Z.eqb_spec (position a) (-1)) as [E2|N2].
    { destruct (_ || _); injection Ht as <-; simpl; auto. }
    injection Ht as <-. auto.
Qed.

Lemma start_ok : account_ok (start ic).
Proof. unfold account_ok, start; simpl; auto. Qed.

Lemma valuation_abstract (b : bar F) (a : account F) (s : PositionState F)
    (cv : option F) :
  abstract a = Some s -> valuation b a cv = Some (spec_value b s).
Proof.
  intros Ha. apply abstract_cases in Ha as (Ec & Es & Ee & Hp).
  unfold valuation, spec_value.
  destruct Hp as [[-> ->] | [[-> ->] | [-> ->]]]; simpl; congruence.
Qed.

End SimulatorFacts.

(** ** The trading loop *)

Section LoopFacts.

Context {F : Type} `{Float F}.
Variable ic : F.

Lemma loop_body_inv (b : bar F) (v v' : loop_vars F) :
  loop_body ic b v = Ok v' ->
  exists a x,
    trade ic b (acct v) = Ok a /\
    valuation b a (curr_val v) = Some x /\
    v' = {| acct := a; curr_val := Some x;
            portfolio_values := portfolio_values v ++ [x] |}.
Proof.
  unfold loop_body. intros E.
  apply bind_Ok_inv in E as (a & Ha & E).
  destruct (valuation b a (curr_val v)) as [x|] eqn:Hv; [|discriminate].
  injection E as <-. eauto.
Qed.

Lemma simulate_app (l1 l2 : list (bar F)) (v : loop_vars F) :
  simulate ic (l1 ++ l2) v = bind (simulate ic l1 v) (simulate ic l2).
Proof.
  revert v; induction l1 as [|b l1 IH]; intros v; simpl; [reflexivity|].
  destruct (loop_body ic b v); simpl; auto.
Qed.

Lemma simulate_split (bars : list (bar F)) (v v' : loop_vars F) (n : nat) :
  simulate ic bars v = Ok v' ->
  exists vn, simulate ic (firstn n bars) v = Ok vn /\
             simulate ic (skipn n bars) vn = Ok v'.
Proof.
  rewrite <- (firstn_skipn n bars) at 1. rewrite simulate_app.
  intros E. apply bind_Ok_inv in E. exact E.
Qed.

Lemma simulate_values (bars : list (bar F)) (v v' : loop_vars F) :
  simulate ic bars v = Ok v' ->
  exists vals, portfolio_values v' = portfolio_values v ++ vals /\
               List.length vals = List.length bars.
Proof.
  revert v; induction bars as [|b bars IH]; intros v; simpl.
  - intros [= <-]. exists []. now rewrite app_nil_r.
  - intros E. apply bind_Ok_inv in E as (v1 & E1 & E2).
    apply loop_body_inv in E1 as (a & x & _ & _ & ->).
    apply IH in E2 as (vals & -> & L). simpl.
    exists (x :: vals). rewrite <- app_assoc. simpl. auto.
Qed.

Lemma simulate_snoc (l : list (bar F)) (b : bar F) (v v' : loop_vars F) :
  simulate ic (l ++ [b]) v = Ok v' ->
  exists vm x,
    simulate ic l v = Ok vm /\
    trade ic b (acct vm) = Ok (acct v') /\
    valuation b (acct v') (curr_val vm) = Some x /\
    portfolio_values v' = portfolio_values vm ++ [x].
Proof.
  rewrite simulate_app. intros E.
  apply bind_Ok_inv in E as (vm & E1 & E2). simpl in E2.
  apply bind_Ok_inv in E2 as (v1 & E2 & [= ->]).
  apply loop_body_inv in E2 as (a & x & Ht & Hv & ->). simpl.
  exists vm, x. auto.
Qed.

Lemma simulate_ok (bars : list (bar F)) (v v' : loop_vars F) :
  account_ok (acct v) -> simulate ic bars v = Ok v' -> account_ok (acct v').
Proof.
  revert v; induction bars as [|b bars IH]; intros v Hv; simpl.
  - now intros [= <-].
  - intros E. apply bind_Ok_inv in E as (v1 & E1 & E2).
    apply loop_body_inv in E1 as (a & x & Ht & _ & ->).
    eapply IH; [|exact E2]. simpl. eapply trade_preserves; eassumption.
Qed.

Lemma simulate_abstract (bars : list (bar F)) (v v' : loop_vars F)
    (s : PositionState F) :
  abstract (acct v) = Some s -> simulate ic bars v = Ok v' ->
  abstract (acct v') = Some (spec_run ic bars s).
Proof.
  revert v s; induction bars as [|b bars IH]; intros v s Ha; simpl.
  - now intros [= <-].
  - intros E. apply bind_Ok_inv in E as (v1 & E1 & E2).
    apply loop_body_inv in E1 as (a & x & Ht & _ & ->).
    eapply IH; [|exact E2]. simpl. eapply trade_abstract; eassumption.
Qed.

(** With no bar of zero close the loop runs to its end. *)
Lemma simulate_succeeds (bars : list (bar F)) (v : loop_vars F) :
  account_ok (acct v) ->
  Forall (fun b => (close b == fzero)%fl = false) bars ->
  exists v', simulate ic bars v = Ok v'.
Proof.
  intros Hv Hb; revert v Hv.
  induction Hb as [|b bars Hc _ IH]; intros v Hv; simpl; [eauto|].
  destruct (trade_succeeds ic b (acct v) Hc) as [a Ha].
  assert (Hok : account_ok a) by (eapply trade_preserves; eassumption).
  destruct (proj2 (abstract_ok a) (proj1 Hok)) as [s Hs].
  unfold loop_body. rewrite Ha; simpl.
  erewrite valuation_abstract by eassumption.
  apply IH. exact Hok.
Qed.

Lemma firstn_succ {A : Type} (l : list A) (t : nat) (x : A) :
  nth_error l t = Some x -> firstn (S t) l = firstn t l ++ [x].
Proof.
  revert t; induction l as [|y l IH]; intros [|t]; simpl; try discriminate.
  - now intros [= ->].
  - intros E. f_equal. now apply IH.
Qed.

(** The value appended at bar [t] is the valuation of the account as the
    transition of bar [t] leaves it. *)
Lemma simulate_nth_value (bars : list (bar F)) (v : loop_vars F) (t : nat)
    (b : bar F) :
  simulate ic bars (loop_start ic) = Ok v ->
  nth_error bars t = Some b ->
  exists vt s,
    simulate ic (firstn (S t) bars) (loop_start ic) = Ok vt /\
    abstract (acct vt) = Some s /\
    nth_error (portfolio_values v) t = Some (spec_value b s).
Proof.
  intros E Hb.
  destruct (simulate_split bars _ _ (S t) E) as (vt & Et & Er).
  pose proof Et as Et'. rewrite (firstn_succ _ _ _ Hb) in Et'.
  apply simulate_snoc in Et' as (vm & x & Em & Htr & Hval & Hpv).
  assert (Hok : account_ok (acct vt)).
  { eapply simulate_ok; [|exact Et]. apply start_ok. }
  destruct (proj2 (abstract_ok (acct vt)) (proj1 Hok)) as [s Hs].
  rewrite (valuation_abstract b _ _ (curr_val vm) Hs) in Hval.
  injection Hval as <-.
  exists vt, s. split; [exact Et|]. split; [exact Hs|].
  apply simulate_values in Em as (vals & Evals & Lvals). simpl in Evals.
  apply simulate_values in Er as (rest & Erest & _).
  rewrite Erest, Hpv, Evals, <- app_assoc.
  assert (Lt : List.length vals = t).
  { rewrite Lvals, length_firstn. apply Nat.min_l.
    apply Nat.lt_le_incl, nth_error_Some. congruence. }
  rewrite nth_error_app2 by lia. rewrite Lt, Nat.sub_diag. reflexivity.
Qed.

(** The loop can only fail by dividing by a close of zero. *)
Lemma simulate_raises (bars : list (bar F)) (v : loop_vars F) (e : exn) :
  account_ok (acct v) -> simulate ic bars v = Raise e ->
  e = ZeroDivisionError /\
  exists b, In b bars /\ (close b == fzero)%fl = true.
Proof.
  revert v; induction bars as [|b bars IH]; intros v Hv; simpl;
    [discriminate|].
  unfold loop_body.
  destruct (trade ic b (acct v)) as [a|e'] eqn:Ht; simpl.
  - assert (Hok : account_ok a) by (eapply trade_preserves; eassumption).
    destruct (proj2 (abstract_ok a) (proj1 Hok)) as [s Hs].
    rewrite (valuation_abstract b a s (curr_val v) Hs). simpl.
    intros E. apply IH in E as [-> (b' & Hin & Hz)]; [|exact Hok].
    split; [reflexivity|]. exists b'. split; [now right | exact Hz].
  - intros [= <-]. apply trade_raises in Ht as (-> & Hz & _).
    split; [reflexivity|]. exists b. split; [now left | exact Hz].
Qed.

End LoopFacts.

(** ** Frames *)

(** ** The running window reductions *)

Section RollFacts.

Context {F : Type} `{Float F}.

Lemma length_roll_mean (values : Series F) (w : nat) :
  forall n a i, List.length (roll_mean values w a i n) = n.
Proof. induction n as [|n IH]; intros a i; cbn; [reflexivity | now rewrite IH]. Qed.

Lemma length_roll_var (values : Series F) (w : nat) :
  forall n a i, List.length (roll_var values w a i n) = n.
Proof. induction n as [|n IH]; intros a i; cbn; [reflexivity | now rewrite IH]. Qed.

Lemma length_prep_values (s : Series F) :
  List.length (prep_values s) = List.length s.
Proof. apply length_map. Qed.

Lemma length_rolling_mean (w : nat) (s : Series F) :
  List.length (rolling_mean w s) = List.length s.
Proof.
  unfold rolling_mean. cbv zeta.
  now rewrite length_roll_mean, length_prep_values.
Qed.

Lemma length_rolling_std (w : nat) (s : Series F) :
  List.length (rolling_std w s) = List.length s.
Proof.
  unfold rolling_std. cbv zeta.
  now rewrite length_map, length_roll_var, length_prep_values.
Qed.

Lemma roll_mean_nth (values : Series F) (w : nat) :
  forall n a i k, (k < n)%nat ->
    nth_error (roll_mean values w a i n) k
    = Some (calc_mean w (mean_run values w a i k)).
Proof.
  induction n as [|n IH]; intros a i k L; [lia|].
  destruct k as [|k]; [reflexivity|].
  cbn [roll_mean nth_error mean_run]. apply IH. lia.
Qed.

Lemma roll_var_nth (values : Series F) (w : nat) :
  forall n a i k, (k < n)%nat ->
    nth_error (roll_var values w a i n) k
    = Some (calc_var (Nat.max w 1) (var_run values w a i k)).
Proof.
  induction n as [|n IH]; intros a i k L; [lia|].
  destruct k as [|k]; [reflexivity|].
  cbn [roll_var nth_error var_run]. apply IH. lia.
Qed.

Lemma mean_run_S (values : Series F) (w : nat) :
  forall k a i,
    mean_run values w a i (S k)
    = mean_step values w (i + S k) (mean_run values w a i k).
Proof.
  induction k as [|k IH]; intros a i.
  - cbn [mean_run]. now replace (i + 1)%nat with (S i) by lia.
  - change (mean_run values w a i (S (S k)))
      with (mean_run values w (mean_step values w i a) (S i) (S k)).
    rewrite IH. cbn [mean_run].
    now replace (S i + S k)%nat with (i + S (S k))%nat by lia.
Qed.

Lemma var_run_S (values : Series F) (w : nat) :
  forall k a i,
    var_run values w a i (S k)
    = var_step values w (i + S k) (var_run values w a i k).
Proof.
  induction k as [|k IH]; intros a i.
  - cbn [var_run]. now replace (i + 1)%nat with (S i) by lia.
  - change (var_run values w a i (S (S k)))
      with (var_run values w (var_step values w i a) (S i) (S k)).
    rewrite IH. cbn [var_run].
    now replace (S i + S k)%nat with (i + S (S k))%nat by lia.
Qed.

Lemma length_slice (a b : nat) (s : Series F) :
  (List.length (slice a b s) <= b - a)%nat.
Proof. unfold slice. rewrite length_firstn. lia. Qed.

(** A window never holds more values than places. *)
Lemma add_mean_nobs (l : Series F) :
  forall a, (nobs (fold_left (fun a val => add_mean val a) l a)
             <= nobs a + List.length l)%nat.
Proof.
  induction l as [|x l IH]; intros a; cbn [fold_left List.length]; [lia|].
  etransitivity; [apply IH|]. unfold add_mean.
  destruct (x == x)%fl; cbn [nobs]; lia.
Qed.

Lemma remove_mean_nobs (l : Series F) :
  forall a, (nobs (fold_left (fun a val => remove_mean val a) l a)
             <= nobs a)%nat.
Proof.
  induction l as [|x l IH]; intros a; cbn [fold_left]; [lia|].
  etransitivity; [apply IH|]. unfold remove_mean.
  destruct (x == x)%fl; cbn [nobs]; lia.
Qed.

Lemma mean_step_nobs (values : Series F) (w i : nat) (a : mean_acc F) :
  (nobs (mean_step values w i a)
   <= if (i =? 0)%nat then 1 else S (nobs a))%nat.
Proof.
  unfold mean_step. cbv zeta.
  destruct (Nat.eqb_spec i 0) as [->|Ni]; cbn [orb].
  - etransitivity; [apply add_mean_nobs|]. cbn [mean_start nobs].
    pose proof (length_slice (0 + 1 - w) (0 + 1) values). lia.
  - destruct (Nat.leb_spec i (i + 1 - w)) as [L|L].
    + etransitivity; [apply add_mean_nobs|]. cbn [mean_start nobs].
      pose proof (length_slice (i + 1 - w) (i + 1) values). lia.
    + etransitivity; [apply add_mean_nobs|].
      pose proof (remove_mean_nobs (slice (i - w) (i + 1 - w) values) a).
      pose proof (length_slice i (i + 1) values). lia.
Qed.

Lemma mean_run_nobs (values : Series F) (w : nat) (a : mean_acc F)
    (t : nat) :
  (nobs (mean_run values w a 0 t) <= t + 1)%nat.
Proof.
  induction t as [|t IH].
  - cbn [mean_run]. pose proof (mean_step_nobs values w 0 a) as B.
    cbn [Nat.eqb] in B. lia.
  - rewrite mean_run_S.
    pose proof (mean_step_nobs values w (0 + S t)
                  (mean_run values w a 0 t)) as B.
    cbn [Nat.add Nat.eqb] in B. cbn [Nat.add]. lia.
Qed.

Lemma add_var_nobs (l : Series F) :
  forall a, (var_nobs (fold_left (fun a val => add_var val a) l a)
             <= var_nobs a + List.length l)%nat.
Proof.
  induction l as [|x l IH]; intros a; cbn [fold_left List.length]; [lia|].
  etransitivity; [apply IH|]. unfold add_var.
  destruct (x == x)%fl; cbn [var_nobs]; lia.
Qed.

Lemma remove_var_nobs (l : Series F) :
  forall a, (var_nobs (fold_left (fun a val => remove_var val a) l a)
             <= var_nobs a)%nat.
Proof.
  induction l as [|x l IH]; intros a; cbn [fold_left]; [lia|].
  etransitivity; [apply IH|]. unfold remove_var.
  destruct (x == x)%fl; [|lia].
  destruct (pred (var_nobs a) =? 0)%nat; cbn [var_nobs]; lia.
Qed.

Lemma var_step_nobs (values : Series F) (w i : nat) (a : var_acc F) :
  (var_nobs (var_step values w i a)
   <= if (i =? 0)%nat then 1 else S (var_nobs a))%nat.
Proof.
  unfold var_step. cbv zeta.
  destruct (Nat.eqb_spec i 0) as [->|Ni]; cbn [orb].
  - etransitivity; [apply add_var_nobs|]. cbn [var_start var_nobs].
    pose proof (length_slice (0 + 1 - w) (0 + 1) values). lia.
  - destruct (Nat.leb_spec i (i + 1 - w)) as [L|L].
    + etransitivity; [apply add_var_nobs|]. cbn [var_start var_nobs].
      pose proof (length_slice (i + 1 - w) (i + 1) values). lia.
    + etransitivity; [apply add_var_nobs|].
      pose proof (remove_var_nobs (slice (i - w) (i + 1 - w) values) a).
      pose proof (length_slice i (i + 1) values). lia.
Qed.

Lemma var_run_nobs (values : Series F) (w : nat) (a : var_acc F)
    (t : nat) :
  (var_nobs (var_run values w a 0 t) <= t + 1)%nat.
Proof.
  induction t as [|t IH].
  - cbn [var_run]. pose proof (var_step_nobs values w 0 a) as B.
    cbn [Nat.eqb] in B. lia.
  - rewrite var_run_S.
    pose proof (var_step_nobs values w (0 + S t)
                  (var_run values w a 0 t)) as B.
    cbn [Nat.add Nat.eqb] in B. cbn [Nat.add]. lia.
Qed.

(** The first [w - 1] values of a windowed mean or deviation are missing,
    whatever the data. *)
Lemma rolling_mean_warm_up (w : nat) (s : Series F) (t : nat) :
  (t < List.length s)%nat -> (t + 1 < w)%nat ->
  nth_error (rolling_mean w s) t = Some nan.
Proof.
  intros Lt Lw. unfold rolling_mean. cbv zeta.
  rewrite roll_mean_nth by (rewrite length_prep_values; exact Lt).
  f_equal. unfold calc_mean.
  pose proof (mean_run_nobs (prep_values s) w (mean_start nan) t).
  destruct (Nat.leb_spec w (nobs (mean_run (prep_values s) w
                                    (mean_start nan) 0 t)));
    [lia | reflexivity].
Qed.

End RollFacts.

Section FrameFacts.

Context {F : Type} `{Float F}.

Lemma lookup_store_same (name : string) (s : Series F)
    (cols : list (string * Series F)) :
  lookup name (store name s cols) = Some s.
Proof.
  induction cols as [|[n s'] cols IH]; simpl.
  - now rewrite String.eqb_refl.
  - destruct (String.eqb n name) eqn:E; simpl; now rewrite E.
Qed.

Lemma lookup_store_other (name name' : string) (s : Series F)
    (cols : list (string * Series F)) :
  name <> name' -> lookup name' (store name s cols) = lookup name' cols.
Proof.
  intros N. induction cols as [|[n s'] cols IH]; simpl.
  - destruct (String.eqb_spec name name'); [contradiction | reflexivity].
  - destruct (String.eqb_spec n name) as [->|Nn]; simpl.
    + destruct (String.eqb_spec name name'); [contradiction | reflexivity].
    + now rewrite IH.
Qed.

Lemma col_assign_same (name : string) (s : Series F) (df : DataFrame F) :
  col name (assign name s df) = Ok s.
Proof. unfold col, assign; simpl. now rewrite lookup_store_same. Qed.

Lemma col_assign_other (name name' : string) (s : Series F)
    (df : DataFrame F) :
  name <> name' -> col name' (assign name s df) = col name' df.
Proof.
  intros N. unfold col, assign; simpl. now rewrite lookup_store_other.
Qed.

Lemma traverse_length {A B : Type} (f : A -> result B) (l : list A)
    (ys : list B) :
  traverse f l = Ok ys -> List.length ys = List.length l.
Proof.
  revert ys; induction l as [|x l IH]; intros ys; simpl.
  - now intros [= <-].
  - intros E. apply bind_Ok_inv in E as (y & _ & E).
    apply bind_Ok_inv in E as (ys' & E & [= <-]). simpl.
    now rewrite (IH _ E).
Qed.

Lemma traverse_nth {A B : Type} (f : A -> result B) (l : list A)
    (ys : list B) (t : nat) (y : B) :
  traverse f l = Ok ys -> nth_error ys t = Some y ->
  exists x, nth_error l t = Some x /\ f x = Ok y.
Proof.
  revert ys t; induction l as [|x l IH]; intros ys t; simpl.
  - intros [= <-]. destruct t; discriminate.
  - intros E. apply bind_Ok_inv in E as (y0 & E0 & E).
    apply bind_Ok_inv in E as (ys' & E & [= <-]).
    destruct t as [|t]; simpl.
    + intros [= <-]. eauto.
    + apply IH. exact E.
Qed.

Lemma nth_error_seq (n t : nat) (x : nat) :
  nth_error (seq 0 n) t = Some x -> x = t /\ (t < n)%nat.
Proof.
  intros E.
  assert (L : (t < n)%nat).
  { assert (L : (t < List.length (seq 0 n))%nat)
      by (apply nth_error_Some; congruence).
    now rewrite length_seq in L. }
  split; [|exact L].
  apply (nth_error_nth _ _ 0%nat) in E. rewrite seq_nth in E by exact L.
  simpl in E. congruence.
Qed.

Lemma col_assign (name name' : string) (s : Series F) (df : DataFrame F) :
  col name' (assign name s df)
  = if String.eqb name name' then Ok s else col name' df.
Proof.
  destruct (String.eqb_spec name name') as [->|N].
  - apply col_assign_same.
  - now apply col_assign_other.
Qed.

Lemma lookup_mask (name : string) (keep : list bool)
    (cols : list (string * Series F)) :
  lookup name (map (fun c => (fst c, pick keep (snd c))) cols)
  = option_map (pick keep) (lookup name cols).
Proof.
  induction cols as [|[n s] cols IH]; simpl; [reflexivity|].
  destruct (String.eqb n name); [reflexivity | exact IH].
Qed.

Lemma col_mask (name : string) (keep : list bool) (df : DataFrame F) :
  col name (mask keep df) = (s <- col name df;; Ok (pick keep s)).
Proof.
  unfold col, mask; simpl. rewrite lookup_mask.
  destruct (lookup name (columns df)); reflexivity.
Qed.

Lemma length_pick {A B : Type} (keep : list bool) (l1 : list A)
    (l2 : list B) :
  List.length l1 = List.length l2 ->
  List.length (pick keep l1) = List.length (pick keep l2).
Proof.
  revert l1 l2; induction keep as [|k keep IH]; intros [|x l1] [|y l2];
    simpl; try discriminate; try reflexivity.
  intros [= E]. destruct k; simpl; auto.
Qed.

Lemma pick_map_filter {A : Type} (p : A -> bool) (l : list A) :
  pick (map p l) l = filter p l.
Proof.
  induction l as [|x l IH]; simpl; [reflexivity|].
  destruct (p x); now rewrite IH.
Qed.

Lemma length_zip_with (f : F -> F -> F) (a b : Series F) :
  List.length a = List.length b ->
  List.length (zip_with f a b) = List.length a.
Proof.
  revert b; induction a as [|x a IH]; intros [|y b]; simpl;
    try discriminate; auto.
Qed.

Lemma length_max3 (a b c : Series F) :
  List.length a = List.length b -> List.length a = List.length c ->
  List.length (max3 a b c) = List.length a.
Proof.
  revert b c; induction a as [|x a IH]; intros [|y b] [|z c]; simpl;
    try discriminate; auto.
Qed.

Lemma length_shift (k : Z) (s : Series F) :
  List.length (shift k s) = List.length s.
Proof.
  unfold shift. destruct (0 <=? k).
  - rewrite length_firstn, length_app. lia.
  - rewrite length_app, length_skipn, repeat_length. lia.
Qed.

Lemma length_rolling (w : nat) (f : Series F -> F) (s : Series F) :
  List.length (rolling w f s) = List.length s.
Proof. unfold rolling. now rewrite length_map, length_seq. Qed.

Lemma wf_assign (name : string) (s : Series F) (df : DataFrame F) :
  wf df -> List.length s = len df -> wf (assign name s df).
Proof.
  unfold wf, assign, len; simpl. intros W L.
  induction W as [|[n s'] cols Hc Ht IH]; simpl.
  - repeat constructor. exact L.
  - destruct (String.eqb n name); constructor; simpl; auto.
Qed.

Lemma wf_mask (keep : list bool) (df : DataFrame F) :
  wf df -> wf (mask keep df).
Proof.
  unfold wf, mask, len; simpl. intros W.
  apply Forall_map. eapply Forall_impl; [|exact W].
  intros [n s]; simpl. apply length_pick.
Qed.

Lemma wf_col (name : string) (s : Series F) (df : DataFrame F) :
  wf df -> col name df = Ok s -> List.length s = len df.
Proof.
  unfold wf, col. intros W.
  induction W as [|[n s'] cols Hc _ IH]; simpl; [discriminate|].
  destruct (String.eqb n name); [intros [= <-]; exact Hc | exact IH].
Qed.

Lemma frame_ok_col (names : list string) (n : nat) (df : DataFrame F)
    (name : string) :
  frame_ok names n df -> In name names ->
  exists s, col name df = Ok s /\ List.length s = n.
Proof.
  intros (L & W & Hn) Hin.
  rewrite Forall_forall in Hn. destruct (Hn _ Hin) as [s Hs].
  exists s; split; [exact Hs|]. rewrite <- L. eapply wf_col; eassumption.
Qed.

Lemma frame_ok_assign (names : list string) (n : nat) (df : DataFrame F)
    (name : string) (s : Series F) :
  frame_ok names n df -> List.length s = n ->
  frame_ok (name :: names) n (assign name s df).
Proof.
  intros (L & W & Hn) Ls. split; [exact L|]. split.
  - apply wf_assign; [exact W | congruence].
  - constructor.
    + exists s. apply col_assign_same.
    + eapply Forall_impl; [|exact Hn]. intros nm [s' Hs'].
      rewrite col_assign. destruct (String.eqb name nm); eauto.
Qed.

Lemma frame_ok_mask (names : list string) (n : nat) (df : DataFrame F)
    (keep : list bool) :
  frame_ok names n df ->
  frame_ok names (len (mask keep df)) (mask keep df).
Proof.
  intros (L & W & Hn). split; [reflexivity|]. split.
  - now apply wf_mask.
  - eapply Forall_impl; [|exact Hn]. intros nm [s Hs].
    rewrite col_mask, Hs. simpl. eauto.
Qed.

End FrameFacts.

(** ** The feature builder *)

Ltac cols :=
  repeat first [ rewrite col_assign_same
               | rewrite col_assign_other by discriminate ].

Section FeatureFacts.

Context {F : Type} `{Float F}.

(** [prepare_features] evaluated on a frame that has the three columns the
    indicators read. *)
Lemma prepare_features_featured (df : DataFrame F) (c h l : Series F) :
  col "Close" df = Ok c -> col "High" df = Ok h -> col "Low" df = Ok l ->
  prepare_features df = Ok (dropna (featured df c h l), feature_names).
Proof.
  intros Hc Hh Hl. unfold prepare_features, calculate_bollinger_bands,
    calculate_atr.
  rewrite Hc. cbn [bind]. cols. rewrite Hc. cbn [bind]. cols. cbn [bind].
  cols. cbn [bind]. cols. rewrite Hh, Hl, Hc. cbn [bind].
  cbn [seq fold_left]. unfold add_lag.
  change (lag_name 0) with "WMA_3_lag_0".
  change (lag_name 1) with "WMA_3_lag_1".
  change (lag_name 2) with "WMA_3_lag_2".
  change (lag_name 3) with "WMA_3_lag_3".
  change (lag_name 4) with "WMA_3_lag_4".
  change (lag_name 5) with "WMA_3_lag_5".
  repeat (cbn [bind app]; cols).
  reflexivity.
Qed.

Lemma length_true_range (h l c : Series F) (n : nat) :
  List.length h = n -> List.length l = n -> List.length c = n ->
  List.length (true_range h l c) = n.
Proof.
  intros Lh Ll Lc. unfold true_range.
  assert (L1 : List.length (zip_with fsub h l) = n)
    by (rewrite length_zip_with; congruence).
  assert (L2 : List.length (map fabs (zip_with fsub h (shift 1 c))) = n)
    by (rewrite length_map, length_zip_with; rewrite ?length_shift; congruence).
  assert (L3 : List.length (map fabs (zip_with fsub l (shift 1 c))) = n)
    by (rewrite length_map, length_zip_with; rewrite ?length_shift; congruence).
  rewrite length_max3; congruence.
Qed.

Lemma featured_ok (names : list string) (n : nat) (df : DataFrame F)
    (c h l : Series F) :
  frame_ok names n df ->
  List.length c = n -> List.length h = n -> List.length l = n ->
  frame_ok (derived_names ++ names) n (featured df c h l).
Proof.
  intros Hdf Lc Lh Ll. unfold featured, derived_names. simpl app.
  repeat (apply frame_ok_assign;
          [| unfold calculate_wma_3;
             rewrite ?length_zip_with, ?length_map, ?length_shift,
               ?length_rolling, ?length_rolling_mean, ?length_rolling_std;
             rewrite ?length_zip_with, ?length_map, ?length_shift,
               ?length_rolling, ?length_rolling_mean, ?length_rolling_std;
             auto using length_true_range ]).
  exact Hdf.
Qed.

Lemma select_ok (names fc : list string) (n : nat) (df : DataFrame F) :
  frame_ok names n df -> incl fc names ->
  exists X, select fc df = Ok X /\
            Forall (fun s => List.length s = n) X.
Proof.
  intros Hdf. induction fc as [|nm fc IH]; intros Hi; simpl.
  - exists []. split; [reflexivity | constructor].
  - destruct (frame_ok_col _ _ _ nm Hdf) as (s & Hs & Ls).
    { apply Hi. now left. }
    destruct IH as (X & HX & LX).
    { intros x Hx. apply Hi. now right. }
    rewrite Hs, HX. simpl. exists (s :: X). split; [reflexivity|].
    constructor; assumption.
Qed.

Lemma cell_ok (names : list string) (n : nat) (df : DataFrame F)
    (name : string) (i : nat) :
  frame_ok names n df -> In name names -> (i < n)%nat ->
  exists s x, col name df = Ok s /\ nth_error s i = Some x /\
              cell name i df = Ok x.
Proof.
  intros Hdf Hin Li.
  destruct (frame_ok_col _ _ _ name Hdf Hin) as (s & Hs & Ls).
  destruct (nth_error s i) as [x|] eqn:Hx.
  2:{ apply nth_error_None in Hx. lia. }
  exists s, x. unfold cell. rewrite Hs. simpl. rewrite Hx. auto.
Qed.

Lemma traverse_ok {A B : Type} (f : A -> result B) (l : list A) :
  (forall x, In x l -> exists y, f x = Ok y) ->
  exists ys, traverse f l = Ok ys.
Proof.
  induction l as [|x l IH]; intros Hf; simpl; [eauto|].
  destruct (Hf x) as [y Hy]; [now left|].
  destruct IH as [ys Hys]; [intros z Hz; apply Hf; now right|].
  rewrite Hy, Hys. simpl. eauto.
Qed.

(** Reading the bars of a frame that has the five columns of the loop. *)
Lemma read_bars_ok (names : list string) (n : nat) (td : DataFrame F)
    (closes : Series F) :
  frame_ok names n td ->
  incl ["Predicted_WMA_Next"; "Upper_Track"; "Lower_Track"; "ATR"; "Close"]
       names ->
  col "Close" td = Ok closes ->
  exists bars,
    read_bars td = Ok bars /\
    forall b, In b bars -> In (close b) closes.
Proof.
  intros Htd Hi Hc.
  assert (Hread : forall i, (i < n)%nat ->
            exists b, read_bar td i = Ok b /\ In (close b) closes).
  { intros i Li. unfold read_bar.
    destruct (cell_ok _ _ _ "Predicted_WMA_Next" i Htd)
      as (s1 & p & _ & _ & ->);
      [apply Hi; simpl; tauto | exact Li |].
    destruct (cell_ok _ _ _ "Upper_Track" i Htd) as (s2 & u & _ & _ & ->);
      [apply Hi; simpl; tauto | exact Li |].
    destruct (cell_ok _ _ _ "Lower_Track" i Htd) as (s3 & lo & _ & _ & ->);
      [apply Hi; simpl; tauto | exact Li |].
    destruct (cell_ok _ _ _ "ATR" i Htd) as (s4 & a & _ & _ & ->);
      [apply Hi; simpl; tauto | exact Li |].
    destruct (cell_ok _ _ _ "Close" i Htd) as (s & x & Hs & Hx & ->);
      [apply Hi; simpl; tauto | exact Li |].
    simpl. eexists; split; [reflexivity|]. simpl.
    assert (s = closes) by congruence. subst s.
    eapply nth_error_In; eassumption. }
  destruct (traverse_ok (read_bar td) (seq 0 (len td))) as [bars Hb].
  { intros i Hin. apply in_seq in Hin. destruct (Hread i) as (b & Hb & _).
    - destruct Htd as [L _]. lia.
    - eauto. }
  exists bars. split; [exact Hb|].
  intros b Hin. apply In_nth_error in Hin as [t Ht].
  destruct (traverse_nth _ _ _ _ _ Hb Ht) as (i & Hi' & Hr).
  apply nth_error_seq in Hi' as [-> Lt].
  destruct (Hread t) as (b' & Hb' & Hcl).
  - destruct Htd as [L _]. lia.
  - congruence.
Qed.

Lemma select_nth (fc : list string) (df : DataFrame F) (X : list (Series F))
    (j : nat) (name : string) :
  select fc df = Ok X -> nth_error fc j = Some name ->
  exists s, nth_error X j = Some s /\ col name df = Ok s.
Proof.
  revert X j; induction fc as [|nm fc IH]; intros X j; simpl.
  - intros _. destruct j; discriminate.
  - intros E. apply bind_Ok_inv in E as (s & Hs & E).
    apply bind_Ok_inv in E as (X' & HX & [= <-]).
    destruct j as [|j]; simpl.
    + intros [= <-]. eauto.
    + apply IH. exact HX.
Qed.

Lemma select_length (fc : list string) (df : DataFrame F)
    (X : list (Series F)) :
  select fc df = Ok X -> List.length X = List.length fc.
Proof.
  revert X; induction fc as [|nm fc IH]; intros X; simpl.
  - now intros [= <-].
  - intros E. apply bind_Ok_inv in E as (s & Hs & E).
    apply bind_Ok_inv in E as (X' & HX & [= <-]). simpl.
    now rewrite (IH _ HX).
Qed.

Lemma rows_nth (n r : nat) (X : list (Series F)) :
  (r < n)%nat -> nth r (rows n X) [] = map (fun s => nth r s nan) X.
Proof.
  intros L. unfold rows.
  rewrite (nth_indep _ [] (map (fun s => nth 0 s nan) X))
    by now rewrite length_map, length_seq.
  rewrite (map_nth (fun i => map (fun s => nth i s nan) X) (seq 0 n) 0%nat r).
  now rewrite seq_nth.
Qed.

(** Row [r] of the matrix selected by [fc] lists the cells of row [r] in
    the order of [fc]. *)
Lemma feature_vector_matches (names fc : list string) (n : nat)
    (df : DataFrame F) (X : list (Series F)) (r : nat) :
  frame_ok names n df -> incl fc names -> select fc df = Ok X ->
  (r < n)%nat ->
  List.length (nth r (rows n X) []) = List.length fc /\
  forall j name, nth_error fc j = Some name ->
    exists x, cell name r df = Ok x /\
              nth_error (nth r (rows n X) []) j = Some x.
Proof.
  intros Hdf Hi HX Lr. rewrite rows_nth by exact Lr. split.
  - rewrite length_map. eapply select_length; eassumption.
  - intros j name Hj.
    destruct (select_nth _ _ _ _ _ HX Hj) as (s & Hs & Hc).
    destruct (cell_ok _ _ _ name r Hdf) as (s' & x & Hc' & Hx & Hcell);
      [apply Hi; eapply nth_error_In; eassumption | exact Lr |].
    assert (s' = s) by congruence. subst s'.
    exists x. split; [exact Hcell|].
    rewrite nth_error_map, Hs. simpl. f_equal.
    now apply nth_error_nth.
Qed.

Lemma complete_iff (df : DataFrame F) (t : nat) :
  complete df t = true <->
  forall name s, In (name, s) (columns df) -> is_nan (nth t s nan) = false.
Proof.
  unfold complete. rewrite forallb_forall. split.
  - intros Hc name s Hin. apply Hc in Hin. simpl in Hin.
    now apply negb_true_iff.
  - intros Hc [name s] Hin. simpl. apply negb_true_iff. eauto.
Qed.

End FeatureFacts.

(** Deciding the comparisons of [exact] on given reals. *)
Ltac real_tests :=
  repeat (cbn;
          unfold pydiv, Exact.lift2, Exact.lift1, Exact.div, Exact.sqrt,
                 Exact.test, Exact.Reqb, Exact.Rltb, Exact.Rleb;
          match goal with
          | |- context [Rle_dec ?x ?y] => destruct (Rle_dec x y); try lra
          | |- context [Rlt_dec ?x ?y] => destruct (Rlt_dec x y); try lra
          | |- context [Req_dec_T ?x ?y] => destruct (Req_dec_T x y); try lra
          end);
  cbn.

(** ** Claims about the position state machine *)

(** C1. In the enhanced simulator the state after a bar is the state the
    four rules of the specification give, tried in their order with the
    first applicable one firing alone (FLAT to LONG, FLAT to SHORT, LONG to
    FLAT, SHORT to FLAT, else unchanged); a bar whose close is not zero
    always completes; and so along every sequence of evaluation bars. *)
Theorem enhanced_transition_follows_rules {F : Type} `{Float F} (ic : F) :
  (forall (b : bar F) (a : account F) (s : PositionState F),
      abstract a = Some s ->
      (forall a', trade ic b a = Ok a' ->
                  abstract a' = Some (spec_transition ic b s)) /\
      ((close b == fzero)%fl = false -> exists a', trade ic b a = Ok a')) /\
  (forall (bars : list (bar F)) (v : loop_vars F),
      simulate ic bars (loop_start ic) = Ok v ->
      forall n : nat,
      exists vn,
        simulate ic (firstn n bars) (loop_start ic) = Ok vn /\
        abstract (acct vn)
        = Some (spec_run ic (firstn n bars) (spec_start ic))).
Proof.
  split.
  - intros b a s Ha; split.
    + intros a' Ht. eapply trade_abstract; eassumption.
    + apply trade_succeeds.
  - intros bars v E n.
    destruct (simulate_split ic bars _ _ n E) as (vn & En & _).
    exists vn; split; [exact En|].
    eapply simulate_abstract; [|exact En]. reflexivity.
Qed.

Lemma enhanced_transition_follows_rules_witness :
  exists vn,
    simulate 100000%float (firstn 3 four_bars) (loop_start 100000%float)
    = Ok vn /\
    abstract (acct vn)
    = Some (spec_run 100000%float (firstn 3 four_bars)
                     (spec_start 100000%float)).
Proof.
  eapply (proj2 (enhanced_transition_follows_rules 100000%float) four_bars).
  vm_compute. reflexivity.
Defined.

(** C2. Opening a SHORT from FLAT sets shares to initial_capital / close
    and cash to initial_capital + shares * close, whatever cash was held;
    closing a SHORT through its stop-loss lowers cash by shares * close, and
    the value reported for that bar is the SHORT valuation
    cash - shares * close of the account as it stood before the closing. *)
Theorem short_accounting {F : Type} `{Float F} (ic : F) (b : bar F)
    (a : account F) :
  (position a = 0 ->
   (pred_wma b <= lower b)%fl = false ->
   (pred_wma b >= upper b)%fl = true ->
   (close b == fzero)%fl = false ->
   trade ic b a
   = Ok {| cash := (ic + (ic / close b) * close b)%fl; position := -1;
           entry_price := close b; shares := (ic / close b)%fl |}) /\
  (position a = -1 ->
   (pred_wma b > entry_price a + of_Z 3 * atr b)%fl = true ->
   exists a',
     trade ic b a = Ok a' /\
     position a' = 0 /\ shares a' = fzero /\
     cash a' = (cash a - shares a * close b)%fl /\
     forall cv, valuation b a' cv = Some (cash a - shares a * close b)%fl /\
                valuation b a cv = valuation b a' cv).
Proof.
  split.
  - intros Hp Hl Hu Hc. unfold trade.
    rewrite Hp, Hl, Hu, !pydiv_Ok by exact Hc. reflexivity.
  - intros Hp Hs. unfold trade. rewrite Hp, Hs. simpl.
    eexists; split; [reflexivity|]. simpl.
    repeat split; unfold valuation; simpl; now rewrite ?Hp.
Qed.

Lemma short_accounting_witness :
  trade 100000%float
        {| pred_wma := 130%float; upper := 120%float; lower := 95%float;
           atr := 2%float; close := 110%float |}
        {| cash := 110000%float; position := 0; entry_price := 100%float;
           shares := 0%float |}
  = Ok {| cash := (100000 + (100000 / 110) * 110)%float; position := -1;
          entry_price := 110%float; shares := (100000 / 110)%float |}
  /\
  exists a',
    trade 100000%float
          {| pred_wma := 140%float; upper := 150%float; lower := 95%float;
             atr := 2%float; close := 120%float |}
          {| cash := 200000%float; position := -1;
             entry_price := 110%float; shares := 1000%float |}
    = Ok a' /\ position a' = 0 /\ cash a' = 80000%float.
Proof.
  split.
  - exact (proj1 (short_accounting 100000%float
             {| pred_wma := 130%float; upper := 120%float; lower := 95%float;
                atr := 2%float; close := 110%float |}
             {| cash := 110000%float; position := 0;
                entry_price := 100%float; shares := 0%float |})
             eq_refl eq_refl eq_refl eq_refl).
  - destruct (proj2 (short_accounting 100000%float
             {| pred_wma := 140%float; upper := 150%float; lower := 95%float;
                atr := 2%float; close := 120%float |}
             {| cash := 200000%float; position := -1;
                entry_price := 110%float; shares := 1000%float |}))
      as (a' & Ht & Hp & _ & Hc & _);
      [reflexivity | vm_compute; reflexivity |].
    exists a'. repeat split; assumption.
Defined.

(** C4. At every bar of every run [position] is one of 0 (FLAT), 1 (LONG)
    and -1 (SHORT), and [shares] is 0.0 whenever it is 0: the property holds
    of the initial variables, every completed transition preserves it, and
    it holds after each bar of a completed run. *)
Theorem position_invariant {F : Type} `{Float F} (ic : F) :
  account_ok (start ic) /\
  (forall (b : bar F) (a a' : account F),
      account_ok a -> trade ic b a = Ok a' -> account_ok a') /\
  (forall (bars : list (bar F)) (v : loop_vars F),
      simulate ic bars (loop_start ic) = Ok v ->
      forall n : nat,
      exists vn,
        simulate ic (firstn n bars) (loop_start ic) = Ok vn /\
        account_ok (acct vn)).
Proof.
  split; [apply start_ok|]. split; [apply trade_preserves|].
  intros bars v E n.
  destruct (simulate_split ic bars _ _ n E) as (vn & En & _).
  exists vn; split; [exact En|].
  eapply simulate_ok; [|exact En]. apply start_ok.
Qed.

Lemma position_invariant_witness :
  exists vn,
    simulate 100000%float (firstn 3 four_bars) (loop_start 100000%float)
    = Ok vn /\ account_ok (acct vn).
Proof.
  eapply (proj2 (proj2 (position_invariant 100000%float)) four_bars).
  vm_compute. reflexivity.
Defined.

(** C10 (as amended).  Every FLAT to SHORT entry sets shares to
    initial_capital / close and overwrites cash with
    initial_capital + shares * close, and the value recorded for the entry
    bar is cash - shares * close of these new values: none of the three
    depends on the cash held before the entry.  In exact arithmetic the
    new cash is 2 * initial_capital and the recorded value is
    initial_capital; in the program's floats they are so up to the rounding
    of the three operations. *)
Theorem short_entry_resets_equity :
  (forall (F : Type) (HF : Float F) (ic : F) (b : bar F) (a a' : account F)
          (cv : option F),
      position a = 0 ->
      trade ic b a = Ok a' ->
      position a' = -1 ->
      shares a' = (ic / close b)%fl /\
      cash a' = (ic + (ic / close b) * close b)%fl /\
      valuation b a' cv
      = Some ((ic + (ic / close b) * close b) - (ic / close b) * close b)%fl)
  /\
  (forall (i c : R) (b : bar Exact.t) (a a' : account Exact.t)
          (cv : option Exact.t),
      close b = Some c ->
      position a = 0 ->
      trade (Some i) b a = Ok a' ->
      position a' = -1 ->
      c <> 0%R /\
      shares a' = Some (i / c)%R /\
      cash a' = Some (2 * i)%R /\
      valuation b a' cv = Some (Some i)).
Proof.
  assert (G : forall (F : Type) (HF : Float F) (ic : F) (b : bar F)
                     (a a' : account F),
             position a = 0 -> trade ic b a = Ok a' -> position a' = -1 ->
             (close b == fzero)%fl = false /\
             a' = {| cash := (ic + (ic / close b) * close b)%fl;
                     position := -1; entry_price := close b;
                     shares := (ic / close b)%fl |}).
  { intros F HF ic b a a' Hp Ht Hp'. unfold trade in Ht. rewrite Hp in Ht.
    cbn [Z.eqb andb] in Ht.
    destruct (fleb (pred_wma b) (lower b)).
    { apply bind_Ok_inv in Ht as (sh & _ & [= <-]). discriminate. }
    destruct (fleb (upper b) (pred_wma b)).
    2:{ injection Ht as <-. rewrite Hp in Hp'. discriminate. }
    apply bind_Ok_inv in Ht as (sh & Hd & [= <-]).
    apply pydiv_Ok_inv in Hd as [Hz ->]. auto. }
  split.
  - intros F HF ic b a a' cv Hp Ht Hp'.
    destruct (G F HF ic b a a' Hp Ht Hp') as [_ ->]. auto.
  - intros i c b a a' cv Hc Hp Ht Hp'.
    destruct (G _ _ (Some i) b a a' Hp Ht Hp') as [Hz ->].
    rewrite Hc in Hz |- *.
    assert (Nz : c <> 0%R).
    { revert Hz. cbn. unfold Exact.Reqb.
      destruct (Req_dec_T c 0); [discriminate | auto]. }
    split; [exact Nz|].
    unfold valuation; cbn. rewrite Hc. unfold Exact.div.
    destruct (Req_dec_T c 0) as [E|_]; [contradiction|]. cbn.
    split; [reflexivity|].
    split; [f_equal | do 2 f_equal]; field; exact Nz.
Qed.

Lemma short_entry_resets_equity_witness :
  (shares {| cash := 200000%float; position := -1;
             entry_price := 110%float; shares := (100000 / 110)%float |}
   = (100000 / 110)%float /\
   200000%float = (100000 + (100000 / 110) * 110)%float /\
   valuation short_entry_bar
             {| cash := 200000%float; position := -1;
                entry_price := 110%float; shares := (100000 / 110)%float |}
             None
   = Some ((100000 + (100000 / 110) * 110) - (100000 / 110) * 110)%float)
  /\
  (110%R <> 0%R /\
   shares {| cash := Some 200000%R; position := -1;
             entry_price := Some 110%R; shares := Some (100000 / 110)%R |}
   = Some (100000 / 110)%R /\
   Some 200000%R = Some (2 * 100000)%R /\
   valuation {| pred_wma := Some 130%R; upper := Some 120%R;
                lower := Some 95%R; atr := Some 2%R; close := Some 110%R |}
             {| cash := Some 200000%R; position := -1;
                entry_price := Some 110%R; shares := Some (100000 / 110)%R |}
             None
   = Some (Some 100000%R)).
Proof.
  split.
  - exact (proj1 short_entry_resets_equity float binary64 100000%float
             short_entry_bar
             {| cash := 5%float; position := 0; entry_price := 0%float;
                shares := 0%float |}
             {| cash := 200000%float; position := -1;
                entry_price := 110%float; shares := (100000 / 110)%float |}
             None eq_refl eq_refl eq_refl).
  - apply (proj2 short_entry_resets_equity 100000%R 110%R
             {| pred_wma := Some 130%R; upper := Some 120%R;
                lower := Some 95%R; atr := Some 2%R; close := Some 110%R |}
             {| cash := Some 5%R; position := 0;
                entry_price := Some 0%R; shares := Some 0%R |}).
    + reflexivity.
    + reflexivity.
    + unfold trade. real_tests. do 3 f_equal. field.
    + reflexivity.
Defined.

(** C10, the claim as stated fails in the program's floats: with
    initial_capital = 100000.0, a short entry at close = 11.0 sets
    shares = 100000.0 / 11.0, whose product with 11.0 rounds to
    99999.999999999985; cash is 200000.0 and the value recorded for the bar
    is 200000.0 - 99999.999999999985 = 100000.00000000001, not 100000.0. *)
Lemma short_entry_value_is_rounded :
  exists a' v,
    trade 100000%float
          {| pred_wma := 12%float; upper := 12%float; lower := 10%float;
             atr := 1%float; close := 11%float |}
          {| cash := 100000%float; position := 0; entry_price := 0%float;
             shares := 0%float |}
    = Ok a' /\
    position a' = -1 /\
    cash a' = 200000%float /\
    valuation {| pred_wma := 12%float; upper := 12%float; lower := 10%float;
                 atr := 1%float; close := 11%float |} a' None
    = Some v /\
    v = (200000 - (100000 / 11) * 11)%float /\
    (v == 100000%float)%fl = false /\
    (100000%float < v)%fl = true.
Proof.
  do 2 eexists. repeat split; vm_compute; reflexivity.
Qed.

(** C3. The Portfolio_Value column of the enhanced run has the index of
    the evaluation frame and one value per evaluation bar, in order; the
    value of bar [t] is computed from the account as the transition of bar
    [t] leaves it: cash when FLAT, shares * close when LONG,
    cash - shares * close when SHORT. *)
Theorem portfolio_values_aligned {F : Type} `{Float F} (ic : F)
    (model : Type) (predict : model -> list F -> F) (m : model)
    (feature_cols : list string) (test_data out : DataFrame F) :
  trade_test_data ic predict m feature_cols test_data = Ok out ->
  exists td bars pv,
    predict_test_data predict m feature_cols test_data = Ok td /\
    read_bars td = Ok bars /\
    index out = index test_data /\
    col "Portfolio_Value" out = Ok pv /\
    List.length pv = len test_data /\
    forall t : nat, (t < len test_data)%nat ->
      exists b vt s,
        read_bar td t = Ok b /\
        simulate ic (firstn (S t) bars) (loop_start ic) = Ok vt /\
        abstract (acct vt) = Some s /\
        nth_error pv t = Some (spec_value b s).
Proof.
  unfold trade_test_data. intros E.
  apply bind_Ok_inv in E as (td & Etd & E).
  apply bind_Ok_inv in E as (bars & Ebars & E).
  apply bind_Ok_inv in E as (v & Ev & [= <-]).
  assert (Ei : index td = index test_data).
  { unfold predict_test_data in Etd.
    apply bind_Ok_inv in Etd as (X & _ & Etd).
    apply bind_Ok_inv in Etd as (w & _ & Etd).
    apply bind_Ok_inv in Etd as (p & _ & [= <-]). reflexivity. }
  assert (Lb : List.length bars = len test_data).
  { unfold read_bars in Ebars. apply traverse_length in Ebars.
    rewrite length_seq in Ebars. unfold len in *. congruence. }
  exists td, bars, (portfolio_values v).
  split; [exact Etd|]. split; [exact Ebars|]. split; [exact Ei|].
  split; [apply col_assign_same|]. split.
  - apply simulate_values in Ev as (vals & Evals & Lvals).
    simpl in Evals. congruence.
  - intros t Lt.
    destruct (nth_error bars t) as [b|] eqn:Hb.
    2:{ apply nth_error_None in Hb. lia. }
    destruct (traverse_nth _ _ _ _ _ Ebars Hb) as (i & Hi & Hr).
    apply nth_error_seq in Hi as [-> _].
    destruct (simulate_nth_value ic bars v t b Ev Hb) as (vt & s & P).
    exists b, vt, s. tauto.
Qed.

Lemma portfolio_values_aligned_witness :
  exists td bars pv,
    predict_test_data no_trend tt ["Close"] two_rows = Ok td /\
    read_bars td = Ok bars /\
    index (assign "Portfolio_Value" [100000; 110000]%float
             (assign "Predicted_WMA_Next" [90; 125]%float
                (assign "Predicted_Diff" [0; 0]%float two_rows)))
    = index two_rows /\
    col "Portfolio_Value"
        (assign "Portfolio_Value" [100000; 110000]%float
           (assign "Predicted_WMA_Next" [90; 125]%float
              (assign "Predicted_Diff" [0; 0]%float two_rows)))
    = Ok pv /\
    List.length pv = len two_rows /\
    forall t : nat, (t < len two_rows)%nat ->
      exists b vt s,
        read_bar td t = Ok b /\
        simulate 100000%float (firstn (S t) bars) (loop_start 100000%float)
        = Ok vt /\
        abstract (acct vt) = Some s /\
        nth_error pv t = Some (spec_value b s).
Proof.
  apply (portfolio_values_aligned 100000%float unit no_trend tt ["Close"]
           two_rows).
  vm_compute. reflexivity.
Defined.

(** ** The enhanced run *)

Section RunFacts.

Context {F : Type} `{Float F}.
Variable model : Type.
Variable predict : model -> list F -> F.

Lemma length_rows (n : nat) (X : list (Series F)) :
  List.length (rows n X) = n.
Proof. unfold rows. now rewrite length_map, length_seq. Qed.

(** On a well-formed evaluation frame that has the columns of
    [prepare_features], everything up to the loop succeeds. *)
Lemma predict_test_data_ok (m : model) (n : nat) (test_data : DataFrame F)
    (closes : Series F) :
  frame_ok (derived_names ++ price_names) n test_data ->
  col "Close" test_data = Ok closes ->
  exists td bars,
    predict_test_data predict m feature_names test_data = Ok td /\
    read_bars td = Ok bars /\
    forall b, In b bars -> In (close b) closes.
Proof.
  intros Ht Hc.
  destruct (select_ok _ feature_names _ _ Ht) as (X & HX & LX).
  { unfold feature_names, derived_names, price_names.
    intros x Hx; simpl in *; tauto. }
  destruct (frame_ok_col _ _ _ "WMA_3" Ht) as (wma & Hw & Lw).
  { simpl; tauto. }
  pose proof Ht as (Ln & _).
  set (diff := map (predict m) (rows (len test_data) X)).
  set (td := assign "Predicted_WMA_Next" (zip_with fadd wma diff)
               (assign "Predicted_Diff" diff test_data)).
  assert (Ld : List.length diff = n).
  { unfold diff. now rewrite length_map, length_rows. }
  assert (Etd : predict_test_data predict m feature_names test_data = Ok td).
  { unfold predict_test_data. rewrite HX. cbn [bind]. fold diff. cols.
    rewrite Hw. cbn [bind]. reflexivity. }
  assert (Htd : frame_ok ("Predicted_WMA_Next" :: "Predicted_Diff"
                            :: derived_names ++ price_names) n td).
  { unfold td. apply frame_ok_assign; [apply frame_ok_assign|].
    - exact Ht.
    - exact Ld.
    - rewrite length_zip_with; congruence. }
  destruct (read_bars_ok _ _ td closes Htd) as (bars & Hb & Hcl).
  { intros x Hx; simpl in *; tauto. }
  { unfold td. cols. exact Hc. }
  exists td, bars. auto.
Qed.

End RunFacts.

(** C5 (as amended).  Rows dated strictly before the cutoff form the
    training set and the rows on or after it the evaluation set.  With an
    empty evaluation set the run raises ValueError before anything is
    fitted or valued, leaving the model as it was.  With a non-empty
    evaluation set and a successful fit, the run completes when no
    evaluation bar has a close of zero, and the only failure of the loop is
    the ZeroDivisionError of an entry on a bar whose close is zero. *)
Theorem run_split_and_failures {F : Type} `{Float F} (ic : F)
    (model : Type) (fit : list (list F) -> Series F -> result model)
    (predict : model -> list F -> F) (self_model : option model)
    (df : DataFrame F) (n : nat) (split_date : Z) :
  frame_ok price_names n df ->
  exists dfp,
    prepare_features df = Ok (dfp, feature_names) /\
    index (train_of split_date dfp)
    = filter (fun t => t <? split_date) (index dfp) /\
    index (test_of split_date dfp)
    = filter (fun t => t >=? split_date) (index dfp) /\
    (len (test_of split_date dfp) = 0%nat ->
     run ic fit predict self_model df split_date
     = (Raise (ValueError "No test data available."), self_model)) /\
    (len (test_of split_date dfp) <> 0%nat ->
     forall m,
       fit_train fit feature_names (train_of split_date dfp) = Ok m ->
       (forall closes,
           col "Close" (test_of split_date dfp) = Ok closes ->
           Forall (fun c => (c == fzero)%fl = false) closes ->
           exists out,
             run ic fit predict self_model df split_date = (Ok out, Some m))
       /\
       (forall e,
           run ic fit predict self_model df split_date = (Raise e, Some m) ->
           e = ZeroDivisionError /\
           exists closes c,
             col "Close" (test_of split_date dfp) = Ok closes /\
             In c closes /\ (c == fzero)%fl = true)).
Proof.
  intros Hdf.
  destruct (frame_ok_col _ _ _ "Close" Hdf) as (c & Hc & Lc);
    [simpl; tauto|].
  destruct (frame_ok_col _ _ _ "High" Hdf) as (h & Hh & Lh);
    [simpl; tauto|].
  destruct (frame_ok_col _ _ _ "Low" Hdf) as (l & Hl & Ll);
    [simpl; tauto|].
  pose proof (prepare_features_featured df c h l Hc Hh Hl) as Hp.
  pose proof (featured_ok _ _ _ _ _ _ Hdf Lc Lh Ll) as Hfull.
  set (dfp := dropna (featured df c h l)) in *.
  assert (Hdfp : frame_ok (derived_names ++ price_names) (len dfp) dfp)
    by (apply frame_ok_mask with (n := n); exact Hfull).
  assert (Htest : frame_ok (derived_names ++ price_names)
                    (len (test_of split_date dfp)) (test_of split_date dfp))
    by (apply frame_ok_mask with (n := len dfp); exact Hdfp).
  exists dfp. split; [exact Hp|].
  split; [apply pick_map_filter|]. split; [apply pick_map_filter|].
  split.
  - intros E. unfold run. rewrite Hp, E. reflexivity.
  - intros N m Hfit.
    destruct (frame_ok_col _ _ _ "Close" Htest) as (closes & Hcl & _);
      [simpl; tauto|].
    destruct (predict_test_data_ok model predict m _ _ closes Htest Hcl)
      as (td & bars & Etd & Ebars & Hbars).
    assert (Erun : run ic fit predict self_model df split_date
                   = (trade_test_data ic predict m feature_names
                        (test_of split_date dfp), Some m)).
    { unfold run. rewrite Hp.
      destruct (Nat.eqb_spec (len (test_of split_date dfp)) 0);
        [contradiction|].
      now rewrite Hfit. }
    rewrite Erun. unfold trade_test_data. rewrite Etd. cbn [bind].
    rewrite Ebars. cbn [bind]. split.
    + intros closes' Hcl' Hnz.
      assert (closes' = closes) by congruence. subst closes'.
      destruct (simulate_succeeds ic bars (loop_start ic)) as [v Hv].
      * apply start_ok.
      * rewrite Forall_forall in *. intros b Hb. apply Hnz, Hbars, Hb.
      * rewrite Hv. cbn [bind]. eauto.
    + intros e.
      destruct (simulate ic bars (loop_start ic)) as [v|e'] eqn:Hv;
        cbn [bind]; [discriminate|].
      intros [= <-].
      apply simulate_raises in Hv as [-> (b & Hb & Hz)]; [|apply start_ok].
      split; [reflexivity|]. exists closes, (close b). auto.
Qed.

Lemma run_split_and_failures_witness :
  exists dfp,
    prepare_features rising_prices = Ok (dfp, feature_names) /\
    index (train_of 21 dfp) = filter (fun t => t <? 21) (index dfp) /\
    index (test_of 21 dfp) = filter (fun t => t >=? 21) (index dfp) /\
    (len (test_of 21 dfp) = 0%nat ->
     run 100000%float fit_unit no_trend None rising_prices 21
     = (Raise (ValueError "No test data available."), None)) /\
    (len (test_of 21 dfp) <> 0%nat ->
     forall m,
       fit_train fit_unit feature_names (train_of 21 dfp) = Ok m ->
       (forall closes,
           col "Close" (test_of 21 dfp) = Ok closes ->
           Forall (fun c => (c == fzero)%fl = false) closes ->
           exists out,
             run 100000%float fit_unit no_trend None rising_prices 21
             = (Ok out, Some m))
       /\
       (forall e,
           run 100000%float fit_unit no_trend None rising_prices 21
           = (Raise e, Some m) ->
           e = ZeroDivisionError /\
           exists closes c,
             col "Close" (test_of 21 dfp) = Ok closes /\
             In c closes /\ (c == fzero)%fl = true)).
Proof.
  apply (run_split_and_failures 100000%float unit fit_unit no_trend None
           rising_prices 25 21).
  split; [reflexivity|]. split.
  - repeat constructor.
  - repeat constructor; eexists; reflexivity.
Defined.

(** C5, the claim as stated fails: on 22 bars of price 0 split at day 20
    the evaluation set has a row, the fit succeeds, and the loop raises
    ZeroDivisionError at the first entry. *)
Lemma run_zero_close_raises :
  (exists dfp fc,
      prepare_features zero_prices = Ok (dfp, fc) /\
      len (test_of 20 dfp) = 1%nat) /\
  run 100000%float fit_unit no_trend None zero_prices 20
  = (Raise ZeroDivisionError, Some tt).
Proof.
  split.
  - eexists; eexists; split; vm_compute; reflexivity.
  - vm_compute. reflexivity.
Qed.

(** C6 (as amended).  [prepare_features] returns the feature names Open,
    High, Low, Close, Volume and the six lags of WMA_3 (lag 0 to lag 5);
    the feature vector of every returned row lists that row's cells in the
    order of the names and has their number; Target_Diff at t is
    WMA_3(t+1) - WMA_3(t); and the rows returned are the rows of the frame
    that have no missing value in any column, the input columns and every
    derived one (WMA_3, MA, STD, the two tracks, ATR, the lags and the
    target). *)
Theorem prepare_features_rows {F : Type} `{Float F} (df : DataFrame F)
    (n : nat) :
  frame_ok price_names n df ->
  exists c h l,
    col "Close" df = Ok c /\ col "High" df = Ok h /\ col "Low" df = Ok l /\
    let wma := calculate_wma_3 c in
    let full := featured df c h l in
    let dfp := dropna full in
    prepare_features df = Ok (dfp, feature_names) /\
    (forall i : nat, (i < 6)%nat ->
        col (lag_name i) full = Ok (shift (Z.of_nat i) wma)) /\
    col "Target_Diff" full = Ok (zip_with fsub (shift (-1) wma) wma) /\
    (exists X,
        select feature_names dfp = Ok X /\
        forall r : nat, (r < len dfp)%nat ->
          List.length (nth r (rows (len dfp) X) [])
          = List.length feature_names /\
          forall j name, nth_error feature_names j = Some name ->
            exists x, cell name r dfp = Ok x /\
                      nth_error (nth r (rows (len dfp) X) []) j = Some x) /\
    index dfp = pick (map (complete full) (seq 0 n)) (index df) /\
    (forall t : nat,
        complete full t = true <->
        forall name s, In (name, s) (columns full) ->
                       is_nan (nth t s nan) = false).
Proof.
  intros Hdf.
  destruct (frame_ok_col _ _ _ "Close" Hdf) as (c & Hc & Lc);
    [simpl; tauto|].
  destruct (frame_ok_col _ _ _ "High" Hdf) as (h & Hh & Lh);
    [simpl; tauto|].
  destruct (frame_ok_col _ _ _ "Low" Hdf) as (l & Hl & Ll);
    [simpl; tauto|].
  exists c, h, l. split; [exact Hc|]. split; [exact Hh|]. split; [exact Hl|].
  intros wma full dfp.
  pose proof (featured_ok _ _ _ _ _ _ Hdf Lc Lh Ll) as Hfull.
  fold full in Hfull.
  assert (Hdfp : frame_ok (derived_names ++ price_names) (len dfp) dfp)
    by (apply frame_ok_mask with (n := n); exact Hfull).
  split; [apply prepare_features_featured; assumption|].
  split.
  { intros i Li. unfold full, featured. fold wma.
    do 6 (destruct i as [|i]; [cbn; cols; reflexivity|]). lia. }
  split; [unfold full, featured; cols; reflexivity|].
  split.
  { destruct (select_ok _ feature_names _ _ Hdfp) as (X & HX & _).
    { intros x Hx; simpl in *; tauto. }
    exists X. split; [exact HX|]. intros r Lr.
    apply feature_vector_matches with (names := derived_names ++ price_names);
      auto.
    intros x Hx; simpl in *; tauto. }
  split.
  { unfold dfp, dropna, mask; simpl.
    destruct Hfull as (Ln & _). rewrite Ln.
    reflexivity. }
  intros t. apply complete_iff.
Qed.

Lemma prepare_features_rows_witness :
  exists c h l,
    col "Close" rising_prices = Ok c /\ col "High" rising_prices = Ok h /\
    col "Low" rising_prices = Ok l /\
    let wma := calculate_wma_3 c in
    let full := featured rising_prices c h l in
    let dfp := dropna full in
    prepare_features rising_prices = Ok (dfp, feature_names) /\
    (forall i : nat, (i < 6)%nat ->
        col (lag_name i) full = Ok (shift (Z.of_nat i) wma)) /\
    col "Target_Diff" full = Ok (zip_with fsub (shift (-1) wma) wma) /\
    (exists X,
        select feature_names dfp = Ok X /\
        forall r : nat, (r < len dfp)%nat ->
          List.length (nth r (rows (len dfp) X) [])
          = List.length feature_names /\
          forall j name, nth_error feature_names j = Some name ->
            exists x, cell name r dfp = Ok x /\
                      nth_error (nth r (rows (len dfp) X) []) j = Some x) /\
    index dfp = pick (map (complete full) (seq 0 25)) (index rising_prices) /\
    (forall t : nat,
        complete full t = true <->
        forall name s, In (name, s) (columns full) ->
                       is_nan (nth t s nan) = false).
Proof.
  apply (prepare_features_rows rising_prices 25).
  split; [reflexivity|]. split.
  - repeat constructor.
  - repeat constructor; eexists; reflexivity.
Defined.

(** C6, the claim as stated fails: on 25 rising bars the row of day 7 has
    every feature and the target, yet it is dropped (its bands and ATR are
    missing); the rows returned are those of days 19 to 23. *)
Lemma row_with_features_is_dropped :
  exists dfp fc full,
    prepare_features rising_prices = Ok (dfp, fc) /\
    dfp = dropna full /\
    nth_error (index rising_prices) 7 = Some 7 /\
    (forall name, In name ("Target_Diff" :: fc) ->
       exists s, col name full = Ok s /\ is_nan (nth 7 s nan) = false) /\
    index dfp = [19; 20; 21; 22; 23] /\
    ~ In 7 (index dfp).
Proof.
  exists (dropna (featured rising_prices
                    (map (fun i => of_Z (Z.of_nat (100 + i))) (seq 0 25))
                    (map (fun i => of_Z (Z.of_nat (101 + i))) (seq 0 25))
                    (map (fun i => of_Z (Z.of_nat (99 + i))) (seq 0 25)))).
  exists feature_names.
  exists (featured rising_prices
            (map (fun i => of_Z (Z.of_nat (100 + i))) (seq 0 25))
            (map (fun i => of_Z (Z.of_nat (101 + i))) (seq 0 25))
            (map (fun i => of_Z (Z.of_nat (99 + i))) (seq 0 25))).
  split; [vm_compute; reflexivity|].
  split; [reflexivity|].
  split; [reflexivity|].
  split.
  - intros name Hin. simpl in Hin.
    repeat (destruct Hin as [<- | Hin];
            [eexists; split; vm_compute; reflexivity|]).
    contradiction.
  - split; [vm_compute; reflexivity|].
    vm_compute. intros Hin.
    repeat (destruct Hin as [Hin | Hin]; [discriminate|]). exact Hin.
Qed.

(** ** Indicators in exact arithmetic *)

Lemma nth_error_seq_some (n t : nat) :
  (t < n)%nat -> nth_error (seq 0 n) t = Some t.
Proof.
  intros L. rewrite (nth_error_nth' _ 0%nat) by now rewrite length_seq.
  now rewrite seq_nth.
Qed.

Lemma rolling_nth {F : Type} `{Float F} (w : nat) (f : Series F -> F)
    (s : Series F) (t : nat) :
  (t < List.length s)%nat ->
  nth_error (rolling w f s) t
  = Some (if (t + 1 <? w)%nat then nan
          else if existsb missing (window w t s) then nan
          else f (window w t s)).
Proof.
  intros L. unfold rolling.
  rewrite nth_error_map, nth_error_seq_some by exact L. reflexivity.
Qed.

Lemma window_map {A B : Type} (g : A -> B) (w t : nat) (l : list A) :
  firstn w (skipn (t + 1 - w) (map g l))
  = map g (firstn w (skipn (t + 1 - w) l)).
Proof. now rewrite skipn_map, firstn_map. Qed.

Lemma length_window {A : Type} (w t : nat) (l : list A) :
  (w <= t + 1)%nat -> (t < List.length l)%nat ->
  List.length (firstn w (skipn (t + 1 - w) l)) = w.
Proof. intros L1 L2. rewrite length_firstn, length_skipn. lia. Qed.

Lemma fold_left_Rplus_from (rs : list R) (a : R) :
  fold_left Rplus rs a = (a + fold_left Rplus rs 0)%R.
Proof.
  revert a; induction rs as [|r rs IH]; intros a; simpl; [lra|].
  rewrite (IH (a + r)%R), (IH (0 + r)%R). lra.
Qed.

Lemma sum_app (l1 l2 : list R) :
  fold_left Rplus (l1 ++ l2) 0%R
  = (fold_left Rplus l1 0 + fold_left Rplus l2 0)%R.
Proof. rewrite fold_left_app. apply fold_left_Rplus_from. Qed.

Lemma sum_cons (x : R) (l : list R) :
  fold_left Rplus (x :: l) 0%R = (x + fold_left Rplus l 0)%R.
Proof. cbn [fold_left]. rewrite fold_left_Rplus_from. lra. Qed.

Lemma sum_nonneg (rs : list R) :
  Forall (fun r => 0 <= r)%R rs -> (0 <= fold_left Rplus rs 0)%R.
Proof.
  induction 1 as [|r rs Hr _ IH]; simpl; [lra|].
  rewrite fold_left_Rplus_from. lra.
Qed.

Section ExactSums.

Implicit Types (rs : list R).

Lemma exact_present (a : R) : missing (Some a) = false.
Proof.
  unfold missing. cbn. unfold Exact.Reqb.
  destruct (Req_dec_T (a - a) 0) as [|N]; [reflexivity | exfalso; lra].
Qed.

Lemma exact_not_missing rs : existsb missing (map Some rs) = false.
Proof.
  induction rs as [|r rs IH]; [reflexivity|].
  cbn [map existsb]. now rewrite exact_present, IH.
Qed.

Lemma exact_prep_values rs : prep_values (map Some rs) = map Some rs.
Proof.
  unfold prep_values. rewrite map_map. apply map_ext.
  intros a. now rewrite exact_present.
Qed.

Lemma exact_fsum_from rs (a : R) :
  fold_left fadd (map Some rs) (Some a) = Some (fold_left Rplus rs a).
Proof. revert a; induction rs as [|r rs IH]; intros a; simpl; auto. Qed.

Lemma exact_zip_add (r c : list R) :
  List.length r = List.length c ->
  exists m, zip_with fadd (map Some r) (map Some c) = map Some m /\
            List.length m = List.length r /\
            fold_left Rplus m 0%R
            = (fold_left Rplus r 0 + fold_left Rplus c 0)%R.
Proof.
  revert c; induction r as [|x r IH]; intros [|y c]; try discriminate.
  - intros _. exists []. cbn. repeat split. lra.
  - intros [= L]. destruct (IH c L) as (m & E & Lm & S).
    exists ((x + y)%R :: m). cbn [map zip_with List.length].
    rewrite E. split; [reflexivity|]. split; [congruence|].
    rewrite !sum_cons, S. lra.
Qed.

Lemma exact_add_groups (fuel : nat) :
  forall r a : list R,
    List.length r = 8%nat ->
    exists r' a',
      add_groups fuel (map Some r) (map Some a) = (map Some r', map Some a')
      /\ List.length r' = 8%nat /\
      (fold_left Rplus r' 0 + fold_left Rplus a' 0
       = fold_left Rplus r 0 + fold_left Rplus a 0)%R.
Proof.
  induction fuel as [|fuel IH]; intros r a Lr.
  - exists r, a. auto.
  - cbn [add_groups]. rewrite length_map.
    destruct (Nat.leb_spec 8 (List.length a)) as [L|L].
    + rewrite firstn_map, skipn_map.
      destruct (exact_zip_add r (firstn 8 a)) as (m & E & Lm & S).
      { rewrite length_firstn. lia. }
      rewrite E.
      destruct (IH m (skipn 8 a)) as (r' & a' & E' & Lr' & S');
        [congruence|].
      exists r', a'. split; [exact E'|]. split; [exact Lr'|].
      rewrite S', S. rewrite <- (firstn_skipn 8 a) at 3.
      rewrite sum_app. lra.
    + exists r, a. auto.
Qed.

Lemma exact_block_sum rs :
  (8 <= List.length rs)%nat ->
  block_sum (map Some rs) = Some (fold_left Rplus rs 0%R).
Proof.
  intros L. unfold block_sum.
  rewrite firstn_map, skipn_map, length_map.
  destruct (exact_add_groups (List.length rs) (firstn 8 rs) (skipn 8 rs))
    as (r' & a' & E & Lr' & S).
  { rewrite length_firstn. lia. }
  rewrite E.
  destruct r' as [|r0 [|r1 [|r2 [|r3 [|r4 [|r5 [|r6 [|r7 [|]]]]]]]]];
    try discriminate.
  cbn [map]. cbn [fadd exact Exact.lift2].
  change (fold_left (Exact.lift2 Rplus) (map Some a')
            (Some (r0 + r1 + (r2 + r3) + (r4 + r5 + (r6 + r7)))%R))
    with (fold_left fadd (map Some a')
            (Some (r0 + r1 + (r2 + r3) + (r4 + r5 + (r6 + r7)))%R)).
  rewrite exact_fsum_from. f_equal.
  rewrite fold_left_Rplus_from.
  rewrite <- (firstn_skipn 8 rs), sum_app, <- S.
  cbn [fold_left]. lra.
Qed.

Lemma exact_pairwise_sum (fuel : nat) :
  forall rs, (List.length rs <= fuel)%nat ->
    pairwise_sum fuel (map Some rs) = Some (fold_left Rplus rs 0%R).
Proof.
  induction fuel as [|fuel IH]; intros rs L.
  - destruct rs; [reflexivity | simpl in L; lia].
  - cbn [pairwise_sum]. rewrite length_map.
    destruct (Nat.ltb_spec (List.length rs) 8) as [L8|L8];
      [apply exact_fsum_from|].
    destruct (Nat.leb_spec (List.length rs) 128) as [L128|L128];
      [now apply exact_block_sum|].
    set (n := List.length rs) in *.
    set (n2 := (n / 2 - (n / 2) mod 8)%nat).
    assert (H2 : (64 <= n / 2)%nat).
    { apply Nat.div_le_lower_bound; lia. }
    assert (H3 : (n / 2 < n)%nat) by (apply Nat.div_lt; lia).
    assert (H4 : ((n / 2) mod 8 < 8)%nat)
      by (apply Nat.mod_upper_bound; lia).
    assert (H5 : (1 <= n2 < n)%nat) by (unfold n2; lia).
    rewrite firstn_map, skipn_map.
    rewrite !IH.
    + cbn. f_equal. rewrite <- (firstn_skipn n2 rs) at 3.
      now rewrite sum_app.
    + rewrite length_skipn. fold n. lia.
    + rewrite length_firstn. fold n. lia.
Qed.

Lemma exact_fsum rs : fsum (map Some rs) = Some (fold_left Rplus rs 0%R).
Proof.
  unfold fsum. rewrite length_map. now apply exact_pairwise_sum.
Qed.

End ExactSums.

Section ExactFacts.

Implicit Types (x y : option R) (rs : list R).

Lemma exact_div_pos (a : R) (k : nat) :
  (0 < k)%nat ->
  fdiv (Some a) (of_Z (Z.of_nat k)) = Some (a / INR k)%R.
Proof.
  intros L. cbn. unfold Exact.div.
  destruct (Req_dec_T (IZR (Z.of_nat k)) 0) as [E|_].
  - apply eq_IZR_R0 in E. lia.
  - now rewrite INR_IZR_INZ.
Qed.

Lemma exact_mean rs :
  rs <> [] ->
  mean (map Some rs)
  = Some (fold_left Rplus rs 0 / INR (List.length rs))%R.
Proof.
  intros N. destruct rs as [|r rs]; [contradiction|].
  unfold mean. change (map Some (r :: rs)) with (Some r :: map Some rs).
  cbv iota. change (Some r :: map Some rs) with (map Some (r :: rs)).
  rewrite exact_fsum. unfold count. rewrite length_map.
  apply exact_div_pos. simpl. lia.
Qed.

Lemma exact_row_max (a : R) x y : exists r, row_max [Some a; x; y] = Some r.
Proof.
  unfold row_max; simpl. unfold max_skipna at 3. simpl.
  destruct x as [b|]; destruct y as [c|]; unfold max_skipna; simpl;
    unfold Exact.Rltb;
    repeat match goal with
           | |- context [Rlt_dec ?u ?v] => destruct (Rlt_dec u v); simpl
           end; eauto.
Qed.

Lemma exact_max3 rs (b c : list (option R)) :
  List.length b = List.length rs -> List.length c = List.length rs ->
  exists ms, max3 (map Some rs) b c = map Some ms /\
             List.length ms = List.length rs.
Proof.
  revert b c; induction rs as [|r rs IH]; intros [|x b] [|y c];
    cbn [max3 map List.length]; try discriminate.
  - exists []. auto.
  - intros [= Lb] [= Lc]. destruct (IH b c Lb Lc) as (ms & -> & Lm).
    destruct (exact_row_max r x y) as [m ->].
    exists (m :: ms). simpl. auto.
Qed.

Lemma exact_zip_with (f : R -> R -> R) (g : option R -> option R -> option R)
    rs ss :
  (forall a b, g (Some a) (Some b) = Some (f a b)) ->
  List.length rs = List.length ss ->
  exists ms, zip_with g (map Some rs) (map Some ss) = map Some ms /\
             List.length ms = List.length rs.
Proof.
  intros Hg. revert ss; induction rs as [|r rs IH]; intros [|s ss]; simpl;
    try discriminate.
  - exists []. auto.
  - intros [= L]. destruct (IH ss L) as (ms & -> & Lm).
    exists (f r s :: ms). simpl. rewrite Hg. auto.
Qed.

(** With every high, low and close present the true range is present at
    every bar, the first included. *)
Lemma exact_true_range (hs ls cs : list R) :
  List.length hs = List.length cs -> List.length ls = List.length cs ->
  exists trs,
    true_range (map Some hs) (map Some ls) (map Some cs) = map Some trs /\
    List.length trs = List.length cs.
Proof.
  intros Lh Ll. unfold true_range.
  destruct (exact_zip_with Rminus fsub hs ls) as (hl & -> & Lhl);
    [reflexivity | congruence |].
  destruct (exact_max3 hl
              (map fabs (zip_with fsub (map Some hs) (shift 1 (map Some cs))))
              (map fabs (zip_with fsub (map Some ls) (shift 1 (map Some cs)))))
    as (ms & -> & Lm).
  - rewrite length_map, length_zip_with;
      rewrite ?length_shift, ?length_map; congruence.
  - rewrite length_map, length_zip_with;
      rewrite ?length_shift, ?length_map; congruence.
  - exists ms. split; [reflexivity | congruence].
Qed.

End ExactFacts.

(** ** The running reductions in exact arithmetic *)

Section ExactDeviation.

Local Open Scope R_scope.

(** [.std()] of at least two defined values. *)
Lemma exact_std (rs : list R) :
  (2 <= List.length rs)%nat ->
  let m := fold_left Rplus rs 0 / INR (List.length rs) in
  let v := fold_left Rplus (map (fun r => (r - m) * (r - m)) rs) 0
           / INR (List.length rs - 1) in
  0 <= v /\ std (map Some rs) = Some (R_sqrt.sqrt v).
Proof.
  intros L m v.
  assert (Hv : 0 <= v).
  { unfold v. apply Rmult_le_pos.
    - apply sum_nonneg. apply Forall_map, Forall_forall. intros r _.
      apply Rle_0_sqr.
    - left. apply Rinv_0_lt_compat. apply lt_0_INR. lia. }
  split; [exact Hv|].
  unfold std. rewrite length_map.
  destruct (Nat.leb_spec (List.length rs) 1) as [L1|_]; [lia|].
  cbv zeta. rewrite exact_mean by (destruct rs; [simpl in L; lia|discriminate]).
  fold m. rewrite map_map.
  rewrite <- (map_map (fun r => (r - m) * (r - m)) Some).
  rewrite exact_fsum.
  replace (Z.of_nat (List.length rs) - 1)%Z
    with (Z.of_nat (List.length rs - 1)) by lia.
  rewrite exact_div_pos by lia. fold v.
  cbn. destruct (Rlt_dec v 0) as [N|_]; [lra|]. reflexivity.
Qed.

End ExactDeviation.

(** ** The running reductions in exact arithmetic *)

Lemma skipn_nth_error {A : Type} (l : list A) (i : nat) (a : A) :
  nth_error l i = Some a -> skipn i l = a :: skipn (S i) l.
Proof.
  revert l; induction i as [|i IH]; intros [|x l]; simpl; try discriminate.
  - now intros [= ->].
  - intros E. now rewrite (IH l E).
Qed.

Lemma firstn_snoc {A : Type} (l : list A) (i : nat) (a : A) :
  nth_error l i = Some a -> firstn (S i) l = firstn i l ++ [a].
Proof.
  revert l; induction i as [|i IH]; intros [|x l]; simpl; try discriminate.
  - now intros [= ->].
  - intros E. now rewrite <- (IH l E).
Qed.

Lemma list_eq_nth_error {A : Type} (l1 l2 : list A) :
  List.length l1 = List.length l2 ->
  (forall t, (t < List.length l1)%nat -> nth_error l1 t = nth_error l2 t) ->
  l1 = l2.
Proof.
  revert l2; induction l1 as [|x l1 IH]; intros [|y l2] L E;
    try discriminate; [reflexivity|].
  injection L as L. f_equal.
  - specialize (E 0%nat). cbn in E. assert (Some x = Some y) by (apply E; lia).
    congruence.
  - apply IH; [exact L|]. intros t Lt. apply (E (S t)). simpl. lia.
Qed.

Lemma Forall_skipn {A : Type} (P : A -> Prop) (k : nat) (l : list A) :
  Forall P l -> Forall P (skipn k l).
Proof.
  intros Hl. rewrite <- (firstn_skipn k l) in Hl.
  now apply Forall_app in Hl.
Qed.

Section LastFacts.

Context {A : Type}.

Lemma length_lastn (k : nat) (l : list A) :
  List.length (lastn k l) = Nat.min k (List.length l).
Proof. unfold lastn. rewrite length_skipn. lia. Qed.

Lemma lastn_all (k : nat) (l : list A) :
  (List.length l <= k)%nat -> lastn k l = l.
Proof.
  intros L. unfold lastn.
  now replace (List.length l - k)%nat with 0%nat by lia.
Qed.

Lemma lastn_snoc (k : nat) (l : list A) (x : A) :
  (k <= List.length l)%nat -> lastn (S k) (l ++ [x]) = lastn k l ++ [x].
Proof.
  intros L. unfold lastn. rewrite length_app. cbn [List.length].
  replace (List.length l + 1 - S k)%nat with (List.length l - k)%nat by lia.
  rewrite skipn_app.
  replace (List.length l - k - List.length l)%nat with 0%nat by lia.
  reflexivity.
Qed.

Lemma lastn_snoc_small (w : nat) (l : list A) (x : A) :
  (List.length l < w)%nat -> lastn w (l ++ [x]) = lastn w l ++ [x].
Proof.
  intros L. rewrite !lastn_all; [reflexivity | lia |].
  rewrite length_app. simpl. lia.
Qed.

Lemma lastn_snoc_big (w : nat) (l : list A) (x : A) :
  (1 <= w)%nat -> (w <= List.length l)%nat ->
  exists y T,
    lastn w l = y :: T /\
    nth_error l (List.length l - w) = Some y /\
    lastn w (l ++ [x]) = T ++ [x].
Proof.
  intros L1 L2.
  destruct (nth_error l (List.length l - w)) as [y|] eqn:E;
    [|apply nth_error_None in E; lia].
  exists y, (skipn (S (List.length l - w)) l).
  split; [exact (skipn_nth_error _ _ _ E)|]. split; [reflexivity|].
  destruct w as [|w]; [lia|]. rewrite lastn_snoc by lia.
  unfold lastn.
  now replace (S (List.length l - S w)) with (List.length l - w)%nat by lia.
Qed.

Lemma lastn_one (l : list A) (x : A) : lastn 1 (l ++ [x]) = [x].
Proof.
  rewrite (lastn_snoc 0) by lia. unfold lastn.
  now rewrite Nat.sub_0_r, skipn_all.
Qed.

Lemma lastn_tail (n : nat) (l : list A) (y : A) (T : list A) :
  lastn (S n) l = y :: T -> List.length T = n -> T = lastn n l.
Proof.
  intros E LT.
  assert (Ll : (S n <= List.length l)%nat).
  { apply (f_equal (@List.length A)) in E. rewrite length_lastn in E.
    cbn [List.length] in E. lia. }
  unfold lastn in *.
  replace (List.length l - n)%nat with (S (List.length l - S n)) by lia.
  destruct (nth_error l (List.length l - S n)) as [z|] eqn:Ez;
    [|apply nth_error_None in Ez; lia].
  rewrite (skipn_nth_error _ _ _ Ez) in E. congruence.
Qed.

Lemma Forall_lastn_le (P : A -> Prop) (k1 k2 : nat) (l : list A) :
  (k1 <= k2)%nat -> Forall P (lastn k2 l) -> Forall P (lastn k1 l).
Proof.
  intros L Hl. unfold lastn in *.
  replace (List.length l - k1)%nat
    with ((List.length l - k1 - (List.length l - k2))
          + (List.length l - k2))%nat by lia.
  rewrite <- skipn_skipn. now apply Forall_skipn.
Qed.

End LastFacts.

Section ExactRolling.

Local Open Scope R_scope.

Implicit Types (W T H : list R) (x y p : R).

Lemma exact_eqb_refl x : (Some x == Some x)%fl = true.
Proof.
  cbn. unfold Exact.Reqb. destruct (Req_dec_T x x); [reflexivity | congruence].
Qed.

Lemma exact_signbit x : signbit (Some x) = Exact.Rltb x 0.
Proof.
  unfold signbit. cbn. unfold Exact.Reqb, Exact.Rltb, Exact.div.
  destruct (Req_dec_T x 0) as [->|N].
  - destruct (Req_dec_T 0 0) as [_|N]; [|congruence]. cbn.
    destruct (Rlt_dec 0 0); [lra | reflexivity].
  - reflexivity.
Qed.

Lemma count_neg_snoc W x :
  count_neg (W ++ [x])
  = (count_neg W + if Exact.Rltb x 0 then 1 else 0)%nat.
Proof.
  unfold count_neg. rewrite filter_app, length_app. cbn [filter].
  destruct (Exact.Rltb x 0); reflexivity.
Qed.

Lemma count_neg_cons W y :
  count_neg (y :: W)
  = ((if Exact.Rltb y 0 then 1 else 0) + count_neg W)%nat.
Proof.
  unfold count_neg. cbn [filter].
  destruct (Exact.Rltb y 0); reflexivity.
Qed.

Lemma count_neg_none W :
  count_neg W = 0%nat -> Forall (fun x => 0 <= x) W.
Proof.
  induction W as [|y W IH]; [constructor|].
  rewrite count_neg_cons. unfold Exact.Rltb.
  destruct (Rlt_dec y 0); [discriminate|].
  intros E. constructor; [lra | apply IH; exact E].
Qed.

Lemma count_neg_le W : (count_neg W <= List.length W)%nat.
Proof. unfold count_neg. apply filter_length_le. Qed.

Lemma count_neg_all W :
  count_neg W = List.length W -> Forall (fun x => x <= 0) W.
Proof.
  induction W as [|y W IH]; [constructor|].
  rewrite count_neg_cons. cbn [List.length]. unfold Exact.Rltb.
  pose proof (count_neg_le W).
  destruct (Rlt_dec y 0); intros E; [|lia].
  constructor; [lra | apply IH; lia].
Qed.

Lemma sum_nonpos W :
  Forall (fun x => x <= 0) W -> fold_left Rplus W 0 <= 0.
Proof.
  induction 1 as [|y W Hy _ IH]; [cbn; lra|]. rewrite sum_cons. lra.
Qed.

Lemma sum_all_equal W p :
  Forall (eq p) W -> fold_left Rplus W 0 = INR (List.length W) * p.
Proof.
  induction 1 as [|y W Hy _ IH]; [cbn; lra|].
  rewrite sum_cons, IH. subst y.
  change (List.length (p :: W)) with (S (List.length W)).
  rewrite S_INR. lra.
Qed.

Lemma sum_sq_cons x W : sum_sq (x :: W) = x * x + sum_sq W.
Proof. unfold sum_sq. cbn [map]. apply sum_cons. Qed.

Lemma sum_sq_snoc W x : sum_sq (W ++ [x]) = sum_sq W + x * x.
Proof. unfold sum_sq. rewrite map_app, sum_app. cbn. lra. Qed.

Lemma sum_snoc W x :
  fold_left Rplus (W ++ [x]) 0 = fold_left Rplus W 0 + x.
Proof. rewrite sum_app. cbn. lra. Qed.

(** The sum of the squared differences from any [m]. *)
Lemma sum_dev W (m : R) :
  fold_left Rplus (map (fun r => (r - m) * (r - m)) W) 0
  = sum_sq W - 2 * m * fold_left Rplus W 0 + INR (List.length W) * m * m.
Proof.
  induction W as [|y W IH]; [cbn; unfold sum_sq; cbn; lra|].
  cbn [map]. rewrite !sum_cons, sum_sq_cons, IH.
  change (List.length (y :: W)) with (S (List.length W)).
  rewrite S_INR. lra.
Qed.

Lemma run_inv_start p : run_inv [] 0 (Some p).
Proof.
  exists p, []. repeat split; try reflexivity. constructor.
Qed.

Lemma run_inv_add W (same : nat) (prev : option R) x :
  run_inv W same prev ->
  run_inv (W ++ [x])
          (if (Some x == prev)%fl then S same else 1%nat) (Some x).
Proof.
  intros (p & H & -> & EW & Ls & Hrun).
  assert (LW : (List.length W <= List.length H)%nat).
  { apply (f_equal (@List.length R)) in EW. rewrite length_lastn in EW. lia. }
  exists x, (H ++ [x]). split; [reflexivity|]. split.
  { rewrite length_app. cbn [List.length].
    replace (List.length W + 1)%nat with (S (List.length W)) by lia.
    rewrite lastn_snoc by exact LW. now rewrite <- EW. }
  cbn. unfold Exact.Reqb. destruct (Req_dec_T x p) as [->|N].
  - split; [rewrite length_app; simpl; lia|].
    rewrite lastn_snoc by exact Ls.
    apply Forall_app. split; [exact Hrun | constructor; [reflexivity | constructor]].
  - split; [rewrite length_app; simpl; lia|].
    rewrite lastn_one. constructor; [reflexivity | constructor].
Qed.

Lemma run_inv_remove y T (same : nat) (prev : option R) :
  run_inv (y :: T) same prev -> run_inv T same prev.
Proof.
  intros (p & H & -> & EW & Ls & Hrun).
  exists p, H. split; [reflexivity|]. split; [|split; assumption].
  cbn [List.length] in EW. symmetry in EW.
  exact (lastn_tail _ _ _ _ EW eq_refl).
Qed.

Lemma run_inv_all_equal W (same : nat) (prev : option R) :
  run_inv W same prev -> (List.length W <= same)%nat ->
  exists p, prev = Some p /\ Forall (eq p) W.
Proof.
  intros (p & H & -> & EW & Ls & Hrun) L.
  exists p. split; [reflexivity|]. rewrite EW.
  exact (Forall_lastn_le _ _ _ _ L Hrun).
Qed.

(** *** The mean *)

Lemma mean_inv_start p : mean_inv [] (mean_start (Some p)).
Proof.
  split; [reflexivity|]. split; [reflexivity|]. split.
  - exists 0, 0, 0. cbn. repeat split.
  - apply run_inv_start.
Qed.

Lemma mean_inv_add W (a : mean_acc Exact.t) x :
  mean_inv W a -> mean_inv (W ++ [x]) (add_mean (Some x) a).
Proof.
  intros (Hn & Hneg & (s & ca & cr & Es & Hs & Eca & Hca & Ecr & Hcr) & Hrun).
  unfold add_mean. rewrite exact_eqb_refl, exact_signbit.
  rewrite Es, Eca. cbn [fsub fadd exact Exact.lift2].
  split; [cbn [nobs]; rewrite length_app; simpl; lia|].
  split.
  { cbn [neg_ct]. rewrite count_neg_snoc, Hneg.
    destruct (Exact.Rltb x 0); lia. }
  split.
  { exists (s + (x - ca)), (s + (x - ca) - s - (x - ca)), cr.
    cbn [sum_x compensation_add compensation_remove].
    split; [reflexivity|]. split; [rewrite sum_snoc; lra|].
    split; [reflexivity|]. split; [lra|]. split; assumption. }
  cbn [num_consecutive_same_value prev_value].
  now apply run_inv_add.
Qed.

Lemma mean_inv_remove y T (a : mean_acc Exact.t) :
  mean_inv (y :: T) a -> mean_inv T (remove_mean (Some y) a).
Proof.
  intros (Hn & Hneg & (s & ca & cr & Es & Hs & Eca & Hca & Ecr & Hcr) & Hrun).
  unfold remove_mean. rewrite exact_eqb_refl, exact_signbit.
  rewrite Es, Ecr. unfold fneg. cbn [fsub fadd fmul of_Z exact Exact.lift2].
  split; [cbn [nobs]; rewrite Hn; reflexivity|].
  split.
  { cbn [neg_ct]. rewrite Hneg, count_neg_cons.
    destruct (Exact.Rltb y 0); cbn; lia. }
  split.
  { exists (s + (-1 * y - cr)), ca, (s + (-1 * y - cr) - s - (-1 * y - cr)).
    cbn [sum_x compensation_add compensation_remove].
    split; [reflexivity|]. split; [rewrite sum_cons in Hs; lra|].
    split; [assumption|]. split; [assumption|]. split; [reflexivity | lra]. }
  cbn [num_consecutive_same_value prev_value].
  exact (run_inv_remove _ _ _ _ Hrun).
Qed.

(** The value [calc_mean] returns for a full window. *)
Lemma mean_inv_calc W (a : mean_acc Exact.t) (w : nat) :
  mean_inv W a -> List.length W = w -> (1 <= w)%nat ->
  calc_mean w a = Some (fold_left Rplus W 0 / INR w).
Proof.
  intros (Hn & Hneg & (s & ca & cr & Es & Hs & _) & Hrun) LW Lw.
  unfold calc_mean. rewrite Hn, LW, Es.
  destruct (Nat.leb_spec w w) as [_|]; [|lia].
  destruct (Nat.ltb_spec 0 w) as [_|]; [|lia]. cbn [andb]. cbv zeta.
  assert (Ed : (Some s / of_Z (Z.of_nat w))%fl = Some (s / INR w)).
  { cbn. unfold Exact.div.
    destruct (Req_dec_T (IZR (Z.of_nat w)) 0) as [E|_].
    - apply eq_IZR_R0 in E. lia.
    - now rewrite INR_IZR_INZ. }
  rewrite Ed.
  assert (Pw : 0 < INR w) by (apply lt_0_INR; lia).
  destruct (Nat.leb_spec w (num_consecutive_same_value a)) as [Lk|Lk].
  - destruct (run_inv_all_equal _ _ _ Hrun) as (p & -> & Hall); [lia|].
    f_equal. rewrite (sum_all_equal _ _ Hall), LW. field. lra.
  - subst s.
    assert (Q : forall r, r / INR w = r * / INR w) by reflexivity.
    assert (Pi : 0 < / INR w) by (apply Rinv_0_lt_compat; exact Pw).
    destruct (Nat.eqb_spec (neg_ct a) 0) as [E0|N0]; cbn [andb].
    + rewrite E0 in Hneg. symmetry in Hneg.
      pose proof (sum_nonneg _ (count_neg_none _ Hneg)) as P.
      cbn. unfold Exact.Rltb.
      destruct (Rlt_dec (fold_left Rplus W 0 / INR w) 0) as [L|_].
      { rewrite Q in L. nra. }
      rewrite E0. destruct (Nat.eqb_spec 0 w); [lia | reflexivity].
    + destruct (Nat.eqb_spec (neg_ct a) w) as [Ew|_]; [|reflexivity].
      cbn [andb].
      assert (Hc : count_neg W = List.length W) by congruence.
      pose proof (sum_nonpos _ (count_neg_all _ Hc)) as P.
      cbn. unfold Exact.Rltb.
      destruct (Rlt_dec 0 (fold_left Rplus W 0 / INR w)) as [L|_];
        [|reflexivity].
      rewrite Q in L. nra.
Qed.

End ExactRolling.

Section ExactWindows.

Local Open Scope R_scope.

Implicit Types (xs W T : list R) (x y p : R).

Lemma slice_empty {F : Type} (a b : nat) (s : list F) :
  (b <= a)%nat -> slice a b s = [].
Proof.
  intros L. unfold slice. now replace (b - a)%nat with 0%nat by lia.
Qed.

Lemma exact_slice_one xs (i : nat) x :
  nth_error xs i = Some x -> slice i (i + 1) (map Some xs) = [Some x].
Proof.
  intros E. unfold slice. replace (i + 1 - i)%nat with 1%nat by lia.
  now rewrite skipn_map, (skipn_nth_error _ _ _ E).
Qed.

Lemma exact_nth xs (i : nat) x :
  nth_error xs i = Some x -> nth i (map Some xs) nan = Some x.
Proof.
  intros E. apply nth_error_nth. now rewrite nth_error_map, E.
Qed.

(** The window the accumulators stand for at place [t]. *)
Lemma lastn_window xs (w t : nat) :
  (w <= t + 1)%nat -> (t < List.length xs)%nat ->
  lastn w (firstn (S t) xs) = firstn w (skipn (t + 1 - w) xs).
Proof.
  intros Lw Lt. unfold lastn. rewrite length_firstn.
  replace (Nat.min (S t) (List.length xs)) with (S t) by lia.
  rewrite skipn_firstn_comm.
  replace (S t - (S t - w))%nat with w by lia.
  now replace (S t - w)%nat with (t + 1 - w)%nat by lia.
Qed.

Lemma exact_mean_step_setup xs (w i : nat) (a : mean_acc Exact.t) x :
  i = 0%nat \/ w = 1%nat -> (1 <= w)%nat ->
  nth_error xs i = Some x ->
  mean_inv [x] (mean_step (map Some xs) w i a).
Proof.
  intros C Lw E. unfold mean_step. cbv zeta.
  assert (Es : (i + 1 - w)%nat = i) by lia. rewrite Es.
  assert (Ec : (i =? 0)%nat || (i <=? i)%nat = true)
    by (rewrite Nat.leb_refl; apply orb_true_r).
  rewrite Ec, (exact_slice_one _ _ _ E), (exact_nth _ _ _ E).
  cbn [fold_left]. apply (mean_inv_add []). apply mean_inv_start.
Qed.

Lemma exact_mean_step_slide xs (w i : nat) (a : mean_acc Exact.t) x :
  (2 <= w)%nat -> (1 <= i)%nat ->
  nth_error xs i = Some x ->
  mean_inv (lastn w (firstn i xs)) a ->
  mean_inv (lastn w (firstn (S i) xs)) (mean_step (map Some xs) w i a).
Proof.
  intros Lw Li E Ha. unfold mean_step. cbv zeta.
  destruct (Nat.eqb_spec i 0) as [|_]; [lia|].
  destruct (Nat.leb_spec i (i + 1 - w)) as [|_]; [lia|]. cbn [orb].
  rewrite (exact_slice_one _ _ _ E). cbn [fold_left].
  rewrite (firstn_snoc _ _ _ E).
  assert (Lh : List.length (firstn i xs) = i).
  { rewrite length_firstn. apply Nat.min_l.
    apply Nat.lt_le_incl, nth_error_Some. congruence. }
  destruct (Nat.le_gt_cases w i) as [Lwi|Lwi].
  - destruct (lastn_snoc_big w (firstn i xs) x) as (y & T & EW & Ey & ET);
      [lia | lia |].
    rewrite Lh in Ey. rewrite nth_error_firstn in Ey.
    destruct (Nat.ltb_spec (i - w) i) as [_|]; [|lia].
    replace (i + 1 - w)%nat with (i - w + 1)%nat by lia.
    rewrite (exact_slice_one _ _ _ Ey). cbn [fold_left].
    rewrite ET. apply mean_inv_add, mean_inv_remove.
    now rewrite <- EW.
  - rewrite slice_empty by lia. cbn [fold_left].
    rewrite lastn_snoc_small by lia. now apply mean_inv_add.
Qed.

Lemma exact_mean_run xs (w : nat) (a : mean_acc Exact.t) :
  (1 <= w)%nat ->
  forall t, (t < List.length xs)%nat ->
    mean_inv (lastn w (firstn (S t) xs)) (mean_run (map Some xs) w a 0 t).
Proof.
  intros Lw. induction t as [|t IH]; intros Lt.
  - destruct (nth_error xs 0) as [x|] eqn:E;
      [|apply nth_error_None in E; lia].
    cbn [mean_run].
    replace (lastn w (firstn 1 xs)) with [x].
    + apply exact_mean_step_setup; auto.
    + rewrite (firstn_snoc _ _ _ E). cbn [firstn app].
      rewrite lastn_all; [reflexivity | simpl; lia].
  - destruct (nth_error xs (S t)) as [x|] eqn:E;
      [|apply nth_error_None in E; lia].
    rewrite mean_run_S. cbn [Nat.add].
    destruct (Nat.eq_dec w 1) as [->|N1].
    + rewrite (firstn_snoc _ _ _ E), lastn_one.
      apply exact_mean_step_setup; auto.
    + apply (exact_mean_step_slide xs w (S t) _ x);
        [lia | lia | exact E | apply IH; lia].
Qed.

Lemma mean_run_no_window {F : Type} `{Float F} (values : Series F)
    (a : mean_acc F) (t : nat) :
  nobs (mean_run values 0 a 0 t) = 0%nat.
Proof.
  assert (S0 : forall i b, nobs (mean_step values 0 i b) = 0%nat).
  { intros i b. unfold mean_step. cbv zeta.
    replace (i + 1 - 0)%nat with (i + 1)%nat by lia.
    destruct (Nat.leb_spec i (i + 1)) as [_|]; [|lia].
    rewrite orb_true_r, slice_empty by lia. reflexivity. }
  destruct t as [|t]; [apply S0 | rewrite mean_run_S; apply S0].
Qed.

(** On present values the running mean is the mean of each window. *)
Lemma exact_rolling_mean (w : nat) xs :
  rolling_mean w (map Some xs) = rolling w mean (map Some xs).
Proof.
  apply list_eq_nth_error.
  { rewrite length_rolling_mean. unfold rolling.
    now rewrite !length_map, length_seq. }
  rewrite length_rolling_mean, length_map. intros t Lt.
  rewrite rolling_nth by (rewrite length_map; exact Lt).
  destruct (Nat.ltb_spec (t + 1) w) as [Lw|Lw].
  { apply rolling_mean_warm_up; [rewrite length_map; exact Lt | exact Lw]. }
  unfold window. rewrite window_map, exact_not_missing.
  unfold rolling_mean. cbv zeta. rewrite exact_prep_values, length_map.
  rewrite roll_mean_nth by exact Lt. f_equal.
  destruct (Nat.eq_dec w 0) as [->|N0].
  - cbn [firstn map mean]. unfold calc_mean.
    now rewrite mean_run_no_window.
  - rewrite exact_mean.
    2:{ intros E. apply (f_equal (@List.length R)) in E.
        rewrite length_window in E by lia. simpl in E. lia. }
    rewrite length_window by lia.
    rewrite <- lastn_window by lia.
    apply mean_inv_calc; [apply exact_mean_run; lia | | lia].
    rewrite lastn_window, length_window by lia. reflexivity.
Qed.

(** *** The deviation *)

Lemma var_inv_start p : var_inv [] (var_start (Some p)).
Proof.
  split; [reflexivity|]. split.
  - exists 0, 0, 0, 0. cbn. repeat split.
  - apply run_inv_start.
Qed.

Lemma win_mean_snoc W x :
  win_mean (W ++ [x])
  = win_mean W + (x - win_mean W) / INR (S (List.length W)).
Proof.
  assert (P : 0 < INR (S (List.length W))) by (apply lt_0_INR; lia).
  unfold win_mean. destruct W as [|y W].
  - cbn [app List.length fold_left]. cbn [INR]. field.
  - destruct ((y :: W) ++ [x]) as [|z Z] eqn:E; [discriminate|].
    rewrite <- E. clear E z Z.
    rewrite sum_snoc, length_app. cbn [List.length].
    replace (S (List.length W) + 1)%nat with (S (S (List.length W))) by lia.
    assert (P1 : 0 < INR (S (List.length W))) by (apply lt_0_INR; lia).
    assert (P2 : 0 < INR (S (S (List.length W)))) by (apply lt_0_INR; lia).
    cbn [List.length] in P.
    rewrite (S_INR (S (List.length W))) in *.
    field. lra.
Qed.

Lemma win_ssqdm_snoc W x :
  win_ssqdm (W ++ [x])
  = win_ssqdm W + (x - win_mean W) * (x - win_mean (W ++ [x])).
Proof.
  rewrite win_mean_snoc.
  unfold win_ssqdm, win_mean. destruct W as [|y W].
  - cbn [app List.length]. unfold sum_sq. cbn. field.
  - destruct ((y :: W) ++ [x]) as [|z Z] eqn:E; [discriminate|].
    rewrite <- E. clear E z Z.
    rewrite sum_snoc, sum_sq_snoc, length_app. cbn [List.length].
    replace (S (List.length W) + 1)%nat with (S (S (List.length W))) by lia.
    assert (P1 : 0 < INR (S (List.length W))) by (apply lt_0_INR; lia).
    rewrite (S_INR (S (List.length W))).
    field. lra.
Qed.

Lemma win_mean_tail y T :
  T <> [] ->
  win_mean T
  = win_mean (y :: T) - (y - win_mean (y :: T)) / INR (List.length T).
Proof.
  intros N.
  assert (P : 0 < INR (List.length T))
    by (apply lt_0_INR; destruct T; [contradiction | simpl; lia]).
  unfold win_mean. destruct T as [|z T]; [contradiction|].
  rewrite (sum_cons y). change (List.length (y :: z :: T))
    with (S (List.length (z :: T))).
  rewrite S_INR. field. lra.
Qed.

Lemma win_ssqdm_tail y T :
  T <> [] ->
  win_ssqdm T
  = win_ssqdm (y :: T) - (y - win_mean (y :: T)) * (y - win_mean T).
Proof.
  intros N. rewrite (win_mean_tail y T N).
  assert (P : 0 < INR (List.length T))
    by (apply lt_0_INR; destruct T; [contradiction | simpl; lia]).
  unfold win_ssqdm, win_mean. destruct T as [|z T]; [contradiction|].
  rewrite (sum_cons y), (sum_sq_cons y).
  change (List.length (y :: z :: T)) with (S (List.length (z :: T))).
  rewrite S_INR. field. lra.
Qed.

Lemma var_inv_add W (a : var_acc Exact.t) x :
  var_inv W a -> var_inv (W ++ [x]) (add_var (Some x) a).
Proof.
  intros (Hn & (m & q & ca & cr & Em & Hm & Eq & Hq & Eca & Hca & Ecr & Hcr)
          & Hrun).
  unfold add_var. rewrite exact_eqb_refl. cbv zeta.
  rewrite Em, Eq, Eca.
  assert (Ed : forall r : R,
             (Some r / of_Z (Z.of_nat (S (var_nobs a))))%fl
             = Some (r / INR (S (List.length W)))).
  { intros r. rewrite exact_div_pos by lia. now rewrite Hn. }
  cbn [fsub fadd fmul exact Exact.lift2]. rewrite Ed.
  cbn [fsub fadd fmul exact Exact.lift2].
  split; [cbn [var_nobs]; rewrite length_app; simpl; lia|].
  split.
  { do 4 eexists. cbn [mean_x ssqdm_x var_compensation_add
                         var_compensation_remove].
    split; [reflexivity|]. split.
    { rewrite win_mean_snoc. subst m ca. f_equal. lra. }
    split; [reflexivity|]. split.
    { rewrite win_ssqdm_snoc, win_mean_snoc. subst m q ca. 
      replace (x - 0 - win_mean W) with (x - win_mean W) by lra.
      lra. }
    split; [reflexivity|]. split; [lra|].
    split; [eassumption | assumption]. }
  cbn [var_same_value var_prev_value]. now apply run_inv_add.
Qed.

Lemma var_inv_remove y T (a : var_acc Exact.t) :
  var_inv (y :: T) a -> var_inv T (remove_var (Some y) a).
Proof.
  intros (Hn & (m & q & ca & cr & Em & Hm & Eq & Hq & Eca & Hca & Ecr & Hcr)
          & Hrun).
  unfold remove_var. rewrite exact_eqb_refl. cbv zeta.
  rewrite Hn. cbn [List.length pred].
  destruct (Nat.eqb_spec (List.length T) 0) as [E0|N0].
  - destruct T; [|discriminate].
    split; [reflexivity|]. split.
    + exists 0, 0, ca, cr. cbn. repeat split; assumption.
    + cbn [var_same_value var_prev_value].
      exact (run_inv_remove _ _ _ _ Hrun).
  - assert (NT : T <> []) by (intros ->; contradiction).
    rewrite Em, Eq, Ecr.
    assert (Ed : forall r : R,
               (Some r / of_Z (Z.of_nat (List.length T)))%fl
               = Some (r / INR (List.length T))).
    { intros r. apply exact_div_pos. lia. }
    cbn [fsub fadd fmul exact Exact.lift2]. rewrite Ed.
    cbn [fsub fadd fmul exact Exact.lift2].
    split; [reflexivity|]. split.
    { do 4 eexists. cbn [mean_x ssqdm_x var_compensation_add
                           var_compensation_remove].
      split; [reflexivity|]. split.
      { rewrite (win_mean_tail y T NT). subst m cr. f_equal. lra. }
      split; [reflexivity|]. split.
      { rewrite (win_ssqdm_tail y T NT), (win_mean_tail y T NT).
        subst m q cr.
        replace (y - 0 - win_mean (y :: T)) with (y - win_mean (y :: T))
          by lra.
        lra. }
      split; [eassumption|]. split; [assumption|].
      split; [reflexivity | lra]. }
    cbn [var_same_value var_prev_value].
    exact (run_inv_remove _ _ _ _ Hrun).
Qed.

Lemma exact_zsqrt (v : R) :
  0 <= v -> zsqrt (Some v) = Some (R_sqrt.sqrt v).
Proof.
  intros Hv. unfold zsqrt.
  change ((Some v < fzero)%fl) with (Exact.Rltb v (IZR 0)).
  unfold Exact.Rltb. destruct (Rlt_dec v (IZR 0)) as [N|_]; [lra|].
  change (fsqrt (Some v)) with (Exact.sqrt (Some v)). unfold Exact.sqrt.
  destruct (Rlt_dec v 0) as [N|_]; [lra | reflexivity].
Qed.

Lemma sum_sq_all_equal W p :
  Forall (eq p) W -> sum_sq W = INR (List.length W) * (p * p).
Proof.
  induction 1 as [|y W Hy _ IH]; [unfold sum_sq; cbn; lra|].
  rewrite sum_sq_cons, IH. subst y.
  change (List.length (p :: W)) with (S (List.length W)).
  rewrite S_INR. lra.
Qed.

(** The deviation [roll_var] gives for a full window. *)
Lemma var_inv_calc W (a : var_acc Exact.t) (w : nat) :
  var_inv W a -> List.length W = w -> (1 <= w)%nat ->
  zsqrt (calc_var (Nat.max w 1) a) = std (map Some W).
Proof.
  intros (Hn & (m & q & ca & cr & Em & Hm & Eq & Hq & _) & Hrun) LW Lw.
  unfold calc_var. rewrite Hn, LW.
  replace (Nat.max w 1) with w by lia.
  destruct (Nat.leb_spec w w) as [_|]; [|lia]. cbn [andb].
  destruct (Nat.ltb_spec 1 w) as [L1|L1].
  2:{ assert (w = 1%nat) by lia. subst w.
      destruct W as [|y [|z W]]; try discriminate. reflexivity. }
  destruct (exact_std W) as [Hv Es]; [lia|]. rewrite Es. clear Es.
  rewrite sum_dev, LW in *.
  assert (Pw : 0 < INR w) by (apply lt_0_INR; lia).
  assert (Pw1 : 0 < INR (w - 1)) by (apply lt_0_INR; lia).
  destruct (Nat.eqb_spec w 1) as [|_]; [lia|]. cbn [orb].
  destruct (Nat.leb_spec w (var_same_value a)) as [Lk|Lk].
  - destruct (run_inv_all_equal _ _ _ Hrun) as (p & _ & Hall); [lia|].
    change (@fzero Exact.t exact) with (Some 0).
    rewrite exact_zsqrt by lra. f_equal. f_equal.
    rewrite (sum_sq_all_equal _ _ Hall), (sum_all_equal _ _ Hall), LW.
    field. lra.
  - rewrite Eq.
    replace (Z.of_nat w - 1)%Z with (Z.of_nat (w - 1)) by lia.
    rewrite exact_div_pos by lia.
    assert (Ev : q / INR (w - 1)
                 = (sum_sq W
                    - 2 * (fold_left Rplus W 0 / INR w) * fold_left Rplus W 0
                    + INR w * (fold_left Rplus W 0 / INR w)
                      * (fold_left Rplus W 0 / INR w)) / INR (w - 1)).
    { subst q. unfold win_ssqdm. destruct W as [|y W]; [simpl in LW; lia|].
      rewrite LW. field. lra. }
    rewrite Ev. now rewrite exact_zsqrt.
Qed.

Lemma exact_var_step_setup xs (w i : nat) (a : var_acc Exact.t) x :
  i = 0%nat \/ w = 1%nat -> (1 <= w)%nat ->
  nth_error xs i = Some x ->
  var_inv [x] (var_step (map Some xs) w i a).
Proof.
  intros C Lw E. unfold var_step. cbv zeta.
  assert (Es : (i + 1 - w)%nat = i) by lia. rewrite Es.
  assert (Ec : (i =? 0)%nat || (i <=? i)%nat = true)
    by (rewrite Nat.leb_refl; apply orb_true_r).
  rewrite Ec, (exact_slice_one _ _ _ E), (exact_nth _ _ _ E).
  cbn [fold_left]. apply (var_inv_add []). apply var_inv_start.
Qed.

Lemma exact_var_step_slide xs (w i : nat) (a : var_acc Exact.t) x :
  (2 <= w)%nat -> (1 <= i)%nat ->
  nth_error xs i = Some x ->
  var_inv (lastn w (firstn i xs)) a ->
  var_inv (lastn w (firstn (S i) xs)) (var_step (map Some xs) w i a).
Proof.
  intros Lw Li E Ha. unfold var_step. cbv zeta.
  destruct (Nat.eqb_spec i 0) as [|_]; [lia|].
  destruct (Nat.leb_spec i (i + 1 - w)) as [|_]; [lia|]. cbn [orb].
  rewrite (exact_slice_one _ _ _ E). cbn [fold_left].
  rewrite (firstn_snoc _ _ _ E).
  assert (Lh : List.length (firstn i xs) = i).
  { rewrite length_firstn. apply Nat.min_l.
    apply Nat.lt_le_incl, nth_error_Some. congruence. }
  destruct (Nat.le_gt_cases w i) as [Lwi|Lwi].
  - destruct (lastn_snoc_big w (firstn i xs) x) as (y & T & EW & Ey & ET);
      [lia | lia |].
    rewrite Lh in Ey. rewrite nth_error_firstn in Ey.
    destruct (Nat.ltb_spec (i - w) i) as [_|]; [|lia].
    replace (i + 1 - w)%nat with (i - w + 1)%nat by lia.
    rewrite (exact_slice_one _ _ _ Ey). cbn [fold_left].
    rewrite ET. apply var_inv_add, var_inv_remove.
    now rewrite <- EW.
  - rewrite slice_empty by lia. cbn [fold_left].
    rewrite lastn_snoc_small by lia. now apply var_inv_add.
Qed.

Lemma exact_var_run xs (w : nat) (a : var_acc Exact.t) :
  (1 <= w)%nat ->
  forall t, (t < List.length xs)%nat ->
    var_inv (lastn w (firstn (S t) xs)) (var_run (map Some xs) w a 0 t).
Proof.
  intros Lw. induction t as [|t IH]; intros Lt.
  - destruct (nth_error xs 0) as [x|] eqn:E;
      [|apply nth_error_None in E; lia].
    cbn [var_run].
    replace (lastn w (firstn 1 xs)) with [x].
    + apply exact_var_step_setup; auto.
    + rewrite (firstn_snoc _ _ _ E). cbn [firstn app].
      rewrite lastn_all; [reflexivity | simpl; lia].
  - destruct (nth_error xs (S t)) as [x|] eqn:E;
      [|apply nth_error_None in E; lia].
    rewrite var_run_S. cbn [Nat.add].
    destruct (Nat.eq_dec w 1) as [->|N1].
    + rewrite (firstn_snoc _ _ _ E), lastn_one.
      apply exact_var_step_setup; auto.
    + apply (exact_var_step_slide xs w (S t) _ x);
        [lia | lia | exact E | apply IH; lia].
Qed.

Lemma var_run_no_window {F : Type} `{Float F} (values : Series F)
    (a : var_acc F) (t : nat) :
  var_nobs (var_run values 0 a 0 t) = 0%nat.
Proof.
  assert (S0 : forall i b, var_nobs (var_step values 0 i b) = 0%nat).
  { intros i b. unfold var_step. cbv zeta.
    replace (i + 1 - 0)%nat with (i + 1)%nat by lia.
    destruct (Nat.leb_spec i (i + 1)) as [_|]; [|lia].
    rewrite orb_true_r, slice_empty by lia. reflexivity. }
  destruct t as [|t]; [apply S0 | rewrite var_run_S; apply S0].
Qed.

(** On present values the running deviation is the sample deviation of
    each window. *)
Lemma exact_rolling_std (w : nat) xs :
  rolling_std w (map Some xs) = rolling w std (map Some xs).
Proof.
  apply list_eq_nth_error.
  { rewrite length_rolling_std. unfold rolling.
    now rewrite !length_map, length_seq. }
  rewrite length_rolling_std, length_map. intros t Lt.
  rewrite rolling_nth by (rewrite length_map; exact Lt).
  unfold rolling_std. cbv zeta. rewrite exact_prep_values, length_map.
  rewrite nth_error_map, roll_var_nth by exact Lt. cbn [option_map].
  f_equal.
  destruct (Nat.ltb_spec (t + 1) w) as [Lw|Lw].
  { unfold calc_var.
    pose proof (var_run_nobs (map Some xs) w (var_start nan) t).
    destruct (Nat.leb_spec (Nat.max w 1)
                (var_nobs (var_run (map Some xs) w (var_start nan) 0 t)));
      [lia | reflexivity]. }
  unfold window. rewrite window_map, exact_not_missing.
  destruct (Nat.eq_dec w 0) as [->|N0].
  - cbn [firstn map]. unfold calc_var.
    now rewrite var_run_no_window.
  - rewrite <- lastn_window by lia.
    apply var_inv_calc; [apply exact_var_run; lia | | lia].
    rewrite lastn_window, length_window by lia. reflexivity.
Qed.

End ExactWindows.


(** C7 (as amended).  ATR is the simple rolling mean of the true range
    over the window [n], and its first [n - 1] values are missing.  With
    every high, low and close present, the true range is present at every
    bar, and at bar 0 it is high - low (the two terms that need the previous
    close are missing there and the row maximum skips them); so ATR is
    present from bar [n - 1] on, where it is the mean of the last [n] true
    ranges. *)
Theorem atr_warm_up :
  (forall (F : Type) (HF : Float F) (df : DataFrame F) (h l c : Series F)
          (n : nat),
      col "High" df = Ok h -> col "Low" df = Ok l -> col "Close" df = Ok c ->
      calculate_atr df n = Ok (rolling_mean n (true_range h l c)) /\
      forall t : nat,
        (t < List.length (true_range h l c))%nat -> (t + 1 < n)%nat ->
        nth_error (rolling_mean n (true_range h l c)) t = Some nan)
  /\
  (forall (hs ls cs : list R) (n : nat),
      List.length hs = List.length cs ->
      List.length ls = List.length cs ->
      (1 <= n)%nat ->
      exists trs,
        true_range (map Some hs) (map Some ls) (map Some cs) = map Some trs /\
        List.length trs = List.length cs /\
        (forall h0 l0,
            nth_error hs 0 = Some h0 -> nth_error ls 0 = Some l0 ->
            nth_error trs 0 = Some (h0 - l0)%R) /\
        (forall t : nat, (t < List.length cs)%nat -> (n <= t + 1)%nat ->
            nth_error (rolling_mean n (map Some trs)) t
            = Some (Some (fold_left Rplus
                            (firstn n (skipn (t + 1 - n) trs)) 0
                          / INR n)%R))).
Proof.
  split.
  - intros F HF df h l c n Hh Hl Hc. split.
    + unfold calculate_atr. rewrite Hh, Hl, Hc. reflexivity.
    + intros t Lt Lw. now apply rolling_mean_warm_up.
  - intros hs ls cs n Lh Ll Ln.
    destruct (exact_true_range hs ls cs Lh Ll) as (trs & Etr & Ltr).
    exists trs. split; [exact Etr|]. split; [exact Ltr|]. split.
    { intros h0 l0 Hh0 Hl0.
      destruct hs as [|h hs']; [discriminate|].
      destruct ls as [|l ls']; [discriminate|].
      destruct cs as [|c cs']; [discriminate|].
      injection Hh0 as ->. injection Hl0 as ->.
      destruct trs as [|tr trs']; [discriminate|].
      cbn in Etr. injection Etr as E _. cbn. congruence. }
    intros t Lt Lw.
    rewrite exact_rolling_mean, rolling_nth by (rewrite length_map; lia).
    destruct (Nat.ltb_spec (t + 1) n); [lia|].
    unfold window. rewrite window_map, exact_not_missing.
    rewrite exact_mean.
    + rewrite length_window by lia. reflexivity.
    + intros E. apply (f_equal (@List.length R)) in E.
      rewrite length_window in E by lia. simpl in E. lia.
Qed.

Lemma atr_warm_up_witness :
  (calculate_atr three_exact_bars 2
   = Ok (rolling_mean 2
           (true_range (map Some [11; 12; 13]%R) (map Some [9; 10; 11]%R)
                       (map Some [10; 11; 12]%R))) /\
   forall t : nat,
     (t < List.length
            (true_range (map Some [11; 12; 13]%R) (map Some [9; 10; 11]%R)
                        (map Some [10; 11; 12]%R)))%nat ->
     (t + 1 < 2)%nat ->
     nth_error
       (rolling_mean 2
          (true_range (map Some [11; 12; 13]%R) (map Some [9; 10; 11]%R)
                      (map Some [10; 11; 12]%R))) t
     = Some None)
  /\
  (exists trs,
      true_range (map Some [11; 12; 13]%R) (map Some [9; 10; 11]%R)
                 (map Some [10; 11; 12]%R)
      = map Some trs /\
      List.length trs = List.length [10; 11; 12]%R /\
      (forall h0 l0,
          nth_error [11; 12; 13]%R 0 = Some h0 ->
          nth_error [9; 10; 11]%R 0 = Some l0 ->
          nth_error trs 0 = Some (h0 - l0)%R) /\
      (forall t : nat,
          (t < List.length [10; 11; 12]%R)%nat -> (2 <= t + 1)%nat ->
          nth_error (rolling_mean 2 (map Some trs)) t
          = Some (Some (fold_left Rplus (firstn 2 (skipn (t + 1 - 2) trs)) 0
                        / INR 2)%R))).
Proof.
  split.
  - apply (proj1 atr_warm_up (option R) exact three_exact_bars
             (map Some [11; 12; 13]%R) (map Some [9; 10; 11]%R)
             (map Some [10; 11; 12]%R) 2%nat); reflexivity.
  - apply (proj2 atr_warm_up [11; 12; 13]%R [9; 10; 11]%R [10; 11; 12]%R
             2%nat); auto.
Defined.

(** C7, the claim as stated fails: on 25 rising bars whose high is the
    close plus 1 and whose low is the close minus 1, the true range of bar
    0 is present (2.0), and ATR with the window 20 is present at bar 19. *)
Lemma atr_defined_before_window_end :
  exists h l c atr,
    col "High" rising_prices = Ok h /\ col "Low" rising_prices = Ok l /\
    col "Close" rising_prices = Ok c /\
    nth_error (true_range h l c) 0 = Some 2%float /\
    calculate_atr rising_prices 20 = Ok atr /\
    nth_error atr 18 = Some PrimFloat.nan /\
    nth_error atr 19 = Some 2%float.
Proof.
  do 4 eexists. repeat split; vm_compute; reflexivity.
Qed.

(** ** Bollinger bands and the classical strategy on a constant series *)

Lemma skipn_repeat {A : Type} (x : A) (j n : nat) :
  skipn j (repeat x n) = repeat x (n - j).
Proof.
  revert n; induction j as [|j IH]; intros [|n]; simpl; auto.
Qed.

Lemma firstn_repeat {A : Type} (x : A) (d n : nat) :
  firstn d (repeat x n) = repeat x (Nat.min d n).
Proof.
  revert n; induction d as [|d IH]; intros [|n]; simpl; auto.
  now rewrite IH.
Qed.

Lemma window_repeat {A : Type} (x : A) (d t n : nat) :
  (d <= t + 1)%nat -> (t < n)%nat ->
  firstn d (skipn (t + 1 - d) (repeat x n)) = repeat x d.
Proof.
  intros L1 L2. rewrite skipn_repeat, firstn_repeat. f_equal. lia.
Qed.

Lemma zip_with_map {F : Type} `{Float F} {A : Type} (f : F -> F -> F)
    (g h : A -> F) (l : list A) :
  zip_with f (map g l) (map h l) = map (fun x => f (g x) (h x)) l.
Proof. induction l as [|x l IH]; simpl; [reflexivity | now rewrite IH]. Qed.

Lemma traverse_map {A B : Type} (f : A -> result B) (g : A -> B)
    (l : list A) :
  (forall x, In x l -> f x = Ok (g x)) -> traverse f l = Ok (map g l).
Proof.
  induction l as [|x l IH]; intros Hf; simpl; [reflexivity|].
  rewrite (Hf x) by now left. simpl.
  rewrite IH by (intros y Hy; apply Hf; now right). reflexivity.
Qed.

Section ConstantSeries.

Variable c : R.

Lemma sum_repeat (x a : R) (n : nat) :
  fold_left Rplus (repeat x n) a = (a + INR n * x)%R.
Proof.
  revert a; induction n as [|n IH]; intros a.
  - simpl. ring.
  - cbn [repeat fold_left]. rewrite IH, S_INR. ring.
Qed.

Lemma map_Some_repeat (x : R) (n : nat) :
  repeat (Some x) n = map Some (repeat x n).
Proof. induction n; simpl; congruence. Qed.

Lemma mean_constant (d : nat) :
  (1 <= d)%nat -> mean (repeat (Some c) d) = Some c.
Proof.
  intros L. rewrite map_Some_repeat, exact_mean.
  - rewrite sum_repeat, repeat_length. f_equal. field.
    apply not_0_INR. lia.
  - destruct d; [lia | discriminate].
Qed.

Lemma std_constant (d : nat) :
  (2 <= d)%nat -> std (repeat (Some c) d) = Some 0%R.
Proof.
  intros L. unfold std. rewrite repeat_length.
  destruct (Nat.leb_spec d 1); [lia|].
  rewrite mean_constant by lia.
  rewrite map_repeat. cbn [fsub fmul exact Exact.lift2].
  rewrite map_Some_repeat, exact_fsum, sum_repeat.
  replace (Z.of_nat d - 1) with (Z.of_nat (d - 1)) by lia.
  rewrite exact_div_pos by lia.
  replace ((0 + INR d * ((c - c) * (c - c))) / INR (d - 1))%R with 0%R.
  - cbn. destruct (Rlt_dec 0 0) as [A|_]; [lra|]. now rewrite sqrt_0.
  - field. apply not_0_INR. lia.
Qed.

Lemma rolling_mean_constant (d n : nat) :
  (1 <= d)%nat ->
  rolling_mean d (repeat (Some c) n) = map (warm d c) (seq 0 n).
Proof.
  intros L. rewrite map_Some_repeat, exact_rolling_mean, <- map_Some_repeat.
  unfold rolling. rewrite repeat_length.
  apply map_ext_in. intros t Ht. apply in_seq in Ht. unfold warm.
  destruct (Nat.ltb_spec (t + 1) d); [reflexivity|].
  unfold window. rewrite window_repeat by lia.
  rewrite map_Some_repeat at 1. rewrite exact_not_missing.
  now apply mean_constant.
Qed.

Lemma rolling_std_constant (d n : nat) :
  (2 <= d)%nat ->
  rolling_std d (repeat (Some c) n) = map (warm d 0) (seq 0 n).
Proof.
  intros L. rewrite map_Some_repeat, exact_rolling_std, <- map_Some_repeat.
  unfold rolling. rewrite repeat_length.
  apply map_ext_in. intros t Ht. apply in_seq in Ht. unfold warm.
  destruct (Nat.ltb_spec (t + 1) d); [reflexivity|].
  unfold window. rewrite window_repeat by lia.
  rewrite map_Some_repeat at 1. rewrite exact_not_missing.
  now apply std_constant.
Qed.

Lemma band_constant (op : R -> R -> R) (k : R) (d n : nat) :
  (forall x, op x (k * 0)%R = x) ->
  zip_with (Exact.lift2 op) (map (warm d c) (seq 0 n))
           (map (fmul (Some k)) (map (warm d 0) (seq 0 n)))
  = map (warm d c) (seq 0 n).
Proof.
  intros Hop. rewrite map_map, zip_with_map.
  apply map_ext. intros t. unfold warm.
  destruct (t + 1 <? d)%nat; cbn; [reflexivity|]. now rewrite Hop.
Qed.

(** The bands of a constant series. *)
Lemma bollinger_constant (df : DataFrame (option R)) (k : R) (d n : nat) :
  (2 <= d)%nat ->
  col "Close" df = Ok (repeat (Some c) n) ->
  calculate_bollinger_bands df d (Some k)
  = Ok (assign "Lower_Track" (map (warm d c) (seq 0 n))
       (assign "Upper_Track" (map (warm d c) (seq 0 n))
       (assign "STD" (map (warm d 0) (seq 0 n))
       (assign "MA" (map (warm d c) (seq 0 n)) df)))).
Proof.
  intros L Hc. unfold calculate_bollinger_bands.
  rewrite Hc. cbn [bind].
  rewrite rolling_mean_constant, rolling_std_constant by lia.
  cols. cbn [bind]. cols. cbn [bind].
  change fadd with (Exact.lift2 Rplus). change fsub with (Exact.lift2 Rminus).
  rewrite !band_constant by (intros x; ring).
  reflexivity.
Qed.

End ConstantSeries.

Lemma firstn_seq_min (j s n : nat) :
  firstn j (seq s n) = seq s (Nat.min j n).
Proof.
  revert s n; induction j as [|j IH]; intros s [|n]; simpl; auto.
  now rewrite IH.
Qed.

Section ClassicalConstant.

Variables ic c : R.

Lemma c_bars_constant (df : DataFrame (option R)) (d n : nat) :
  len df = n ->
  col "Close" df = Ok (repeat (Some c) n) ->
  c_bars (assign "Lower_Track" (map (warm d c) (seq 0 n))
         (assign "Upper_Track" (map (warm d c) (seq 0 n))
         (assign "STD" (map (warm d 0) (seq 0 n))
         (assign "MA" (map (warm d c) (seq 0 n)) df))))
  = Ok (map (constant_bar c d) (seq 0 n)).
Proof.
  intros Ln Hc. unfold c_bars, len. cbn [index assign]. fold (len df).
  rewrite Ln. apply traverse_map. intros t Ht. apply in_seq in Ht.
  unfold c_read_bar, cell. cols. rewrite Hc. cbn [bind].
  rewrite nth_error_repeat by lia. cbn [bind].
  rewrite nth_error_map, nth_error_seq_some by lia. reflexivity.
Qed.

Lemma c_trade_warm_up (b : c_bar (option R)) (a : c_account (option R)) :
  c_position a = 0 -> c_lower b = None -> c_trade b a = Ok a.
Proof.
  intros Hp Hl. unfold c_trade. rewrite Hp, Hl.
  destruct (c_close b); reflexivity.
Qed.

Lemma c_simulate_warm_up (bars : list (c_bar (option R)))
    (a : c_account (option R)) (pv : list (option R)) :
  c_position a = 0 -> Forall (fun b => c_lower b = None) bars ->
  exists pv', c_simulate bars (a, pv) = Ok (a, pv').
Proof.
  intros Hp Hb; revert pv; induction Hb as [|b bars Hl _ IH]; intros pv;
    simpl; [eauto|].
  unfold c_loop_body. cbn [fst snd]. rewrite c_trade_warm_up by assumption.
  cbn [bind]. apply IH.
Qed.

Lemma c_simulate_app (l1 l2 : list (c_bar (option R)))
    (v : c_account (option R) * list (option R)) :
  c_simulate (l1 ++ l2) v = bind (c_simulate l1 v) (c_simulate l2).
Proof.
  revert v; induction l1 as [|b l1 IH]; intros v; simpl; [reflexivity|].
  destruct (c_loop_body b v); simpl; auto.
Qed.

Lemma c_trade_entry (d t : nat) (a : c_account (option R)) :
  (d <= t + 1)%nat -> c <> 0%R ->
  c_position a = 0 -> c_cash a = Some ic ->
  c_trade (constant_bar c d t) a
  = Ok {| c_cash := Some 0%R; c_position := 1; c_shares := Some (ic / c)%R |}.
Proof.
  intros L N Hp Hc. unfold c_trade, constant_bar, warm. cbn [c_close c_lower].
  destruct (Nat.ltb_spec (t + 1) d); [lia|]. rewrite Hp, Hc.
  unfold pydiv. real_tests. reflexivity.
Qed.

End ClassicalConstant.

(** X18.  In exact arithmetic, on a constant series with a window of at
    least 2: the moving average is the constant and the standard deviation
    is 0 wherever they are defined (from bar d - 1 on), so both tracks equal
    the moving average there; the classical strategy stays FLAT through the
    warm-up bars, and at bar d - 1, the first with bands, the close equals
    the lower track and it enters LONG (the close not being zero). *)
Theorem classical_on_constant_series (df : DataFrame (option R))
    (ic c k : R) (d n : nat) :
  (2 <= d)%nat -> len df = n ->
  col "Close" df = Ok (repeat (Some c) n) ->
  exists df' bars,
    calculate_bollinger_bands df d (Some k) = Ok df' /\
    (forall t : nat, (t < n)%nat ->
        cell "MA" t df' = Ok (warm d c t) /\
        cell "STD" t df' = Ok (warm d 0 t) /\
        cell "Upper_Track" t df' = Ok (warm d c t) /\
        cell "Lower_Track" t df' = Ok (warm d c t)) /\
    c_bars df' = Ok bars /\
    (forall t : nat, (t < n)%nat -> (t + 1 < d)%nat ->
        exists pv,
          c_simulate (firstn (S t) bars) (c_start (Some ic), [])
          = Ok (c_start (Some ic), pv)) /\
    ((d <= n)%nat -> c <> 0%R ->
     exists pv,
       c_simulate (firstn d bars) (c_start (Some ic), [])
       = Ok ({| c_cash := Some 0%R; c_position := 1;
                c_shares := Some (ic / c)%R |}, pv)).
Proof.
  intros Ld Ln Hc.
  eexists. exists (map (constant_bar c d) (seq 0 n)).
  split; [exact (bollinger_constant c df k d n Ld Hc)|].
  split.
  { intros t Lt. unfold cell. cols. cbn [bind].
    rewrite !nth_error_map, nth_error_seq_some by lia. auto. }
  split; [apply c_bars_constant; assumption|].
  assert (Hwarm : forall j, (j < d)%nat -> (j <= n)%nat ->
            Forall (fun b => c_lower b = None)
                   (firstn j (map (constant_bar c d) (seq 0 n)))).
  { intros j Lj Ljn. rewrite firstn_map, firstn_seq_min.
    apply Forall_map, Forall_forall. intros t Ht. apply in_seq in Ht.
    unfold constant_bar, warm; simpl.
    destruct (Nat.ltb_spec (t + 1) d); [reflexivity | lia]. }
  split.
  - intros t Lt Lw. apply c_simulate_warm_up; [reflexivity|].
    apply Hwarm; lia.
  - intros Ldn Nc.
    assert (E : firstn d (map (constant_bar c d) (seq 0 n))
                = firstn (d - 1) (map (constant_bar c d) (seq 0 n))
                  ++ [constant_bar c d (d - 1)]).
    { replace d with (S (d - 1)) at 1 by lia.
      apply firstn_succ.
      rewrite nth_error_map, nth_error_seq_some by lia. reflexivity. }
    rewrite E, c_simulate_app.
    destruct (c_simulate_warm_up
                (firstn (d - 1) (map (constant_bar c d) (seq 0 n)))
                (c_start (Some ic)) []) as [pv Hpv];
      [reflexivity | apply Hwarm; lia |].
    rewrite Hpv. cbn [bind c_simulate]. unfold c_loop_body. cbn [fst snd].
    rewrite (c_trade_entry ic c d (d - 1)) by (auto; lia).
    cbn [bind]. eauto.
Qed.

Lemma classical_on_constant_series_witness :
  exists df' bars,
    calculate_bollinger_bands three_flat_bars 2 (Some 3%R) = Ok df' /\
    (forall t : nat, (t < 3)%nat ->
        cell "MA" t df' = Ok (warm 2 5 t) /\
        cell "STD" t df' = Ok (warm 2 0 t) /\
        cell "Upper_Track" t df' = Ok (warm 2 5 t) /\
        cell "Lower_Track" t df' = Ok (warm 2 5 t)) /\
    c_bars df' = Ok bars /\
    (forall t : nat, (t < 3)%nat -> (t + 1 < 2)%nat ->
        exists pv,
          c_simulate (firstn (S t) bars) (c_start (Some 100%R), [])
          = Ok (c_start (Some 100%R), pv)) /\
    ((2 <= 3)%nat -> 5%R <> 0%R ->
     exists pv,
       c_simulate (firstn 2 bars) (c_start (Some 100%R), [])
       = Ok ({| c_cash := Some 0%R; c_position := 1;
                c_shares := Some (100 / 5)%R |}, pv)).
Proof.
  apply (classical_on_constant_series three_flat_bars 100 5 3 2 3);
    [lia | reflexivity | reflexivity].
Defined.

(** C8.  The code enters a position on a constant series, against the
    claim and against the docstring of the class ("Buy when the closing
    price falls below the Lower Track"): on 20 bars of close 50, with the
    default window 20 and multiplier 3, the deviation at bar 19 is 0 and the
    lower track is 50, as the claim says, and the classical loop ends LONG;
    it bought 2000 shares at bar 19, where close = Lower_Track = 50, because
    the entry test [close <= lower] is not strict. *)
Lemma classical_enters_on_constant_series :
  exists df,
    calculate_bollinger_bands flat_prices 20 3%float = Ok df /\
    cell "STD" 19 df = Ok 0%float /\
    cell "Lower_Track" 19 df = Ok 50%float /\
    classical_loop 100000%float 20 3%float flat_prices
    = Ok ({| c_cash := 0%float; c_position := 1; c_shares := 2000%float |},
          repeat 100000%float 20).
Proof.
  eexists. repeat split; vm_compute; reflexivity.
Qed.

(** ** The Sharpe ratio *)

Section SharpeFacts.

Lemma filter_present (rs : list R) :
  dropna_series (map Some rs) = map Some rs.
Proof.
  unfold dropna_series. induction rs as [|r rs IH]; [reflexivity|].
  cbn. f_equal. exact IH.
Qed.

Lemma returns_from (p : R) (vs : list R) :
  p <> 0%R -> Forall (fun v => v <> 0%R) vs ->
  zip_with (fun x q => (x / q - of_Z 1)%fl) (map Some vs)
           (firstn (List.length (map Some vs)) (Some p :: map Some vs))
  = map Some (spec_returns (p :: vs)).
Proof.
  intros Np Hv; revert p Np; induction Hv as [|v vs Nv _ IH]; intros p Np;
    [reflexivity|].
  cbn [map List.length firstn zip_with spec_returns].
  rewrite IH by exact Nv. f_equal.
  cbn. unfold Exact.div. destruct (Req_dec_T p 0); [contradiction|].
  reflexivity.
Qed.

Lemma pct_change_exact (vs : list R) :
  Forall (fun v => v <> 0%R) vs ->
  dropna_series (pct_change (map Some vs)) = map Some (spec_returns vs).
Proof.
  intros Hv. unfold pct_change, shift.
  change (0 <=? 1) with true. cbv iota.
  change (repeat nan (Z.to_nat 1) ++ map Some vs)
    with ((None : option R) :: map Some vs).
  destruct Hv as [|v vs Nv Hv]; [reflexivity|].
  cbn [map List.length firstn zip_with].
  rewrite returns_from by assumption.
  change ((Some v / None - of_Z 1)%fl) with (None : option R).
  unfold dropna_series. cbn [filter is_nan exact Exact.isnan negb].
  apply filter_present.
Qed.

Lemma spec_returns_constant (c : R) (n : nat) :
  spec_returns (repeat c n) = repeat (c / c - 1)%R (n - 1).
Proof.
  destruct n as [|n]; [reflexivity|].
  simpl repeat at 1. rewrite Nat.sub_succ, Nat.sub_0_r.
  induction n as [|n IH]; [reflexivity|].
  simpl repeat. simpl spec_returns. f_equal. exact IH.
Qed.

End SharpeFacts.

(** C9 (as amended).  The Sharpe computation returns 0.0 when the sample
    standard deviation of the returns is zero, and mean / std * sqrt(252)
    otherwise; the returns are value[t] / value[t-1] - 1 for t >= 1.  For a
    constant series of a value other than zero it returns 0.0 when the
    series has at least three values, and NaN when it has at most two (the
    standard deviation of fewer than two returns is missing). *)
Theorem sharpe_ratio_cases :
  (forall (F : Type) (HF : Float F) (pv : Series F),
      let r := dropna_series (pct_change pv) in
      ((std r == of_Z 0)%fl = true -> calculate_sharpe_ratio pv = fzero) /\
      ((std r == of_Z 0)%fl = false ->
       calculate_sharpe_ratio pv = (mean r / std r * fsqrt (of_Z 252))%fl))
  /\
  (forall vs : list R,
      Forall (fun v => v <> 0%R) vs ->
      dropna_series (pct_change (map Some vs)) = map Some (spec_returns vs))
  /\
  (forall (c : R) (n : nat),
      c <> 0%R ->
      ((3 <= n)%nat ->
       calculate_sharpe_ratio (repeat (Some c) n) = Some 0%R) /\
      ((n <= 2)%nat -> calculate_sharpe_ratio (repeat (Some c) n) = None)).
Proof.
  split; [|split].
  - intros F HF pv r. unfold calculate_sharpe_ratio. fold r.
    split; intros ->; reflexivity.
  - exact pct_change_exact.
  - intros c n Nc.
    assert (E : dropna_series (pct_change (repeat (Some c) n))
                = repeat (Some (c / c - 1)%R) (n - 1)).
    { rewrite map_Some_repeat, pct_change_exact, spec_returns_constant.
      - now rewrite <- map_Some_repeat.
      - apply Forall_forall. intros x Hx. apply repeat_spec in Hx.
        now subst x. }
    unfold calculate_sharpe_ratio. rewrite E. split; intros L.
    + rewrite std_constant by lia. cbn. unfold Exact.Reqb.
      destruct (Req_dec_T 0 0); [reflexivity | contradiction].
    + unfold std. rewrite repeat_length.
      destruct (Nat.leb_spec (n - 1) 1); [|lia].
      cbn. destruct (mean _); reflexivity.
Qed.

Lemma sharpe_ratio_cases_witness :
  calculate_sharpe_ratio [100; 110; 100; 120]%float
  = (mean (dropna_series (pct_change [100; 110; 100; 120]%float))
     / std (dropna_series (pct_change [100; 110; 100; 120]%float))
     * fsqrt (of_Z 252))%fl /\
  dropna_series (pct_change (map Some [1; 2; 1]%R))
  = map Some (spec_returns [1; 2; 1]%R) /\
  calculate_sharpe_ratio (repeat (Some 7%R) 3) = Some 0%R /\
  calculate_sharpe_ratio (repeat (Some 7%R) 2) = None.
Proof.
  assert (N7 : 7%R <> 0%R) by lra.
  assert (N : Forall (fun v => v <> 0%R) [1; 2; 1]%R)
    by (repeat constructor; lra).
  split; [|split; [|split]].
  - apply (proj1 sharpe_ratio_cases float binary64
             [100; 110; 100; 120]%float).
    vm_compute. reflexivity.
  - exact (proj1 (proj2 sharpe_ratio_cases) [1; 2; 1]%R N).
  - apply (proj2 (proj2 sharpe_ratio_cases) 7%R 3%nat N7). lia.
  - apply (proj2 (proj2 sharpe_ratio_cases) 7%R 2%nat N7). lia.
Defined.

(** C9, the claim as stated fails: for the constant series 100, 100 the
    single return is 0, its sample standard deviation is missing, and the
    Sharpe ratio is NaN, not 0.0. *)
Lemma sharpe_of_two_equal_values_is_nan :
  dropna_series (pct_change [100; 100]%float) = [0%float] /\
  is_nan (std [0%float]) = true /\
  calculate_sharpe_ratio [100; 100]%float = PrimFloat.nan /\
  calculate_sharpe_ratio [100; 100]%float <> 0%float.
Proof.
  repeat split; try (vm_compute; reflexivity).
  intros E. apply (f_equal PrimFloat.is_nan) in E. vm_compute in E.
  discriminate.
Qed.

(** * Further properties *)

(** ** [calculate_bollinger_bands] as a frame transformer *)

Section BollingerFrame.

Context {F : Type} `{Float F}.

Lemma store_same (name : string) (s : Series F)
    (cols : list (string * Series F)) :
  lookup name cols = Some s -> store name s cols = cols.
Proof.
  induction cols as [|[n s'] cols IH]; simpl; [discriminate|].
  destruct (String.eqb n name); [now intros [= ->] | intros E].
  now rewrite IH.
Qed.

Lemma assign_same (name : string) (s : Series F) (df : DataFrame F) :
  col name df = Ok s -> assign name s df = df.
Proof.
  unfold col, assign. destruct (lookup name (columns df)) as [s'|] eqn:E;
    [|discriminate].
  intros [= ->]. rewrite store_same by exact E. now destruct df.
Qed.

Lemma col_missing (name : string) (df : DataFrame F) :
  lookup name (columns df) = None -> col name df = Raise (KeyError name).
Proof. unfold col. now intros ->. Qed.

(** The frame [calculate_bollinger_bands] returns. *)
Lemma bollinger_result (df : DataFrame F) (d : nat) (k : F)
    (close : Series F) :
  col "Close" df = Ok close ->
  calculate_bollinger_bands df d k
  = Ok (let ma := rolling_mean d close in
        let sd := rolling_std d close in
        assign "Lower_Track" (zip_with fsub ma (map (fmul k) sd))
        (assign "Upper_Track" (zip_with fadd ma (map (fmul k) sd))
        (assign "STD" sd (assign "MA" ma df)))).
Proof.
  intros Hc. unfold calculate_bollinger_bands. rewrite Hc. cbn [bind].
  cols. cbn [bind]. cols. reflexivity.
Qed.

End BollingerFrame.

(** X1.  [calculate_bollinger_bands] fails exactly on a frame without a
    Close column, with KeyError 'Close'; otherwise it keeps the index and
    every column other than the four it writes, gives MA, STD and the two
    tracks the length of Close, and keeps a well-formed frame well-formed. *)
Theorem bollinger_bands_frame {F : Type} `{Float F} (df : DataFrame F)
    (d : nat) (k : F) :
  (lookup "Close" (columns df) = None ->
   calculate_bollinger_bands df d k = Raise (KeyError "Close")) /\
  (forall close, col "Close" df = Ok close ->
     exists df',
       calculate_bollinger_bands df d k = Ok df' /\
       index df' = index df /\
       (forall name,
           ~ In name ["MA"; "STD"; "Upper_Track"; "Lower_Track"] ->
           col name df' = col name df) /\
       (forall name,
           In name ["MA"; "STD"; "Upper_Track"; "Lower_Track"] ->
           exists s, col name df' = Ok s /\
                     List.length s = List.length close) /\
       (wf df -> wf df')).
Proof.
  split.
  - intros E. unfold calculate_bollinger_bands.
    now rewrite (col_missing _ _ E).
  - intros close Hc. eexists. split; [apply bollinger_result; exact Hc|].
    cbv zeta. split; [reflexivity|]. split; [|split].
    + intros name Hn. simpl in Hn.
      rewrite !col_assign.
      repeat match goal with
             | |- context [String.eqb ?a name] =>
                 destruct (String.eqb_spec a name); [exfalso; tauto|]
             end.
      reflexivity.
    + assert (L1 : List.length (rolling_mean d close) = List.length close)
        by apply length_rolling_mean.
      assert (L2 : List.length (rolling_std d close) = List.length close)
        by apply length_rolling_std.
      intros name Hn. simpl in Hn.
      destruct Hn as [<-|[<-|[<-|[<-|[]]]]]; eexists;
        (split; [cols; reflexivity|]);
        rewrite ?length_zip_with by (rewrite length_map; congruence);
        congruence.
    + intros W. pose proof (wf_col _ _ _ W Hc) as Lc.
      assert (L1 : List.length (rolling_mean d close) = len df)
        by (rewrite length_rolling_mean; exact Lc).
      assert (L2 : List.length (rolling_std d close) = len df)
        by (rewrite length_rolling_std; exact Lc).
      repeat apply wf_assign; try exact W;
        rewrite ?length_zip_with by (rewrite length_map; congruence);
        assumption.
Qed.

Lemma bollinger_bands_frame_witness :
  exists df',
    calculate_bollinger_bands rising_prices 20 3%float = Ok df' /\
    index df' = index rising_prices /\
    (forall name,
        ~ In name ["MA"; "STD"; "Upper_Track"; "Lower_Track"] ->
        col name df' = col name rising_prices) /\
    (forall name,
        In name ["MA"; "STD"; "Upper_Track"; "Lower_Track"] ->
        exists s, col name df' = Ok s /\ List.length s = 25%nat) /\
    (wf rising_prices -> wf df').
Proof.
  apply (proj2 (bollinger_bands_frame rising_prices 20 3%float)
           (map (fun i => of_Z (Z.of_nat (100 + i))) (seq 0 25))).
  reflexivity.
Defined.

(** X2.  [calculate_bollinger_bands] is idempotent: on the frame it
    returned, a second call with the same window and multiplier returns that
    frame again (as in [main], which computes the bands and then hands the
    frame to strategies that compute them anew). *)
Theorem bollinger_bands_idempotent {F : Type} `{Float F}
    (df df' : DataFrame F) (d : nat) (k : F) :
  calculate_bollinger_bands df d k = Ok df' ->
  calculate_bollinger_bands df' d k = Ok df'.
Proof.
  intros E.
  destruct (col "Close" df) as [close|e] eqn:Hc.
  2:{ unfold calculate_bollinger_bands in E. rewrite Hc in E. discriminate. }
  rewrite (bollinger_result df d k close Hc) in E. cbv zeta in E.
  injection E as <-.
  set (ma := rolling_mean d close). set (sd := rolling_std d close).
  set (up := zip_with fadd ma (map (fmul k) sd)).
  set (lo := zip_with fsub ma (map (fmul k) sd)).
  set (df1 := assign "Lower_Track" lo (assign "Upper_Track" up
                (assign "STD" sd (assign "MA" ma df)))).
  assert (Hc1 : col "Close" df1 = Ok close) by (unfold df1; cols; exact Hc).
  rewrite (bollinger_result df1 d k close Hc1). cbv zeta.
  fold ma sd up lo. f_equal.
  rewrite (assign_same "MA" ma df1) by (unfold df1; cols; reflexivity).
  rewrite (assign_same "STD" sd df1) by (unfold df1; cols; reflexivity).
  rewrite (assign_same "Upper_Track" up df1) by (unfold df1; cols; reflexivity).
  apply assign_same. unfold df1; cols; reflexivity.
Qed.

Lemma bollinger_bands_idempotent_witness :
  exists df',
    calculate_bollinger_bands flat_prices 20 3%float = Ok df' /\
    calculate_bollinger_bands df' 20 3%float = Ok df'.
Proof.
  eexists. split; [vm_compute; reflexivity|].
  apply (bollinger_bands_idempotent flat_prices).
  vm_compute. reflexivity.
Defined.

(** ** Values of the indicators in exact arithmetic *)

Section ExactIndicators.

Local Open Scope R_scope.

(** The three-bar weighted average of defined prices. *)
Lemma exact_wma_window (a b c : R) :
  (fsum (zip_with fmul (map of_Z weights) (map Some [a; b; c]))
   / of_Z sum_weights)%fl
  = Some ((a + 2 * b + 3 * c) / 6).
Proof.
  cbn. unfold Exact.div. destruct (Req_dec_T 6 0) as [E|_]; [lra|].
  f_equal. lra.
Qed.

End ExactIndicators.

(** X3.  [calculate_wma_3] returns a series of the length of its argument
    whose first two values are missing; on defined prices every later value
    is (1*p[t-2] + 2*p[t-1] + 3*p[t]) / 6 and lies between the smallest and
    the largest of the three prices. *)
Theorem wma_3_values :
  (forall (F : Type) (FF : Float F) (s : Series F),
      List.length (calculate_wma_3 s) = List.length s /\
      forall t, (t < 2)%nat -> (t < List.length s)%nat ->
                nth_error (calculate_wma_3 s) t = Some nan) /\
  (forall (ps : list R) (i : nat) (a b c : R),
      nth_error ps i = Some a ->
      nth_error ps (i + 1) = Some b ->
      nth_error ps (i + 2) = Some c ->
      let w := ((a + 2 * b + 3 * c) / 6)%R in
      nth_error (calculate_wma_3 (map Some ps)) (i + 2) = Some (Some w) /\
      (Rmin a (Rmin b c) <= w <= Rmax a (Rmax b c))%R).
Proof.
  split.
  - intros F FF s. split; [apply length_rolling|].
    intros t L2 Ls. unfold calculate_wma_3. rewrite rolling_nth by exact Ls.
    destruct (Nat.ltb_spec (t + 1) 3); [reflexivity | lia].
  - intros ps i a b c Ha Hb Hc w. split.
    + assert (Ls : (i + 2 < List.length (map Some ps))%nat).
      { rewrite length_map. apply nth_error_Some. congruence. }
      unfold calculate_wma_3. rewrite rolling_nth by exact Ls.
      destruct (Nat.ltb_spec (i + 2 + 1) 3) as [L|_]; [lia|].
      assert (W : window 3 (i + 2) (map Some ps) = map Some [a; b; c]).
      { unfold window. rewrite window_map.
        replace (i + 2 + 1 - 3)%nat with i by lia.
        rewrite (skipn_nth_error ps i a Ha).
        replace (S i) with (i + 1)%nat by lia.
        rewrite (skipn_nth_error ps (i + 1) b Hb).
        replace (S (i + 1)) with (i + 2)%nat by lia.
        rewrite (skipn_nth_error ps (i + 2) c Hc). reflexivity. }
      rewrite W, exact_not_missing. now rewrite exact_wma_window.
    + pose proof (Rmin_l a (Rmin b c)). pose proof (Rmin_r a (Rmin b c)).
      pose proof (Rmin_l b c). pose proof (Rmin_r b c).
      pose proof (Rmax_l a (Rmax b c)). pose proof (Rmax_r a (Rmax b c)).
      pose proof (Rmax_l b c). pose proof (Rmax_r b c).
      unfold w. lra.
Qed.

Lemma wma_3_values_witness :
  nth_error (calculate_wma_3 (map Some [10; 20; 40; 30]%R)) 3
  = Some (Some ((20 + 2 * 40 + 3 * 30) / 6)%R) /\
  (Rmin 20 (Rmin 40 30) <= (20 + 2 * 40 + 3 * 30) / 6
   <= Rmax 20 (Rmax 40 30))%R.
Proof.
  apply (proj2 wma_3_values [10; 20; 40; 30]%R 1%nat 20%R 40%R 30%R);
    reflexivity.
Defined.

(** X4.  On a fully defined Close column, with a window of at least two
    bars: the four band columns are missing before bar [d - 1]; from there
    on MA is the mean of the last [d] closes, STD is the square root of
    their sample variance (divisor [d - 1]) and is not negative, the tracks
    are MA + k*STD and MA - k*STD, and for [k >= 0] the lower track is at
    most MA, which is at most the upper track. *)
Theorem bollinger_bands_values (dates : list Z) (cs : list R) (d : nat)
    (k : R) :
  (2 <= d)%nat ->
  let df : DataFrame Exact.t :=
    {| index := dates; columns := [("Close", map Some cs)] |} in
  exists df',
    calculate_bollinger_bands df d (Some k) = Ok df' /\
    forall t, (t < List.length cs)%nat ->
      exists ma sd up lo,
        col "MA" df' = Ok ma /\ col "STD" df' = Ok sd /\
        col "Upper_Track" df' = Ok up /\ col "Lower_Track" df' = Ok lo /\
        if (t + 1 <? d)%nat
        then nth_error ma t = Some None /\ nth_error sd t = Some None /\
             nth_error up t = Some None /\ nth_error lo t = Some None
        else
          let w := firstn d (skipn (t + 1 - d) cs) in
          let m := (fold_left Rplus w 0 / INR d)%R in
          let v := (fold_left Rplus (map (fun r => (r - m) * (r - m)) w) 0
                    / INR (d - 1))%R in
          nth_error ma t = Some (Some m) /\
          nth_error sd t = Some (Some (R_sqrt.sqrt v)) /\
          (0 <= v)%R /\
          nth_error up t = Some (Some (m + k * R_sqrt.sqrt v)%R) /\
          nth_error lo t = Some (Some (m - k * R_sqrt.sqrt v)%R) /\
          ((0 <= k)%R ->
           (m - k * R_sqrt.sqrt v <= m <= m + k * R_sqrt.sqrt v)%R).
Proof.
  intros Hd df.
  eexists. split; [apply bollinger_result; reflexivity|].
  cbv zeta. intros t Lt.
  do 4 eexists.
  split; [cols; reflexivity|]. split; [cols; reflexivity|].
  split; [cols; reflexivity|]. split; [cols; reflexivity|].
  assert (Ls : (t < List.length (map Some cs))%nat) by now rewrite length_map.
  pose proof (rolling_nth d mean (map Some cs) t Ls) as Hma.
  pose proof (rolling_nth d std (map Some cs) t Ls) as Hsd.
  rewrite <- exact_rolling_mean in Hma. rewrite <- exact_rolling_std in Hsd.
  assert (Z : forall (f : Exact.t -> Exact.t -> Exact.t) x y,
             nth_error (rolling_mean d (map Some cs)) t = Some x ->
             nth_error (rolling_std d (map Some cs)) t = Some y ->
             nth_error (zip_with f (rolling_mean d (map Some cs))
                          (map (fmul (Some k))
                             (rolling_std d (map Some cs)))) t
             = Some (f x (fmul (Some k) y))).
  { intros f x y. generalize (rolling_mean d (map Some cs)).
    generalize (rolling_std d (map Some cs)). clear.
    intros sd ma. revert sd ma.
    induction t as [|t IH]; intros [|s sd] [|m ma]; simpl;
      intros E1 E2; try discriminate.
    - now injection E1 as ->; injection E2 as ->.
    - now apply IH. }
  destruct (Nat.ltb_spec (t + 1) d) as [L|L].
  - rewrite (Z _ _ _ Hma Hsd), (Z _ _ _ Hma Hsd). now rewrite Hma, Hsd.
  - unfold window in Hma, Hsd. rewrite window_map in Hma, Hsd.
    rewrite exact_not_missing in Hma, Hsd.
    set (w := firstn d (skipn (t + 1 - d) cs)) in *.
    assert (Lw : List.length w = d) by (apply length_window; lia).
    rewrite exact_mean in Hma by (intros E; rewrite E in Lw; simpl in Lw; lia).
    destruct (exact_std w) as [Hv Hs]; [lia|]. rewrite Lw in Hs, Hma, Hv.
    rewrite Hs in Hsd.
    cbv zeta. rewrite (Z _ _ _ Hma Hsd), (Z _ _ _ Hma Hsd).
    split; [exact Hma|]. split; [exact Hsd|]. split; [exact Hv|].
    split; [reflexivity|]. split; [reflexivity|].
    intros Hk.
    match goal with |- context [R_sqrt.sqrt ?v] =>
      pose proof (R_sqrt.sqrt_pos v) as Hq end.
    match goal with |- context [R_sqrt.sqrt ?v] =>
      set (q := R_sqrt.sqrt v) in * end.
    assert (0 <= k * q)%R by (apply Rmult_le_pos; assumption).
    lra.
Qed.

Lemma bollinger_bands_values_witness :
  exists df',
    calculate_bollinger_bands
      {| index := [1; 2; 3]; columns := [("Close", map Some [1; 2; 4]%R)] |}
      2 (Some 3%R) = Ok df' /\
    exists ma, col "MA" df' = Ok ma /\
               nth_error ma 2 = Some (Some ((0 + 2 + 4) / INR 2)%R).
Proof.
  destruct (bollinger_bands_values [1; 2; 3] [1; 2; 4]%R 2 3%R)
    as (df' & E & Hv); [lia|].
  exists df'. split; [exact E|].
  destruct (Hv 2%nat) as (ma & sd & up & lo & Hma & _ & _ & _ & Hn);
    [simpl; lia|].
  exists ma. split; [exact Hma|]. exact (proj1 Hn).
Defined.

(** ** [calculate_max_drawdown] in exact arithmetic *)

Lemma In_firstn_nth_error {A : Type} (x : A) (n : nat) (l : list A) :
  In x (firstn n l) -> exists s, (s < n)%nat /\ nth_error l s = Some x.
Proof.
  revert l; induction n as [|n IH]; intros [|y l]; simpl; try tauto.
  intros [->|Hin].
  - exists 0%nat. split; [lia | reflexivity].
  - destruct (IH l Hin) as (s & Ls & Hs). exists (S s). split; [lia | exact Hs].
Qed.

Lemma nth_error_In_firstn {A : Type} (x : A) (s n : nat) (l : list A) :
  (s < n)%nat -> nth_error l s = Some x -> In x (firstn n l).
Proof.
  revert s l; induction n as [|n IH]; intros s l Ls; [lia|].
  destruct l as [|y l]; destruct s as [|s]; simpl; try discriminate.
  - intros [= ->]. now left.
  - intros E. right. apply (IH s l); [lia | exact E].
Qed.

Section ExactDrawdown.

Local Open Scope R_scope.

(** The running maximum of defined values: at each place the largest of
    the values seen so far ([seen] are those before the series). *)
Lemma exact_cummax_from (vs : list R) :
  forall (m0 : option R) (seen : list R),
    match m0 with
    | None => seen = []
    | Some M => In M seen /\ Forall (fun x => x <= M) seen
    end ->
    exists ms,
      cummax_from m0 (map Some vs) = map Some ms /\
      List.length ms = List.length vs /\
      forall t M, nth_error ms t = Some M ->
        In M (seen ++ firstn (S t) vs) /\
        Forall (fun x => x <= M) (seen ++ firstn (S t) vs).
Proof.
  induction vs as [|v vs IH]; intros m0 seen Hm.
  - exists []. split; [reflexivity|]. split; [reflexivity|].
    intros [|t] M; discriminate.
  - assert (E : exists M', max_skipna m0 (Some v) = Some M' /\
                           In M' (seen ++ [v]) /\
                           Forall (fun x => x <= M') (seen ++ [v])).
    { destruct m0 as [M|].
      - destruct Hm as [Hin Hle]. unfold max_skipna. cbn.
        unfold Exact.Rltb. destruct (Rlt_dec M v) as [L|L].
        + exists v. split; [reflexivity|]. split.
          * apply in_or_app. right. now left.
          * apply Forall_app. split; [|constructor; [lra | constructor]].
            eapply Forall_impl; [|exact Hle]. cbv beta. intros; lra.
        + exists M. split; [reflexivity|]. split.
          * apply in_or_app. now left.
          * apply Forall_app. split; [exact Hle|constructor; [lra | constructor]].
      - subst seen. exists v. split; [reflexivity|]. split.
        + now left.
        + constructor; [lra | constructor]. }
    destruct E as (M' & EM & Hin & Hle).
    destruct (IH (Some M') (seen ++ [v]) (conj Hin Hle))
      as (ms & Ems & Lms & Hms).
    exists (M' :: ms).
    split; [cbn [map cummax_from]; cbn [is_nan exact Exact.isnan];
            cbv zeta; rewrite EM, Ems; reflexivity|].
    split; [simpl; congruence|].
    intros [|t] M.
    + intros [= <-]. cbn [firstn]. split; assumption.
    + intros Ht. change (firstn (S (S t)) (v :: vs))
        with (v :: firstn (S t) vs).
      replace (seen ++ v :: firstn (S t) vs)
        with ((seen ++ [v]) ++ firstn (S t) vs)
        by (rewrite <- app_assoc; reflexivity).
      exact (Hms t M Ht).
Qed.

(** The smallest of defined values. *)
Lemma exact_min_from (ds : list R) :
  forall (m0 : option R) (seen : list R),
    match m0 with
    | None => seen = []
    | Some m => In m seen /\ Forall (fun x => m <= x) seen
    end ->
    seen ++ ds <> [] ->
    exists m, fold_left min_skipna (map Some ds) m0 = Some m /\
              In m (seen ++ ds) /\ Forall (fun x => m <= x) (seen ++ ds).
Proof.
  induction ds as [|x ds IH]; intros m0 seen Hm Hne.
  - rewrite app_nil_r in *. destruct m0 as [m|]; [|contradiction].
    exists m. split; [reflexivity | exact Hm].
  - assert (E : exists m', min_skipna m0 (Some x) = Some m' /\
                           In m' (seen ++ [x]) /\
                           Forall (fun y => m' <= y) (seen ++ [x])).
    { destruct m0 as [m|].
      - destruct Hm as [Hin Hle]. unfold min_skipna. cbn.
        unfold Exact.Rltb. destruct (Rlt_dec x m) as [L|L].
        + exists x. split; [reflexivity|]. split.
          * apply in_or_app. right. now left.
          * apply Forall_app. split; [|constructor; [lra | constructor]].
            eapply Forall_impl; [|exact Hle]. cbv beta. intros; lra.
        + exists m. split; [reflexivity|]. split.
          * apply in_or_app. now left.
          * apply Forall_app. split; [exact Hle|constructor; [lra | constructor]].
      - subst seen. exists x. split; [reflexivity|]. split.
        + now left.
        + constructor; [lra | constructor]. }
    destruct E as (m' & Em & Hin & Hle).
    cbn [map fold_left]. rewrite Em.
    replace (seen ++ x :: ds) with ((seen ++ [x]) ++ ds)
      by (rewrite <- app_assoc; reflexivity).
    apply (IH (Some m') (seen ++ [x]) (conj Hin Hle)).
    destruct seen; discriminate.
Qed.

(** The drawdown series of positive values against their running maxima. *)
Lemma exact_drawdown_series (vs ms : list R) :
  List.length ms = List.length vs ->
  Forall (fun M => M <> 0) ms ->
  map (fun q => (q - of_Z 1)%fl) (zip_with fdiv (map Some vs) (map Some ms))
  = map Some (map (fun p => fst p / snd p - 1) (combine vs ms)).
Proof.
  revert ms; induction vs as [|v vs IH]; intros [|M ms] L HM;
    try discriminate; [reflexivity|].
  injection L as L. inversion HM as [|? ? NM HM']; subst.
  cbn [map zip_with combine]. rewrite (IH ms L HM'). f_equal.
  cbn. unfold Exact.div.
  destruct (Req_dec_T M 0); [contradiction | reflexivity].
Qed.

Lemma nth_error_combine {A B : Type} (l : list A) (l' : list B) (t : nat)
    (p : A * B) :
  nth_error (combine l l') t = Some p ->
  nth_error l t = Some (fst p) /\ nth_error l' t = Some (snd p).
Proof.
  revert l l'; induction t as [|t IH]; intros [|a l] [|b l']; simpl;
    try discriminate.
  - now intros [= <-].
  - apply IH.
Qed.

End ExactDrawdown.

(** The drawdown of positive values is the worst relative decline between
    an earlier and a later bar. *)
Lemma exact_max_drawdown (vs : list R) :
  vs <> [] ->
  Forall (fun v => 0 < v)%R vs ->
  exists r,
    calculate_max_drawdown (map Some vs) = Some r /\
    (exists s t a b,
        (s <= t)%nat /\ nth_error vs s = Some a /\ nth_error vs t = Some b /\
        r = ((b / a - 1) * 100)%R) /\
    (forall s t a b,
        (s <= t)%nat -> nth_error vs s = Some a -> nth_error vs t = Some b ->
        (r <= (b / a - 1) * 100)%R) /\
    (-100 < r <= 0)%R.
Proof.
  intros Hne Hpos.
  destruct (exact_cummax_from vs None [] eq_refl) as (ms & Ems & Lms & Hms).
  cbn [app] in Hms.
  assert (Hv : forall t b, nth_error vs t = Some b -> (0 < b)%R).
  { intros t b Hb. rewrite Forall_forall in Hpos. apply Hpos.
    eapply nth_error_In; exact Hb. }
  (* every running maximum is one of the earlier values, and the largest *)
  assert (HM : forall t M, nth_error ms t = Some M ->
             (exists s, (s <= t)%nat /\ nth_error vs s = Some M) /\
             (forall s a, (s <= t)%nat -> nth_error vs s = Some a ->
                          (a <= M)%R)).
  { intros t M Ht. destruct (Hms t M Ht) as [Hin Hle]. split.
    - destruct (In_firstn_nth_error _ _ _ Hin) as (s & Ls & Hs).
      exists s. split; [lia | exact Hs].
    - intros s a Ls Ha. rewrite Forall_forall in Hle. apply Hle.
      apply (nth_error_In_firstn a s); [lia | exact Ha]. }
  assert (HM0 : Forall (fun M => M <> 0%R) ms).
  { apply Forall_forall. intros M Hin.
    destruct (In_nth_error _ _ Hin) as [t Ht].
    destruct (HM t M Ht) as [(s & _ & Hs) _].
    pose proof (Hv s M Hs). lra. }
  set (ds := map (fun p => (fst p / snd p - 1)%R) (combine vs ms)).
  assert (Hds : ds <> []).
  { unfold ds. destruct vs as [|v vs']; [contradiction|].
    destruct ms as [|M ms']; [discriminate | discriminate]. }
  destruct (exact_min_from ds None [] eq_refl Hds) as (m & Em & Hin & Hle).
  cbn [app] in Hin, Hle.
  assert (Hd : forall d, In d ds ->
             exists t b M, nth_error vs t = Some b /\
                           nth_error ms t = Some M /\ d = (b / M - 1)%R).
  { intros d Hd. unfold ds in Hd. apply in_map_iff in Hd.
    destruct Hd as ([b M] & <- & Hp).
    destruct (In_nth_error _ _ Hp) as [t Ht].
    destruct (nth_error_combine _ _ _ _ Ht) as [Hb HMt].
    exists t, b, M. auto. }
  assert (Hdt : forall t b M, nth_error vs t = Some b ->
               nth_error ms t = Some M -> In (b / M - 1)%R ds).
  { intros t b M Hb HMt. unfold ds. apply in_map_iff. exists (b, M).
    split; [reflexivity|].
    assert (Hc : nth_error (combine vs ms) t = Some (b, M)).
    { clear - Hb HMt. revert vs ms Hb HMt.
      induction t as [|t IH]; intros [|v vs] [|M' ms]; simpl;
        try discriminate.
      - now intros [= ->] [= ->].
      - apply IH. }
    eapply nth_error_In; exact Hc. }
  assert (Er : calculate_max_drawdown (map Some vs) = Some (m * 100)%R).
  { unfold calculate_max_drawdown, cummax, series_min. cbv zeta.
    change (@nan (option R) exact) with (@None R).
    rewrite Ems, (exact_drawdown_series vs ms Lms HM0). fold ds.
    rewrite Em. reflexivity. }
  assert (Hatt : exists s t a b,
             (s <= t)%nat /\ nth_error vs s = Some a /\
             nth_error vs t = Some b /\ (m * 100 = (b / a - 1) * 100)%R).
  { destruct (Hd m Hin) as (t & b & M & Hb & HMt & ->).
    destruct (HM t M HMt) as [(s & Ls & Hs) _].
    exists s, t, M, b. auto. }
  assert (Hlow : forall s t a b,
             (s <= t)%nat -> nth_error vs s = Some a ->
             nth_error vs t = Some b -> (m * 100 <= (b / a - 1) * 100)%R).
  { intros s t a b Ls Ha Hb.
    assert (Lt : (t < List.length ms)%nat).
    { rewrite Lms. apply nth_error_Some. congruence. }
    destruct (nth_error ms t) as [M|] eqn:HMt;
      [|apply nth_error_None in HMt; lia].
    destruct (HM t M HMt) as [_ Hmax].
    pose proof (Hmax s a Ls Ha) as LaM.
    pose proof (Hv s a Ha) as Pa. pose proof (Hv t b Hb) as Pb.
    rewrite Forall_forall in Hle.
    pose proof (Hle _ (Hdt t b M Hb HMt)) as Lm.
    assert (b / M <= b / a)%R.
    { unfold Rdiv. apply Rmult_le_compat_l; [lra|].
      apply Rinv_le_contravar; lra. }
    lra. }
  exists (m * 100)%R. split; [exact Er|]. split; [exact Hatt|].
  split; [exact Hlow|].
  destruct Hatt as (s & t & a & b & Ls & Ha & Hb & Eq). split.
  - pose proof (Hv s a Ha) as Pa. pose proof (Hv t b Hb) as Pb.
    assert (0 < b / a)%R by (apply Rdiv_lt_0_compat; lra). lra.
  - pose proof (Hlow t t b b (le_n t) Hb Hb) as L0.
    pose proof (Hv t b Hb) as Pb.
    replace (b / b)%R with 1%R in L0 by (field; lra). lra.
Qed.

(** X5.  On a non-empty series of positive portfolio values
    [calculate_max_drawdown] is 100 times the smallest value of
    [v_t / v_s - 1] over all pairs of bars [s <= t]: it is attained by such a
    pair and no pair goes lower; it is therefore at most 0 and above -100.
    On an empty series it is NaN. *)
Theorem max_drawdown_is_worst_decline (vs : list R) :
  vs <> [] ->
  Forall (fun v => 0 < v)%R vs ->
  exists r,
    calculate_max_drawdown (map Some vs) = Some r /\
    (exists s t a b,
        (s <= t)%nat /\ nth_error vs s = Some a /\ nth_error vs t = Some b /\
        r = ((b / a - 1) * 100)%R) /\
    (forall s t a b,
        (s <= t)%nat -> nth_error vs s = Some a -> nth_error vs t = Some b ->
        (r <= (b / a - 1) * 100)%R) /\
    (-100 < r <= 0)%R /\
    calculate_max_drawdown (@nil Exact.t) = None.
Proof.
  intros Hne Hpos.
  destruct (exact_max_drawdown vs Hne Hpos) as (r & E & Ha & Hl & Hb).
  exists r. repeat split; try assumption; apply Hb.
Qed.

Lemma max_drawdown_is_worst_decline_witness :
  exists r,
    calculate_max_drawdown (map Some [100; 120; 90; 110]%R) = Some r /\
    (-100 < r <= 0)%R.
Proof.
  destruct (max_drawdown_is_worst_decline [100; 120; 90; 110]%R)
    as (r & E & _ & _ & B & _).
  - discriminate.
  - repeat constructor; lra.
  - exists r. split; [exact E | exact B].
Defined.

(** ** [get_metrics] *)

Lemma rev_last {A : Type} (l : list A) (d : A) :
  l <> [] -> exists l', rev l = last l d :: l'.
Proof.
  intros N. destruct (exists_last N) as (l' & a & ->).
  exists (rev l'). now rewrite rev_app_distr, last_last.
Qed.

Lemma last_nth_error {A : Type} (l : list A) (d : A) :
  l <> [] -> nth_error l (List.length l - 1) = Some (last l d).
Proof.
  intros N. destruct (exists_last N) as (l' & a & ->).
  rewrite last_last, length_app. simpl.
  replace (List.length l' + 1 - 1)%nat with (List.length l' + 0)%nat by lia.
  now rewrite nth_error_app2, Nat.add_0_r, Nat.sub_diag by lia.
Qed.

(** X6.  [get_metrics] returns (0.0, 0.0, 0.0) for an empty frame and raises
    KeyError for a non-empty one without a Portfolio_Value column.  On a
    positive equity curve the return is (final / 100000 - 1) * 100, above
    -100, and the drawdown lies in (-100, 0]; when the curve starts at the
    100000 the function assumes, the return is at least the drawdown. *)
Theorem get_metrics_values :
  (forall (F : Type) (FF : Float F) (df : DataFrame F),
      (empty df = true -> get_metrics df = Ok (fzero, fzero, fzero)) /\
      (empty df = false -> lookup "Portfolio_Value" (columns df) = None ->
       get_metrics df = Raise (KeyError "Portfolio_Value"))) /\
  (forall (df : DataFrame Exact.t) (vs : list R),
      empty df = false ->
      col "Portfolio_Value" df = Ok (map Some vs) ->
      vs <> [] ->
      Forall (fun v => 0 < v)%R vs ->
      exists dd,
        let ret := ((last vs 0 - 100000) / 100000 * 100)%R in
        get_metrics df
        = Ok (Some ret, Some dd, calculate_sharpe_ratio (map Some vs)) /\
        (-100 < ret)%R /\ (-100 < dd <= 0)%R /\
        (nth_error vs 0 = Some 100000%R -> (dd <= ret)%R)).
Proof.
  split.
  - intros F FF df. split.
    + intros E. unfold get_metrics. now rewrite E.
    + intros E Hc. unfold get_metrics. rewrite E.
      now rewrite (col_missing _ _ Hc).
  - intros df vs E Hc Hne Hpos.
    destruct (exact_max_drawdown vs Hne Hpos) as (dd & Edd & _ & Hlow & Hb).
    exists dd. cbv zeta.
    assert (Hlast : nth_error vs (List.length vs - 1) = Some (last vs 0%R))
      by (apply last_nth_error; exact Hne).
    assert (Pl : (0 < last vs 0)%R).
    { rewrite Forall_forall in Hpos. apply Hpos.
      eapply nth_error_In; exact Hlast. }
    split; [|split; [lra|split; [exact Hb|]]].
    + unfold get_metrics. rewrite E, Hc. cbn [bind].
      unfold iloc_last. rewrite <- map_rev.
      destruct (rev_last vs 0%R Hne) as [l' ->].
      cbn [map bind]. rewrite Edd. do 3 f_equal.
      cbn. unfold Exact.div.
      destruct (Req_dec_T 100000 0) as [Z|_]; [lra | reflexivity].
    + intros H0.
      pose proof (Hlow 0%nat (List.length vs - 1)%nat _ _
                    (Nat.le_0_l _) H0 Hlast).
      lra.
Qed.

Lemma get_metrics_values_witness :
  exists dd,
    get_metrics {| index := [1; 2; 3];
                   columns :=
                     [("Portfolio_Value", map Some [100000; 90000; 99000]%R)]
                |}
    = Ok (Some ((99000 - 100000) / 100000 * 100)%R, Some dd,
          calculate_sharpe_ratio (map Some [100000; 90000; 99000]%R)) /\
    (dd <= (99000 - 100000) / 100000 * 100)%R.
Proof.
  destruct (proj2 get_metrics_values
              {| index := [1; 2; 3];
                 columns :=
                   [("Portfolio_Value", map Some [100000; 90000; 99000]%R)]
              |} [100000; 90000; 99000]%R)
    as (dd & E & _ & _ & Hr).
  - reflexivity.
  - reflexivity.
  - discriminate.
  - repeat (constructor; [lra|]). constructor.
  - exists dd. split; [exact E | apply Hr; reflexivity].
Defined.

(** ** The classical strategy ([ClassicalBollingerStrategy.run]) *)

Section ClassicalFacts.

Context {F : Type} `{Float F}.

Variable ic : F.

Lemma c_trade_cases (b : c_bar F) (a a' : c_account F) :
  c_trade b a = Ok a' ->
  a' = a \/
  (c_position a = 0 /\ (c_close b == fzero)%fl = false /\
   a' = {| c_cash := fzero; c_position := 1;
           c_shares := (c_cash a / c_close b)%fl |}) \/
  (c_position a = 1 /\
   a' = {| c_cash := (c_shares a * c_close b)%fl; c_position := 0;
           c_shares := fzero |}).
Proof.
  unfold c_trade.
  destruct ((c_position a =? 0) && (c_close b <= c_lower b)%fl) eqn:E1.
  - apply andb_prop in E1. destruct E1 as [P _]. apply Z.eqb_eq in P.
    intros E. apply bind_Ok_inv in E. destruct E as (sh & Hd & [= <-]).
    apply pydiv_Ok_inv in Hd. destruct Hd as [Hz ->]. right; left. auto.
  - destruct ((c_position a =? 1) && (c_close b >= c_upper b)%fl) eqn:E2.
    + apply andb_prop in E2. destruct E2 as [P _]. apply Z.eqb_eq in P.
      intros [= <-]. right; right. auto.
    + intros [= <-]. now left.
Qed.

Lemma c_trade_raises (b : c_bar F) (a : c_account F) (e : exn) :
  c_trade b a = Raise e ->
  e = ZeroDivisionError /\ (c_close b == fzero)%fl = true.
Proof.
  unfold c_trade.
  destruct ((c_position a =? 0) && (c_close b <= c_lower b)%fl).
  - destruct (pydiv (c_cash a) (c_close b)) as [sh|e'] eqn:Hd;
      [discriminate|].
    intros [= <-]. exact (pydiv_Raise_inv _ _ _ Hd).
  - destruct ((c_position a =? 1) && (c_close b >= c_upper b)%fl);
      discriminate.
Qed.

Lemma c_trade_succeeds (b : c_bar F) (a : c_account F) :
  (c_close b == fzero)%fl = false -> exists a', c_trade b a = Ok a'.
Proof.
  intros Hz. unfold c_trade.
  destruct ((c_position a =? 0) && (c_close b <= c_lower b)%fl).
  - rewrite (pydiv_Ok _ _ Hz). cbn. eauto.
  - destruct ((c_position a =? 1) && (c_close b >= c_upper b)%fl); eauto.
Qed.

Lemma c_trade_ok (b : c_bar F) (a a' : c_account F) :
  c_account_ok a -> c_trade b a = Ok a' -> c_account_ok a'.
Proof.
  intros Ha E. destruct (c_trade_cases b a a' E) as [->|[(_ & _ & ->)|(_ & ->)]].
  - exact Ha.
  - right. auto.
  - left. auto.
Qed.

Lemma c_loop_body_inv (b : c_bar F) (v v' : c_account F * list F) :
  c_loop_body b v = Ok v' ->
  exists a', c_trade b (fst v) = Ok a' /\
             v' = (a', snd v ++ [(c_cash a' + c_shares a' * c_close b)%fl]).
Proof.
  unfold c_loop_body. intros E. apply bind_Ok_inv in E.
  destruct E as (a' & Ht & [= <-]). eauto.
Qed.

Lemma c_simulate_ok (bars : list (c_bar F)) :
  forall v v', c_account_ok (fst v) -> c_simulate bars v = Ok v' ->
    c_account_ok (fst v') /\
    List.length (snd v') = (List.length (snd v) + List.length bars)%nat.
Proof.
  induction bars as [|b bars IH]; intros v v' Hv E.
  - injection E as <-. split; [exact Hv | simpl; lia].
  - cbn [c_simulate] in E. apply bind_Ok_inv in E.
    destruct E as (v1 & E1 & E2).
    destruct (c_loop_body_inv _ _ _ E1) as (a' & Ht & ->).
    destruct (IH (a', _) v' (c_trade_ok _ _ _ Hv Ht) E2) as [Hok Hl].
    split; [exact Hok|]. rewrite Hl. cbn [snd List.length].
    rewrite length_app. simpl. lia.
Qed.

Lemma c_simulate_raises (bars : list (c_bar F)) :
  forall v e, c_simulate bars v = Raise e ->
    e = ZeroDivisionError /\
    exists b, In b bars /\ (c_close b == fzero)%fl = true.
Proof.
  induction bars as [|b bars IH]; intros v e E; [discriminate|].
  cbn [c_simulate] in E.
  destruct (c_loop_body b v) as [v1|e1] eqn:E1; cbn [bind] in E.
  - destruct (IH _ _ E) as (-> & b' & Hin & Hz).
    split; [reflexivity|]. exists b'. split; [now right | exact Hz].
  - injection E as <-. unfold c_loop_body in E1.
    destruct (c_trade b (fst v)) as [a'|e'] eqn:Ht; [discriminate|].
    injection E1 as <-. destruct (c_trade_raises _ _ _ Ht) as [-> Hz].
    split; [reflexivity|]. exists b. split; [now left | exact Hz].
Qed.

Lemma c_simulate_succeeds (bars : list (c_bar F)) :
  Forall (fun b => (c_close b == fzero)%fl = false) bars ->
  forall v, exists v', c_simulate bars v = Ok v'.
Proof.
  induction 1 as [|b bars Hb _ IH]; intros v; [simpl; eauto|].
  cbn [c_simulate]. unfold c_loop_body.
  destruct (c_trade_succeeds b (fst v) Hb) as [a' ->]. cbn [bind].
  apply IH.
Qed.

(** The rows the classical loop reads from a frame that has the three
    columns. *)
Lemma c_bars_ok (names : list string) (n : nat) (df : DataFrame F)
    (closes : Series F) :
  frame_ok names n df ->
  incl ["Close"; "Upper_Track"; "Lower_Track"] names ->
  col "Close" df = Ok closes ->
  exists bars,
    c_bars df = Ok bars /\ List.length bars = n /\
    forall t b, nth_error bars t = Some b ->
                nth_error closes t = Some (c_close b).
Proof.
  intros Hf Hin Hc.
  assert (Hlen : len df = n) by apply Hf.
  assert (Hrow : forall i, (i < n)%nat ->
             exists b, c_read_bar df i = Ok b /\
                       nth_error closes i = Some (c_close b)).
  { intros i Li.
    destruct (cell_ok names n df "Close" i Hf) as (s & x & Hs & Hx & Ex);
      [apply Hin; simpl; auto | exact Li|].
    destruct (cell_ok names n df "Upper_Track" i Hf) as (? & u & _ & _ & Eu);
      [apply Hin; simpl; auto | exact Li|].
    destruct (cell_ok names n df "Lower_Track" i Hf) as (? & l & _ & _ & El);
      [apply Hin; simpl; auto | exact Li|].
    exists {| c_close := x; c_upper := u; c_lower := l |}.
    unfold c_read_bar. rewrite Ex, Eu, El. split; [reflexivity|].
    cbn. congruence. }
  destruct (traverse_ok (c_read_bar df) (seq 0 (len df))) as [bars Hb].
  { intros i Hi. apply in_seq in Hi. destruct (Hrow i) as (b & -> & _);
      [lia | eauto]. }
  exists bars. unfold c_bars. split; [exact Hb|]. split.
  - rewrite (traverse_length _ _ _ Hb), length_seq. exact Hlen.
  - intros t b Ht. destruct (traverse_nth _ _ _ _ _ Hb Ht) as (i & Hi & Hr).
    apply nth_error_seq in Hi. destruct Hi as [-> Lt].
    destruct (Hrow t) as (b' & Hr' & Hcl); [lia|]. congruence.
Qed.

End ClassicalFacts.

(** X7.  The classical loop holds either cash and no shares (flat) or shares
    and no cash (long), and never any other position: the start account is
    such, every trade that returns keeps it so, and so does every run of the
    loop, which records one value per bar. *)
Theorem classical_account_invariant {F : Type} `{Float F} (ic : F) :
  c_account_ok (c_start ic) /\
  (forall b a a', c_account_ok a -> c_trade b a = Ok a' -> c_account_ok a') /\
  (forall bars a vals,
      c_simulate bars (c_start ic, []) = Ok (a, vals) ->
      c_account_ok a /\ (c_position a = 0 \/ c_position a = 1) /\
      List.length vals = List.length bars).
Proof.
  assert (S0 : c_account_ok (c_start ic)) by (left; split; reflexivity).
  split; [exact S0|]. split; [apply c_trade_ok|].
  intros bars a vals E.
  destruct (c_simulate_ok bars (c_start ic, []) (a, vals) S0 E) as [Hok Hl].
  split; [exact Hok|]. split; [|exact Hl].
  destruct Hok as [[P _]|[P _]]; auto.
Qed.

Lemma classical_account_invariant_witness :
  c_account_ok
    {| c_cash := fzero; c_position := 1; c_shares := (100000 / 50)%float |}.
Proof.
  apply (proj1 (proj2 (classical_account_invariant 100000%float))
           {| c_close := 50%float; c_upper := 60%float; c_lower := 55%float |}
           (c_start 100000%float)).
  - left. split; reflexivity.
  - vm_compute. reflexivity.
Defined.

(** X8.  [ClassicalBollingerStrategy.run] on a well-formed frame: without a
    Close column it raises KeyError 'Close'; with one it either returns the
    frame with the same index, the columns it had apart from the five it
    writes, and a Portfolio_Value column with one value per row, or raises
    ZeroDivisionError, which needs a close equal to zero; when no close is
    zero it returns. *)
Theorem classical_run_outcome {F : Type} `{Float F} (ic : F) (d : nat)
    (k : F) (df : DataFrame F) :
  wf df ->
  (lookup "Close" (columns df) = None ->
   classical_run ic d k df = Raise (KeyError "Close")) /\
  (forall closes, col "Close" df = Ok closes ->
     ((exists out pv,
          classical_run ic d k df = Ok out /\
          index out = index df /\
          col "Portfolio_Value" out = Ok pv /\
          List.length pv = len df /\
          wf out /\
          (forall name,
              ~ In name ["MA"; "STD"; "Upper_Track"; "Lower_Track";
                         "Portfolio_Value"] ->
              col name out = col name df))
      \/
      (classical_run ic d k df = Raise ZeroDivisionError /\
       exists x, In x closes /\ (x == fzero)%fl = true)) /\
     (Forall (fun x => (x == fzero)%fl = false) closes ->
      exists out, classical_run ic d k df = Ok out)).
Proof.
  intros W. split.
  - intros E. unfold classical_run, calculate_bollinger_bands.
    now rewrite (col_missing _ _ E).
  - intros closes Hc.
    pose proof (wf_col _ _ _ W Hc) as Lc.
    pose proof (bollinger_result df d k closes Hc) as Eb. cbv zeta in Eb.
    set (ma := rolling_mean d closes) in *.
    set (sd := rolling_std d closes) in *.
    set (up := zip_with fadd ma (map (fmul k) sd)) in *.
    set (lo := zip_with fsub ma (map (fmul k) sd)) in *.
    set (df1 := assign "Lower_Track" lo (assign "Upper_Track" up
                  (assign "STD" sd (assign "MA" ma df)))) in *.
    assert (Lma : List.length ma = len df)
      by (unfold ma; rewrite length_rolling_mean; exact Lc).
    assert (Lsd : List.length sd = len df)
      by (unfold sd; rewrite length_rolling_std; exact Lc).
    assert (Lup : List.length up = len df)
      by (unfold up; rewrite length_zip_with;
          rewrite ?length_map; congruence).
    assert (Llo : List.length lo = len df)
      by (unfold lo; rewrite length_zip_with;
          rewrite ?length_map; congruence).
    assert (Hf : frame_ok ["Lower_Track"; "Upper_Track"; "STD"; "MA"; "Close"]
                   (len df) df1).
    { unfold df1. repeat apply frame_ok_assign; try assumption.
      split; [reflexivity|]. split; [exact W|].
      constructor; [eauto | constructor]. }
    assert (Hc1 : col "Close" df1 = Ok closes) by (unfold df1; cols; exact Hc).
    destruct (c_bars_ok _ _ df1 closes Hf) as (bars & Ebars & Lb & Hcl);
      [intros x [<-|[<-|[<-|[]]]]; simpl; auto 10 | exact Hc1|].
    assert (Hin : forall b, In b bars -> In (c_close b) closes).
    { intros b Hb. destruct (In_nth_error _ _ Hb) as [t Ht].
      eapply nth_error_In. exact (Hcl t b Ht). }
    assert (Erun : classical_run ic d k df
                   = bind (c_simulate bars (c_start ic, []))
                       (fun v => Ok (assign "Portfolio_Value" (snd v) df1))).
    { unfold classical_run. rewrite Eb. cbn [bind]. rewrite Ebars.
      reflexivity. }
    split.
    + destruct (c_simulate bars (c_start ic, [])) as [[a vals]|e] eqn:Es.
      * left. exists (assign "Portfolio_Value" vals df1), vals.
        rewrite Erun. cbn [bind snd].
        assert (Lv : List.length vals = len df).
        { assert (S0 : c_account_ok (fst (c_start ic, @nil F)))
            by (left; split; reflexivity).
          destruct (c_simulate_ok bars _ _ S0 Es) as [_ L].
          cbn in L. congruence. }
        split; [reflexivity|]. split; [reflexivity|].
        split; [cols; reflexivity|]. split; [exact Lv|]. split.
        -- apply wf_assign; [apply Hf | exact Lv].
        -- intros name Hn. simpl in Hn. unfold df1. rewrite !col_assign.
           repeat match goal with
                  | |- context [String.eqb ?a name] =>
                      destruct (String.eqb_spec a name); [exfalso; tauto|]
                  end.
           reflexivity.
      * right. rewrite Erun. cbn [bind].
        destruct (c_simulate_raises bars _ _ Es) as (-> & b & Hb & Hz).
        split; [reflexivity|]. exists (c_close b). split; [auto | exact Hz].
    + intros Hnz. rewrite Erun.
      destruct (c_simulate_succeeds bars) with (v := (c_start ic, @nil F))
        as [v' ->]; [|cbn; eauto].
      apply Forall_forall. intros b Hb. rewrite Forall_forall in Hnz.
      apply Hnz, Hin, Hb.
Qed.

Lemma classical_run_outcome_witness :
  exists out, classical_run 100000%float 20 3%float rising_prices = Ok out.
Proof.
  refine (proj2 (proj2 (classical_run_outcome 100000%float 20 3%float
                          rising_prices _) _ eq_refl) _).
  - repeat constructor.
  - vm_compute. repeat constructor.
Defined.

(** ** Trades and equity *)

(** X9.  In exact arithmetic a trade of the classical strategy changes no
    equity: the value recorded for a bar is the value the account held before
    the bar's trade, at the bar's close.  From one bar to the next the
    recorded value stays the same while the account is flat and moves with
    the close while it is long. *)
Theorem classical_equity_follows_price (x y c1 c2 : R) (p : Z)
    (b1 b2 : c_bar Exact.t) (a1 a2 : c_account Exact.t) :
  let a := {| c_cash := Some x; c_position := p; c_shares := Some y |} in
  c_account_ok a ->
  c_close b1 = Some c1 ->
  c_close b2 = Some c2 ->
  c_trade b1 a = Ok a1 ->
  c_trade b2 a1 = Ok a2 ->
  exists v1 v2 : R,
    c_value b1 a1 = Some v1 /\ c_value b2 a2 = Some v2 /\
    v1 = (x + y * c1)%R /\
    (c_position a1 = 0 -> v2 = v1) /\
    (c_position a1 = 1 -> c1 <> 0%R -> v2 = (v1 * (c2 / c1))%R).
Proof.
  intros a Hok H1 H2 T1 T2.
  assert (N : forall (b : c_bar Exact.t) (c u w : R) (q : Z)
                     (a' : c_account Exact.t),
             let a0 := {| c_cash := Some u; c_position := q;
                          c_shares := Some w |} in
             c_account_ok a0 -> c_close b = Some c ->
             c_trade b a0 = Ok a' ->
             exists u' w',
               c_cash a' = Some u' /\ c_shares a' = Some w' /\
               (u' + w' * c = u + w * c)%R /\
               (c_position a' = 1 -> c <> 0%R -> u' = 0%R) /\
               (c_position a' = 0 -> w' = 0%R) /\
               (c_position a' = 0 \/ c_position a' = 1)).
  { intros b c u w q a' a0 Ha Hc Ht.
    assert (Hq : (q = 0 /\ w = 0%R) \/ (q = 1 /\ u = 0%R)).
    { destruct Ha as [[P S]|[P S]]; cbn in P, S; [left|right];
        (split; [exact P | congruence]). }
    destruct (c_trade_cases b a0 a' Ht) as [->|[(P & Hz & ->)|(P & ->)]];
      cbn [c_cash c_shares c_position a0] in *.
    - exists u, w. repeat split; try reflexivity.
      + intros ->. destruct Hq as [[[=] _]|[_ ->]]; reflexivity.
      + intros ->. destruct Hq as [[_ ->]|[[=] _]]; reflexivity.
      + destruct Hq as [[-> _]|[-> _]]; auto.
    - rewrite Hc in *. cbn in Hz. unfold Exact.Reqb in Hz.
      destruct (Req_dec_T c 0) as [|Nc]; [discriminate|].
      exists 0%R, (u / c)%R. cbn. unfold Exact.div.
      destruct (Req_dec_T c 0); [contradiction|].
      repeat split; try reflexivity; auto.
      + destruct Hq as [[_ ->]|[-> _]]; [field; exact Nc | lia].
      + intros [=].
    - rewrite Hc. exists (w * c)%R, 0%R. cbn.
      repeat split; try reflexivity; auto.
      + destruct Hq as [[-> _]|[_ ->]]; [lia | lra].
      + intros [=]. }
  destruct (N b1 c1 x y p a1 Hok H1 T1)
    as (u1 & w1 & C1 & S1 & E1 & L1 & F1 & P1).
  assert (Hok1 : c_account_ok a1)
    by (exact (c_trade_ok b1 a a1 Hok T1)).
  destruct a1 as [ca1 p1 sa1]. cbn in C1, S1, L1, F1, P1. subst ca1 sa1.
  destruct (N b2 c2 u1 w1 p1 a2 Hok1 H2 T2)
    as (u2 & w2 & C2 & S2 & E2 & _ & _ & _).
  exists (u1 + w1 * c1)%R, (u2 + w2 * c2)%R.
  unfold c_value. rewrite C2, S2, H1, H2. cbn.
  split; [reflexivity|]. split; [reflexivity|]. split; [exact E1|].
  split.
  - intros ->. rewrite E2, (F1 eq_refl). lra.
  - intros -> Nc. rewrite E2, (L1 eq_refl Nc). field. exact Nc.
Qed.

Lemma classical_equity_follows_price_witness :
  exists v1 v2 : R,
    c_value {| c_close := Some 50%R; c_upper := Some 70%R;
               c_lower := Some 60%R |}
            {| c_cash := Some 0%R; c_position := 1;
               c_shares := Some (100000 / 50)%R |} = Some v1 /\
    c_value {| c_close := Some 65%R; c_upper := Some 70%R;
               c_lower := Some 60%R |}
            {| c_cash := Some 0%R; c_position := 1;
               c_shares := Some (100000 / 50)%R |} = Some v2 /\
    v1 = (100000 + 0 * 50)%R /\
    (1 = 0 -> v2 = v1) /\
    (1 = 1 -> 50%R <> 0%R -> v2 = (v1 * (65 / 50))%R).
Proof.
  apply (classical_equity_follows_price 100000 0 50 65 0
           {| c_close := Some 50%R; c_upper := Some 70%R;
              c_lower := Some 60%R |}
           {| c_close := Some 65%R; c_upper := Some 70%R;
              c_lower := Some 60%R |}
           {| c_cash := Some 0%R; c_position := 1;
              c_shares := Some (100000 / 50)%R |}
           {| c_cash := Some 0%R; c_position := 1;
              c_shares := Some (100000 / 50)%R |}).
  - left. split; reflexivity.
  - reflexivity.
  - reflexivity.
  - unfold c_trade. real_tests. reflexivity.
  - unfold c_trade. real_tests. reflexivity.
Defined.

(** X10.  In exact arithmetic every trade of the enhanced strategy but the
    opening of a short leaves the equity as it was: the value recorded for
    the bar is the value of the account held before the bar's trade, at the
    bar's close.  The opening of a short records [initial_capital]. *)
Theorem enhanced_trades_value_neutral (i x y c : R) (b : bar Exact.t)
    (a a' : account Exact.t) (cv : option Exact.t) :
  cash a = Some x -> shares a = Some y -> close b = Some c ->
  (position a = 0 \/ position a = 1 \/ position a = -1) ->
  trade (Some i) b a = Ok a' ->
  exists v : R,
    valuation b a' cv = Some (Some v) /\
    (position a' = 0 \/ position a' = 1 \/ position a' = -1) /\
    ((position a = 0 /\ position a' = -1 /\ v = i) \/
     (~ (position a = 0 /\ position a' = -1) /\
      valuation b a cv = Some (Some v))).
Proof.
  intros Hx Hy Hc Hp Ht.
  destruct a as [acash apos aentry ashares]. destruct b as [pw up lo tr cl].
  cbn in Hx, Hy, Hc, Hp. subst acash ashares cl.
  unfold trade in Ht. cbn [position cash shares close pred_wma upper lower
                            atr entry_price] in Ht.
  assert (D : forall u, pydiv (Some u) (Some c)
                        = if Req_dec_T c 0 then Raise ZeroDivisionError
                          else Ok (Some (u / c)%R)).
  { intros u. unfold pydiv. cbn. unfold Exact.Reqb, Exact.div.
    destruct (Req_dec_T c 0); reflexivity. }
  rewrite !D in Ht.
  destruct Hp as [-> | [-> | ->]]; cbn [Z.eqb andb] in Ht.
  - destruct (pw <= lo)%fl.
    + destruct (Req_dec_T c 0) as [|Nc]; [discriminate|].
      injection Ht as <-. exists x. unfold valuation. cbn.
      split; [do 2 f_equal; field; exact Nc|]. split; [auto|].
      right. split; [intros [_ [=]] | reflexivity].
    + destruct (pw >= up)%fl.
      * destruct (Req_dec_T c 0) as [|Nc]; [discriminate|].
        injection Ht as <-. exists i. unfold valuation. cbn.
        split; [do 2 f_equal; field; exact Nc|]. split; [auto|].
        left. auto.
      * injection Ht as <-. exists x. unfold valuation. cbn.
        split; [reflexivity|]. split; [auto|].
        right. split; [intros [_ [=]] | reflexivity].
  - destruct ((pw < aentry - of_Z 3 * tr)%fl || (pw > up)%fl);
      injection Ht as <-; exists (y * c)%R; unfold valuation; cbn;
      (split; [reflexivity|]); (split; [auto|]);
      right; (split; [intros [[=] _] | reflexivity]).
  - destruct ((pw > aentry + of_Z 3 * tr)%fl || (pw < lo)%fl);
      injection Ht as <-; exists (x - y * c)%R; unfold valuation; cbn;
      (split; [reflexivity|]); (split; [auto|]);
      right; (split; [intros [[=] _] | reflexivity]).
Qed.

Lemma enhanced_trades_value_neutral_witness :
  exists v : R,
    valuation
      {| pred_wma := Some 90%R; upper := Some 120%R; lower := Some 95%R;
         atr := Some 2%R; close := Some 100%R |}
      {| cash := Some 0%R; position := 1; entry_price := Some 100%R;
         shares := Some (100000 / 100)%R |} None = Some (Some v) /\
    valuation
      {| pred_wma := Some 90%R; upper := Some 120%R; lower := Some 95%R;
         atr := Some 2%R; close := Some 100%R |}
      {| cash := Some 100000%R; position := 0; entry_price := Some 0%R;
         shares := Some 0%R |} None = Some (Some v).
Proof.
  destruct (enhanced_trades_value_neutral 100000 100000 0 100
              {| pred_wma := Some 90%R; upper := Some 120%R;
                 lower := Some 95%R; atr := Some 2%R; close := Some 100%R |}
              {| cash := Some 100000%R; position := 0;
                 entry_price := Some 0%R; shares := Some 0%R |}
              {| cash := Some 0%R; position := 1; entry_price := Some 100%R;
                 shares := Some (100000 / 100)%R |} None)
    as (v & Hv & _ & [(_ & [=] & _)|(_ & Hb)]);
    try reflexivity.
  - left. reflexivity.
  - unfold trade. real_tests. reflexivity.
  - exists v. split; [exact Hv | exact Hb].
Defined.

(** ** The warm-up of the classical strategy *)

Lemma is_nan_Prim2SF (x : float) :
  PrimFloat.is_nan x = true <-> Prim2SF x = S754_nan.
Proof.
  unfold PrimFloat.is_nan. rewrite eqb_spec.
  destruct (Prim2SF x) as [s|s| |s m e]; unfold SFeqb, SFcompare.
  - destruct s; split; discriminate.
  - destruct s; split; discriminate.
  - split; reflexivity.
  - rewrite Z.compare_refl, Pos.compare_refl.
    destruct s; split; discriminate.
Qed.

Lemma binary64_nan_laws : nan_laws float.
Proof.
  split.
  - reflexivity.
  - intros x y Hx. apply is_nan_Prim2SF. apply is_nan_Prim2SF in Hx.
    cbn [fsub binary64]. rewrite sub_spec, Hx. reflexivity.
  - intros x y Hy. apply is_nan_Prim2SF in Hy.
    cbn [fleb binary64]. rewrite leb_spec, Hy.
    unfold SFleb, SFcompare.
    destruct (Prim2SF x) as [s|s| |s m e]; try reflexivity;
      destruct s; reflexivity.
Qed.

Lemma exact_nan_laws : nan_laws Exact.t.
Proof.
  split.
  - reflexivity.
  - intros [x|] y Hx; [discriminate | reflexivity].
  - intros [x|] [y|] Hy; try discriminate; reflexivity.
Qed.

Section WarmUp.

Context {F : Type} `{Float F}.

Lemma nth_error_zip_with (f : F -> F -> F) (a b : Series F) (t : nat)
    (z : F) :
  nth_error (zip_with f a b) t = Some z ->
  exists x y, nth_error a t = Some x /\ nth_error b t = Some y /\
              z = f x y.
Proof.
  revert a b; induction t as [|t IH]; intros [|x a] [|y b]; simpl;
    try discriminate.
  - intros [= <-]. eauto.
  - apply IH.
Qed.

Lemma cell_col (name : string) (i : nat) (df : DataFrame F) (s : Series F)
    (x : F) :
  col name df = Ok s -> cell name i df = Ok x -> nth_error s i = Some x.
Proof.
  unfold cell. intros ->. cbn [bind].
  destruct (nth_error s i); [now intros [= ->] | discriminate].
Qed.

Lemma c_bars_nth (df : DataFrame F) (bars : list (c_bar F)) (t : nat)
    (b : c_bar F) :
  c_bars df = Ok bars -> nth_error bars t = Some b ->
  cell "Close" t df = Ok (c_close b) /\
  cell "Upper_Track" t df = Ok (c_upper b) /\
  cell "Lower_Track" t df = Ok (c_lower b).
Proof.
  intros Hb Ht. destruct (traverse_nth _ _ _ _ _ Hb Ht) as (i & Hi & Hr).
  apply nth_error_seq in Hi. destruct Hi as [-> _].
  unfold c_read_bar in Hr.
  apply bind_Ok_inv in Hr. destruct Hr as (x & Hx & Hr).
  apply bind_Ok_inv in Hr. destruct Hr as (u & Hu & Hr).
  apply bind_Ok_inv in Hr. destruct Hr as (l & Hl & [= <-]).
  auto.
Qed.

Lemma c_simulate_prefix (bars : list (c_bar F)) :
  forall v v', c_simulate bars v = Ok v' ->
    exists more, snd v' = snd v ++ more.
Proof.
  induction bars as [|b bars IH]; intros v v' E.
  - injection E as <-. exists []. now rewrite app_nil_r.
  - cbn [c_simulate] in E. apply bind_Ok_inv in E.
    destruct E as (v1 & E1 & E2).
    destruct (c_loop_body_inv _ _ _ E1) as (a' & _ & ->).
    destruct (IH _ _ E2) as [more ->]. cbn [snd].
    rewrite <- app_assoc. eauto.
Qed.

(** While no bar offers an entry, a flat account is left as it is and
    valued at each bar. *)
Lemma c_simulate_idle (bars : list (c_bar F)) (m : nat) :
  forall v v',
    c_position (fst v) = 0 ->
    (forall t b, (t < m)%nat -> nth_error bars t = Some b ->
                 (c_close b <= c_lower b)%fl = false) ->
    c_simulate bars v = Ok v' ->
    forall t b, (t < m)%nat -> nth_error bars t = Some b ->
      nth_error (snd v') (List.length (snd v) + t)
      = Some (c_value b (fst v)).
Proof.
  revert m. induction bars as [|b0 bars IH]; intros m v v' Hp Hm E t b Lt Hb.
  - destruct t; discriminate.
  - cbn [c_simulate] in E. apply bind_Ok_inv in E.
    destruct E as (v1 & E1 & E2).
    destruct (c_loop_body_inv _ _ _ E1) as (a' & Ht & ->).
    assert (Ea : a' = fst v).
    { assert (L0 : (c_close b0 <= c_lower b0)%fl = false)
        by (apply (Hm 0%nat); [lia | reflexivity]).
      unfold c_trade in Ht. rewrite Hp, L0 in Ht. cbn in Ht. congruence. }
    subst a'. destruct t as [|t].
    + injection Hb as ->.
      destruct (c_simulate_prefix _ _ _ E2) as [more ->]. cbn [snd].
      rewrite Nat.add_0_r, <- app_assoc.
      rewrite nth_error_app2, Nat.sub_diag by lia. reflexivity.
    + destruct m as [|m]; [lia|].
      assert (G := IH m (fst v, snd v ++ [c_value b0 (fst v)]) v' Hp).
      cbn [fst snd] in G. rewrite length_app in G. cbn [List.length] in G.
      replace (List.length (snd v) + S t)%nat
        with (List.length (snd v) + 1 + t)%nat by lia.
      apply G.
      * intros t' b' Lt' Hb'. apply (Hm (S t')); [lia | exact Hb'].
      * exact E2.
      * lia.
      * exact Hb.
Qed.

End WarmUp.

(** X11.  During the first [d - 1] bars the classical strategy never trades:
    whenever [run] returns, the value it records for such a bar is
    [initial_capital + 0.0 * close], whatever the prices (the bands are
    missing there, and no comparison with a missing value holds). *)
Theorem classical_never_trades_in_warm_up {F : Type} `{Float F}
    (L : nan_laws F) (ic : F) (d : nat) (k : F) (df out : DataFrame F)
    (closes pv : Series F) :
  wf df ->
  col "Close" df = Ok closes ->
  classical_run ic d k df = Ok out ->
  col "Portfolio_Value" out = Ok pv ->
  forall t x, (t + 1 < d)%nat -> nth_error closes t = Some x ->
    nth_error pv t = Some (ic + fzero * x)%fl.
Proof.
  intros W Hc Er Hpv t x Lt Hx.
  pose proof (bollinger_result df d k closes Hc) as Eb. cbv zeta in Eb.
  set (ma := rolling_mean d closes) in *.
  set (sd := rolling_std d closes) in *.
  set (lo := zip_with fsub ma (map (fmul k) sd)) in *.
  set (df1 := assign "Lower_Track" lo _) in *.
  unfold classical_run in Er. rewrite Eb in Er. cbn [bind] in Er.
  apply bind_Ok_inv in Er. destruct Er as (bars & Ebars & Er).
  apply bind_Ok_inv in Er. destruct Er as ([a vals] & Es & [= <-]).
  rewrite col_assign_same in Hpv. injection Hpv as <-. cbn [snd].
  assert (Hc1 : col "Close" df1 = Ok closes) by (unfold df1; cols; exact Hc).
  assert (Hl1 : col "Lower_Track" df1 = Ok lo) by (unfold df1; cols; reflexivity).
  assert (Hidle : forall t' b, (t' < d - 1)%nat ->
             nth_error bars t' = Some b ->
             (c_close b <= c_lower b)%fl = false).
  { intros t' b Lt' Hb.
    destruct (c_bars_nth df1 bars t' b Ebars Hb) as (Cc & _ & Cl).
    pose proof (cell_col _ _ _ _ _ Hc1 Cc) as Nc.
    pose proof (cell_col _ _ _ _ _ Hl1 Cl) as Nl.
    destruct (nth_error_zip_with _ _ _ _ _ Nl) as (m & s & Nm & _ & El).
    assert (Ls : (t' < List.length closes)%nat)
      by (apply nth_error_Some; congruence).
    unfold ma in Nm.
    rewrite (rolling_mean_warm_up d closes t' Ls) in Nm by lia.
    injection Nm as <-.
    apply (leb_nan L). rewrite El. apply (sub_nan L), (nan_is_nan L). }
  assert (Lb : (t < List.length bars)%nat).
  { unfold c_bars in Ebars.
    rewrite (traverse_length _ _ _ Ebars), length_seq.
    change (len df1) with (len df). rewrite <- (wf_col _ _ _ W Hc).
    apply nth_error_Some. congruence. }
  destruct (nth_error bars t) as [b|] eqn:Hb;
    [|apply nth_error_None in Hb; lia].
  destruct (c_bars_nth df1 bars t b Ebars Hb) as (Cc & _ & _).
  pose proof (cell_col _ _ _ _ _ Hc1 Cc) as Nc.
  assert (Ex : c_close b = x) by congruence.
  pose proof (c_simulate_idle bars (d - 1) (c_start ic, []) (a, vals)
                eq_refl Hidle Es t b) as G.
  cbn [fst snd List.length Nat.add] in G. rewrite G by (lia || exact Hb).
  unfold c_value. cbn. now rewrite Ex.
Qed.

Lemma classical_never_trades_in_warm_up_witness :
  exists out pv,
    classical_run 100000%float 20 3%float rising_prices = Ok out /\
    col "Portfolio_Value" out = Ok pv /\
    nth_error pv 5 = Some (100000 + 0 * 105)%float.
Proof.
  eexists. eexists.
  split; [vm_compute; reflexivity|]. split; [vm_compute; reflexivity|].
  eapply (classical_never_trades_in_warm_up binary64_nan_laws
            100000%float 20 3%float rising_prices _
            (map (fun i => of_Z (Z.of_nat (100 + i))) (seq 0 25)) _).
  - repeat constructor.
  - reflexivity.
  - vm_compute. reflexivity.
  - vm_compute. reflexivity.
  - lia.
  - reflexivity.
Defined.

(** ** The split and the columns [EnhancedBollingerStrategy.run] needs *)

Lemma index_mask_filter {F : Type} (p : Z -> bool) (df : DataFrame F) :
  index (mask (map p (index df)) df) = filter p (index df).
Proof. unfold mask. cbn [index]. apply pick_map_filter. Qed.

(** X12.  The split of [run] puts every row in exactly one of the two sets,
    every training date before the cutoff and every evaluation date on or
    after it: each training row is dated strictly before each evaluation
    row, and the two sets together have the rows of the frame. *)
Theorem split_separates_train_and_test {F : Type} (dfp : DataFrame F)
    (split_date : Z) :
  let train := index (train_of split_date dfp) in
  let test := index (test_of split_date dfp) in
  (forall a b, In a train -> In b test -> a < split_date <= b) /\
  (forall t, In t (index dfp) <-> In t train \/ In t test) /\
  (forall t, ~ (In t train /\ In t test)) /\
  (List.length train + List.length test = len dfp)%nat.
Proof.
  cbv zeta. unfold train_of, test_of. rewrite !index_mask_filter.
  split; [|split; [|split]].
  - intros a b Ha Hb. apply filter_In in Ha, Hb.
    destruct Ha as [_ Ha], Hb as [_ Hb]. lia.
  - intros t. rewrite !filter_In. split.
    + intros Hin. destruct (Z.ltb_spec t split_date); [left | right];
        (split; [exact Hin | lia]).
    + tauto.
  - intros t [Ha Hb]. apply filter_In in Ha, Hb. lia.
  - unfold len. induction (index dfp) as [|t l IH]; [reflexivity|].
    cbn [filter]. destruct (Z.ltb_spec t split_date);
      destruct (Z.geb_spec t split_date); try lia; simpl; lia.
Qed.

Lemma split_separates_train_and_test_witness :
  (forall a b,
      In a (index (train_of 10 rising_prices)) ->
      In b (index (test_of 10 rising_prices)) -> a < 10 <= b) /\
  (List.length (index (train_of 10 rising_prices))
   + List.length (index (test_of 10 rising_prices)) = 25)%nat.
Proof.
  pose proof (split_separates_train_and_test rising_prices 10) as S.
  cbv zeta in S. split; [apply S|]. exact (proj2 (proj2 (proj2 S))).
Defined.

(** X13.  [run] on a frame that lacks one of the columns the indicators
    read raises KeyError for the first of Close, High and Low that is
    missing, before anything is fitted: the model is left as it was. *)
Theorem run_missing_price_column {F : Type} `{Float F} (ic : F)
    (model : Type) (fit : list (list F) -> Series F -> result model)
    (predict : model -> list F -> F) (self_model : option model)
    (df : DataFrame F) (split_date : Z) :
  (lookup "Close" (columns df) = None ->
   run ic fit predict self_model df split_date
   = (Raise (KeyError "Close"), self_model)) /\
  (lookup "Close" (columns df) <> None ->
   lookup "High" (columns df) = None ->
   run ic fit predict self_model df split_date
   = (Raise (KeyError "High"), self_model)) /\
  (lookup "Close" (columns df) <> None ->
   lookup "High" (columns df) <> None ->
   lookup "Low" (columns df) = None ->
   run ic fit predict self_model df split_date
   = (Raise (KeyError "Low"), self_model)).
Proof.
  assert (P : forall e,
             prepare_features df = Raise e ->
             run ic fit predict self_model df split_date
             = (Raise e, self_model)).
  { intros e E. unfold run. now rewrite E. }
  assert (C : forall name, lookup name (columns df) <> None ->
                           exists s, col name df = Ok s).
  { intros name N. unfold col.
    destruct (lookup name (columns df)); [eauto | contradiction]. }
  split; [|split].
  - intros E. apply P. unfold prepare_features.
    now rewrite (col_missing _ _ E).
  - intros Nc E. destruct (C _ Nc) as [c Hc]. apply P.
    unfold prepare_features. rewrite Hc. cbn [bind].
    rewrite (bollinger_result _ 20 (of_Z 3) c) by (cols; exact Hc).
    cbv zeta. cbn [bind]. unfold calculate_atr. cols.
    now rewrite (col_missing _ _ E).
  - intros Nc Nh E. destruct (C _ Nc) as [c Hc]. destruct (C _ Nh) as [h Hh].
    apply P.
    unfold prepare_features. rewrite Hc. cbn [bind].
    rewrite (bollinger_result _ 20 (of_Z 3) c) by (cols; exact Hc).
    cbv zeta. cbn [bind]. unfold calculate_atr. cols. rewrite Hh.
    cbn [bind]. now rewrite (col_missing _ _ E).
Qed.

Lemma run_missing_price_column_witness :
  run 100000%float fit_unit no_trend None
      {| index := [1; 2]; columns := [("Close", [100; 110]%float)] |} 2
  = (Raise (KeyError "High"), None).
Proof.
  apply (proj1 (proj2 (run_missing_price_column 100000%float unit fit_unit
                         no_trend None
                         {| index := [1; 2];
                            columns := [("Close", [100; 110]%float)] |} 2))).
  - discriminate.
  - reflexivity.
Defined.

(** ** [data.py] *)

Lemma chars_remove_char (c : Ascii.ascii) (s : string) :
  chars (remove_char c s) = filter (fun a => negb (Ascii.eqb a c)) (chars s).
Proof.
  induction s as [|a s IH]; [reflexivity|]. cbn [remove_char chars filter].
  destruct (Ascii.eqb a c); cbn [negb chars]; now rewrite IH.
Qed.

Lemma chars_subst_char (c d : Ascii.ascii) (s : string) :
  chars (subst_char c d s)
  = map (fun a => if Ascii.eqb a c then d else a) (chars s).
Proof.
  induction s as [|a s IH]; [reflexivity|]. cbn [subst_char chars map].
  now rewrite IH.
Qed.

Lemma remove_char_absent (c : Ascii.ascii) (s : string) :
  ~ In c (chars s) -> remove_char c s = s.
Proof.
  induction s as [|a s IH]; [reflexivity|]. cbn [chars In remove_char].
  intros N. destruct (Ascii.eqb_spec a c) as [->|_]; [tauto|].
  rewrite IH by tauto. reflexivity.
Qed.

Lemma subst_char_absent (c d : Ascii.ascii) (s : string) :
  ~ In c (chars s) -> subst_char c d s = s.
Proof.
  induction s as [|a s IH]; [reflexivity|]. cbn [chars In subst_char].
  intros N. destruct (Ascii.eqb_spec a c) as [->|_]; [tauto|].
  rewrite IH by tauto. reflexivity.
Qed.

Lemma safe_ticker_chars (t : string) :
  ~ In "^"%char (chars (safe_ticker t)) /\
  ~ In "."%char (chars (safe_ticker t)).
Proof.
  unfold safe_ticker. rewrite chars_subst_char, chars_remove_char.
  split; intros Hin; apply in_map_iff in Hin; destruct Hin as (a & Ea & Ha);
    apply filter_In in Ha; destruct Ha as [_ Ha].
  - revert Ea Ha.
    destruct (Ascii.eqb_spec a "."%char) as [->|_]; [discriminate|].
    intros ->. discriminate.
  - revert Ea Ha.
    destruct (Ascii.eqb_spec a "."%char) as [->|N]; [discriminate|].
    intros E. contradiction.
Qed.

(** X14.  The name under which [get_stock_data] caches a ticker contains
    neither '^' nor '.'; tickers without those characters keep their name;
    renaming a name again changes nothing; and the renaming merges tickers:
    a leading '^' is dropped and a '.' reads as '_', so that '^GSPC' and
    'GSPC', or 'BRK.B' and 'BRK_B', share one cache file. *)
Theorem safe_ticker_names (t : string) :
  (~ In "^"%char (chars (safe_ticker t)) /\
   ~ In "."%char (chars (safe_ticker t))) /\
  (~ In "^"%char (chars t) -> ~ In "."%char (chars t) -> safe_ticker t = t) /\
  safe_ticker (safe_ticker t) = safe_ticker t /\
  cache_file (String "^"%char t) = cache_file t /\
  cache_file (subst_char "."%char "_"%char t) = cache_file t.
Proof.
  assert (K : forall u, ~ In "^"%char (chars u) -> ~ In "."%char (chars u) ->
                        safe_ticker u = u).
  { intros u N1 N2. unfold safe_ticker.
    rewrite (remove_char_absent _ _ N1). now apply subst_char_absent. }
  split; [apply safe_ticker_chars|]. split; [apply K|]. split.
  - apply K; apply safe_ticker_chars.
  - split; [reflexivity|]. unfold cache_file, safe_ticker. f_equal.
    induction t as [|a t IH]; [reflexivity|].
    cbn [subst_char remove_char].
    destruct (Ascii.eqb_spec a "."%char) as [->|N].
    + cbn. now rewrite IH.
    + destruct (Ascii.eqb_spec a "^"%char) as [->|N2]; [exact IH|].
      cbn [subst_char]. destruct (Ascii.eqb_spec a "."%char); [contradiction|].
      now rewrite IH.
Qed.

Lemma safe_ticker_names_witness :
  safe_ticker "2888.HK" = "2888_HK" /\ safe_ticker "AAPL" = "AAPL".
Proof.
  split; [reflexivity|].
  apply (proj1 (proj2 (safe_ticker_names "AAPL"))).
  - cbn. intros [E|[E|[E|[E|[]]]]]; discriminate.
  - cbn. intros [E|[E|[E|[E|[]]]]]; discriminate.
Defined.

Section DataFacts.

Context {csv : Type}.

Lemma find_write_same (name : string) (c : csv) (fs : list (string * csv)) :
  find_file name (write_file name c fs) = Some c.
Proof.
  induction fs as [|[n c'] fs IH]; cbn [write_file find_file].
  - now rewrite String.eqb_refl.
  - destruct (String.eqb n name) eqn:E; cbn [find_file]; rewrite E;
      [reflexivity | exact IH].
Qed.

Lemma find_write_other (name other : string) (c : csv)
    (fs : list (string * csv)) :
  other <> name ->
  find_file other (write_file name c fs) = find_file other fs.
Proof.
  intros N. induction fs as [|[n c'] fs IH]; cbn [write_file find_file].
  - destruct (String.eqb_spec name other); [congruence | reflexivity].
  - destruct (String.eqb_spec n name) as [->|Nn]; cbn [find_file].
    + destruct (String.eqb_spec name other); [congruence | reflexivity].
    + destruct (String.eqb n other); [reflexivity | exact IH].
Qed.

End DataFacts.

(** X15.  [get_stock_data] with an empty cache entry downloads: an empty
    download raises ValueError and caches nothing; a non-empty one is
    returned as downloaded and stored under the ticker's cache name.  From
    then on every call whose ticker has that cache name, for any dates,
    returns the stored frame as read back and cut to its own dates, without
    downloading and without touching the files.  Every call leaves the data
    directory in place, prints one line and changes no other file. *)
Theorem get_stock_data_caches {F : Type} `{Float F} (csv : Type)
    (to_csv : DataFrame F -> csv) (read_csv : csv -> result (DataFrame F))
    (download : string -> Z -> Z -> result (DataFrame F))
    (ticker : string) (start_date end_date : Z) (w : world csv) :
  let r := get_stock_data to_csv read_csv download ticker start_date end_date
             w in
  (data_dir (snd r) = true /\
   (exists line, stdout (snd r) = stdout w ++ [line]) /\
   (forall other, other <> cache_file ticker ->
                  find_file other (files (snd r)) = find_file other (files w)))
  /\
  (find_file (cache_file ticker) (files w) = None ->
   forall df, download ticker start_date end_date = Ok df ->
     (empty df = true ->
      fst r = Raise (ValueError ("No data found for " ++ ticker)) /\
      files (snd r) = files w) /\
     (empty df = false ->
      fst r = Ok df /\
      find_file (cache_file ticker) (files (snd r)) = Some (to_csv df) /\
      forall download' ticker' s' e',
        cache_file ticker' = cache_file ticker ->
        let r' := get_stock_data to_csv read_csv download' ticker' s' e'
                    (snd r) in
        fst r' = (d <- read_csv (to_csv df);; Ok (between s' e' d)) /\
        files (snd r') = files (snd r))).
Proof.
  cbv zeta. unfold get_stock_data.
  assert (Ef : files (ensure_data_dir w) = files w)
    by (unfold ensure_data_dir; destruct (data_dir w); reflexivity).
  assert (Ed : data_dir (ensure_data_dir w) = true)
    by (unfold ensure_data_dir; destruct (data_dir w) eqn:E; cbn; auto).
  assert (Es : stdout (ensure_data_dir w) = stdout w)
    by (unfold ensure_data_dir; destruct (data_dir w); reflexivity).
  rewrite Ef. split.
  - destruct (find_file (cache_file ticker) (files w)) as [text|].
    + destruct (read_csv text); cbn; rewrite Ed, Es, Ef; eauto.
    + destruct (download ticker start_date end_date) as [df|e];
        [destruct (empty df)|]; cbn; rewrite ?Ed, ?Es, ?Ef;
        (split; [reflexivity|]); (split; [eauto|]); try reflexivity.
      intros other N. now apply find_write_other.
  - intros Hmiss df Hd. rewrite Hmiss, Hd. split.
    + intros ->. cbn. auto.
    + intros ->. cbn [fst snd files data_dir stdout print].
      rewrite Ef. split; [reflexivity|].
      split; [apply find_write_same|].
      intros download' ticker' s' e' ->.
      assert (Ef' : forall w' : world csv,
                 files (ensure_data_dir w') = files w')
        by (intros w'; unfold ensure_data_dir; destruct (data_dir w');
            reflexivity).
      rewrite Ef'. cbn [files]. rewrite find_write_same.
      destruct (read_csv (to_csv df)); cbn; rewrite Ef'; auto.
Qed.

Lemma get_stock_data_caches_witness :
  let w := {| data_dir := false; files := @nil (string * DataFrame float);
              stdout := [] |} in
  let r := get_stock_data (fun df => df) Ok (fun _ _ _ => Ok flat_prices)
             "^GSPC" 5 9 w in
  fst r = Ok flat_prices /\
  fst (get_stock_data (fun df => df) Ok
         (fun _ _ _ => Raise (ValueError "offline")) "GSPC" 5 9 (snd r))
  = Ok (between 5 9 flat_prices).
Proof.
  cbv zeta.
  destruct (proj2 (get_stock_data_caches (DataFrame float) (fun df => df) Ok
                     (fun _ _ _ => Ok flat_prices) "^GSPC" 5 9
                     {| data_dir := false; files := []; stdout := [] |})
              eq_refl flat_prices eq_refl) as [_ Hc].
  destruct (Hc eq_refl) as (E1 & _ & E2).
  split; [exact E1|].
  exact (proj1 (E2 (fun _ _ _ => Raise (ValueError "offline")) "GSPC" 5 9
                  eq_refl)).
Defined.

(** ** The rows [prepare_features] keeps *)

(** The columns of the frame [prepare_features] builds from a price frame,
    in their order. *)
Lemma featured_columns {F : Type} `{Float F} (dates : list Z)
    (o h l c v : Series F) :
  columns (featured (price_frame dates o h l c v) c h l)
  = let wma := calculate_wma_3 c in
    let ma := rolling_mean 20 c in
    let sd := rolling_std 20 c in
    [("Open", o); ("High", h); ("Low", l); ("Close", c); ("Volume", v);
     ("WMA_3", wma); ("MA", ma); ("STD", sd);
     ("Upper_Track", zip_with fadd ma (map (fmul (of_Z 3)) sd));
     ("Lower_Track", zip_with fsub ma (map (fmul (of_Z 3)) sd));
     ("ATR", rolling_mean 20 (true_range h l c));
     ("WMA_3_lag_0", shift 0 wma); ("WMA_3_lag_1", shift 1 wma);
     ("WMA_3_lag_2", shift 2 wma); ("WMA_3_lag_3", shift 3 wma);
     ("WMA_3_lag_4", shift 4 wma); ("WMA_3_lag_5", shift 5 wma);
     ("Target_Diff", zip_with fsub (shift (-1) wma) wma)].
Proof. reflexivity. Qed.

Lemma pick_interval {A : Type} (a b : nat) (l : list A) :
  forall s,
    pick (map (fun t => (a <=? t)%nat && (t <? b)%nat)
              (seq s (List.length l))) l
    = firstn (b - Nat.max a s) (skipn (a - s) l).
Proof.
  induction l as [|x l IH]; intros s.
  - cbn. now rewrite skipn_nil, firstn_nil.
  - cbn [List.length seq map pick]. rewrite IH.
    destruct (Nat.leb_spec a s) as [La|La];
      destruct (Nat.ltb_spec s b) as [Lb|Lb]; cbn [andb].
    + replace (a - s)%nat with 0%nat by lia.
      replace (a - S s)%nat with 0%nat by lia. cbn [skipn].
      replace (b - Nat.max a s)%nat with (S (b - Nat.max a (S s))) by lia.
      reflexivity.
    + replace (b - Nat.max a (S s))%nat with 0%nat by lia.
      replace (b - Nat.max a s)%nat with 0%nat by lia. reflexivity.
    + replace (a - s)%nat with (S (a - S s)) by lia. cbn [skipn].
      replace (Nat.max a (S s)) with (Nat.max a s) by lia. reflexivity.
    + replace (a - s)%nat with (S (a - S s)) by lia. cbn [skipn].
      replace (Nat.max a (S s)) with (Nat.max a s) by lia. reflexivity.
Qed.

Section ExactPresence.

Lemma present_map_Some (xs : list R) (t : nat) :
  present (map Some xs) t = (t <? List.length xs)%nat.
Proof.
  unfold present. revert t; induction xs as [|x xs IH]; intros [|t];
    try reflexivity.
  cbn [map nth List.length]. rewrite IH. reflexivity.
Qed.

Lemma present_overflow (s : Series Exact.t) (t : nat) :
  (List.length s <= t)%nat -> present s t = false.
Proof. intros L. unfold present. now rewrite nth_overflow. Qed.

Lemma present_rolling (w : nat) (f : Series Exact.t -> Exact.t)
    (xs : list R) (t : nat) :
  (forall ws, List.length ws = w -> exists r, f (map Some ws) = Some r) ->
  present (rolling w f (map Some xs)) t
  = ((w <=? t + 1)%nat && (t <? List.length xs)%nat).
Proof.
  intros Hf.
  destruct (Nat.ltb_spec t (List.length xs)) as [Lt|Lt].
  - assert (Ls : (t < List.length (map Some xs))%nat)
      by now rewrite length_map.
    unfold present.
    rewrite (nth_error_nth _ _ _ (rolling_nth w f (map Some xs) t Ls)).
    destruct (Nat.ltb_spec (t + 1) w) as [L|L];
      destruct (Nat.leb_spec w (t + 1)); try lia; [reflexivity|].
    unfold window. rewrite window_map, exact_not_missing.
    destruct (Hf (firstn w (skipn (t + 1 - w) xs))) as [r ->];
      [apply length_window; lia | reflexivity].
  - rewrite andb_false_r. apply present_overflow.
    now rewrite length_rolling, length_map.
Qed.

Lemma present_shift_down (k : nat) (s : Series Exact.t) (t : nat) :
  present (shift (Z.of_nat k) s) t
  = ((k <=? t)%nat && (t <? List.length s)%nat && present s (t - k)).
Proof.
  unfold shift. destruct (Z.leb_spec 0 (Z.of_nat k)) as [_|]; [|lia].
  rewrite Nat2Z.id.
  destruct (Nat.ltb_spec t (List.length s)) as [Lt|Lt].
  - unfold present at 1. rewrite nth_firstn.
    destruct (Nat.ltb_spec t (List.length s)) as [_|]; [|lia].
    destruct (Nat.leb_spec k t) as [Lk|Lk]; cbn [andb].
    + rewrite app_nth2 by (rewrite repeat_length; lia).
      rewrite repeat_length. reflexivity.
    + rewrite app_nth1 by (rewrite repeat_length; lia).
      now rewrite nth_repeat.
  - rewrite andb_false_r. apply present_overflow.
    rewrite length_firstn, length_app, repeat_length. lia.
Qed.

Lemma present_shift_up (s : Series Exact.t) (t : nat) :
  present (shift (-1) s) t = present s (S t).
Proof.
  unfold shift. cbn [Z.leb Z.compare Z.opp Z.to_nat Pos.to_nat
                       Pos.iter_op Nat.add].
  unfold present.
  destruct (Nat.ltb_spec t (List.length (skipn 1 s))) as [Lt|Lt].
  - rewrite app_nth1 by exact Lt. rewrite nth_skipn. reflexivity.
  - rewrite app_nth2 by exact Lt.
    rewrite length_skipn in Lt.
    rewrite (nth_overflow s) by lia.
    now rewrite nth_repeat.
Qed.

Lemma present_zip_with (f : Exact.t -> Exact.t -> Exact.t)
    (a b : Series Exact.t) (t : nat) :
  (forall x y, Exact.isnan (f x y) = Exact.isnan x || Exact.isnan y) ->
  present (zip_with f a b) t = present a t && present b t.
Proof.
  intros Hf. unfold present. cbn [is_nan exact nan].
  revert a b; induction t as [|t IH]; intros [|x a] [|y b];
    cbn [zip_with nth];
    first [ apply IH
          | rewrite Hf, negb_orb; reflexivity
          | cbn; rewrite ?andb_false_r; reflexivity ].
Qed.

Lemma present_scale (k : R) (s : Series Exact.t) (t : nat) :
  present (map (fmul (Some k)) s) t = present s t.
Proof.
  unfold present. cbn [is_nan exact nan].
  change (@None R) with (fmul (Some k) (@None R)) at 1.
  rewrite map_nth. now destruct (nth t s None).
Qed.

End ExactPresence.

(** X16.  On price data without missing values [prepare_features] drops the
    first 19 bars and the last one and keeps every bar between them: of [n]
    bars it returns [n - 20] rows, so that a series of 20 bars or fewer
    leaves nothing to train or trade on. *)
Theorem prepare_features_row_count (dates : list Z)
    (os hs ls cs vs : list R) (n : nat) :
  List.length dates = n -> List.length os = n -> List.length hs = n ->
  List.length ls = n -> List.length cs = n -> List.length vs = n ->
  let df : DataFrame Exact.t :=
    price_frame dates (map Some os) (map Some hs) (map Some ls)
                (map Some cs) (map Some vs) in
  exists dfp,
    prepare_features df = Ok (dfp, feature_names) /\
    index dfp = firstn (n - 20) (skipn 19 dates) /\
    len dfp = (n - 20)%nat.
Proof.
  intros Ld Lo Lh Ll Lc Lv df.
  set (c := map Some cs). set (h := map Some hs). set (l := map Some ls).
  exists (dropna (featured df c h l)).
  split; [apply prepare_features_featured; reflexivity|].
  assert (Hmean : forall ws : list R, List.length ws = 20%nat ->
                    exists r, mean (map Some ws) = Some r).
  { intros ws Lw. rewrite exact_mean; [eauto|].
    intros ->. discriminate. }
  assert (Hstd : forall ws : list R, List.length ws = 20%nat ->
                   exists r, std (map Some ws) = Some r).
  { intros ws Lw. destruct (exact_std ws) as [_ ->]; [lia | eauto]. }
  assert (Hwma : forall ws : list R, List.length ws = 3%nat ->
            exists r,
              (fsum (zip_with fmul (map of_Z weights) (map Some ws))
               / of_Z sum_weights)%fl = Some r).
  { intros [|a [|b [|x [|]]]]; try discriminate. intros _.
    rewrite exact_wma_window. eauto. }
  destruct (exact_true_range hs ls cs) as (trs & Etr & Ltr);
    [congruence | congruence|].
  assert (Hc : forall t,
             complete (featured df c h l) t
             = ((19 <=? t)%nat && (t <? n - 1)%nat)).
  { intros t. unfold complete, df. rewrite featured_columns. cbv zeta.
    cbn [forallb snd]. fold (present (F := Exact.t)).
    repeat match goal with
           | |- context [negb (is_nan (nth ?t ?s nan))] =>
               change (negb (is_nan (nth t s nan))) with (present s t)
           end.
    unfold h, l, c. rewrite Etr.
    rewrite !exact_rolling_mean, !exact_rolling_std.
    change (shift 0) with (shift (F := Exact.t) (Z.of_nat 0)).
    change (shift 1) with (shift (F := Exact.t) (Z.of_nat 1)).
    change (shift 2) with (shift (F := Exact.t) (Z.of_nat 2)).
    change (shift 3) with (shift (F := Exact.t) (Z.of_nat 3)).
    change (shift 4) with (shift (F := Exact.t) (Z.of_nat 4)).
    change (shift 5) with (shift (F := Exact.t) (Z.of_nat 5)).
    rewrite !present_zip_with by (intros [?|] [?|]; reflexivity).
    rewrite !present_shift_down, !present_shift_up.
    change (@of_Z (option R) exact 3) with (Some 3%R).
    rewrite !present_scale.
    unfold calculate_wma_3. rewrite !length_rolling.
    rewrite !present_rolling by assumption.
    rewrite !present_map_Some, !length_map.
    rewrite Lo, Lh, Ll, Lc, Lv, Ltr, Lc.
    apply eq_true_iff_eq.
    rewrite !andb_true_iff, !Nat.leb_le, !Nat.ltb_lt. lia. }
  assert (Ei : index (dropna (featured df c h l))
               = firstn (n - 20) (skipn 19 dates)).
  { unfold dropna, mask. cbn [index].
    change (len (featured df c h l)) with (List.length dates).
    change (index (featured df c h l)) with dates.
    rewrite (map_ext _ _ Hc), (pick_interval 19 (n - 1) dates 0).
    f_equal. lia. }
  split; [exact Ei|]. unfold len. rewrite Ei.
  rewrite length_firstn, length_skipn. lia.
Qed.

Lemma prepare_features_row_count_witness :
  exists dfp,
    prepare_features
      (price_frame (map Z.of_nat (seq 0 21))
                   (map Some (repeat 10%R 21)) (map Some (repeat 11%R 21))
                   (map Some (repeat 9%R 21)) (map Some (repeat 10%R 21))
                   (map Some (repeat 1000%R 21)))
    = Ok (dfp, feature_names) /\
    index dfp = [19] /\ len dfp = 1%nat.
Proof.
  exact (prepare_features_row_count (map Z.of_nat (seq 0 21))
           (repeat 10%R 21) (repeat 11%R 21) (repeat 9%R 21)
           (repeat 10%R 21) (repeat 1000%R 21) 21
           eq_refl eq_refl eq_refl eq_refl eq_refl eq_refl).
Defined.

(** ** The true range and the sign of ATR *)

Section TrueRangeRows.

Context {F : Type} `{Float F}.

Lemma zip_with_nth (f : F -> F -> F) (a b : Series F) (t : nat) (x y : F) :
  nth_error a t = Some x -> nth_error b t = Some y ->
  nth_error (zip_with f a b) t = Some (f x y).
Proof.
  revert a b; induction t as [|t IH]; intros [|x' a] [|y' b]; simpl;
    try discriminate.
  - now intros [= ->] [= ->].
  - apply IH.
Qed.

Lemma max3_nth (a b c : Series F) (t : nat) (x y z : F) :
  nth_error a t = Some x -> nth_error b t = Some y ->
  nth_error c t = Some z ->
  nth_error (max3 a b c) t = Some (row_max [x; y; z]).
Proof.
  revert a b c; induction t as [|t IH]; intros [|x' a] [|y' b] [|z' c];
    cbn [nth_error max3]; try discriminate.
  - now intros [= ->] [= ->] [= ->].
  - apply IH.
Qed.

Lemma shift_1_nth (s : Series F) (t : nat) (p : F) :
  nth_error s t = Some p -> (S t < List.length s)%nat ->
  nth_error (shift 1 s) (S t) = Some p.
Proof.
  intros Hp Lt. unfold shift. cbn [Z.leb Z.compare Z.to_nat Pos.to_nat
                                    Pos.iter_op Nat.add repeat app].
  rewrite nth_error_firstn.
  destruct (Nat.ltb_spec (S t) (List.length s)); [exact Hp | lia].
Qed.

(** After the first bar the true range of a bar is the largest of
    high - low, |high - previous close| and |low - previous close|. *)
Lemma true_range_nth (high low close : Series F) (t : nat) (h l p : F) :
  nth_error high (S t) = Some h -> nth_error low (S t) = Some l ->
  nth_error close t = Some p -> (S t < List.length close)%nat ->
  nth_error (true_range high low close) (S t)
  = Some (row_max [(h - l)%fl; fabs (h - p)%fl; fabs (l - p)%fl]).
Proof.
  intros Hh Hl Hp Lt. unfold true_range.
  pose proof (shift_1_nth close t p Hp Lt) as Hs.
  apply max3_nth.
  - now apply zip_with_nth.
  - rewrite nth_error_map, (zip_with_nth _ _ _ _ _ _ Hh Hs). reflexivity.
  - rewrite nth_error_map, (zip_with_nth _ _ _ _ _ _ Hl Hs). reflexivity.
Qed.

End TrueRangeRows.

Lemma exact_row_max_3 (a b c : R) :
  row_max [Some a; Some b; Some c] = Some (Rmax a (Rmax b c)).
Proof.
  unfold row_max, max_skipna. cbn. unfold Exact.Rltb, Rmax.
  repeat match goal with
         | |- context [Rlt_dec ?u ?v] =>
             is_var u; is_var v; destruct (Rlt_dec u v); cbn
         | |- context [Rle_dec ?u ?v] =>
             is_var u; is_var v; destruct (Rle_dec u v); cbn
         end; f_equal; lra.
Qed.

(** X17.  With every high, low and close present, the true range of each
    bar after the first is the largest of high - low, |high - previous
    close| and |low - previous close|, and is not negative; when the first
    bar's high is not below its low, no true range is negative and neither
    is any ATR value, whatever the window. *)
Theorem atr_is_not_negative (hs ls cs : list R) (n : nat) :
  List.length hs = List.length cs ->
  List.length ls = List.length cs ->
  exists trs,
    true_range (map Some hs) (map Some ls) (map Some cs) = map Some trs /\
    (forall t h l p,
        nth_error hs (S t) = Some h -> nth_error ls (S t) = Some l ->
        nth_error cs t = Some p ->
        nth_error trs (S t)
        = Some (Rmax (h - l) (Rmax (Rabs (h - p)) (Rabs (l - p)))) /\
        (0 <= Rmax (h - l) (Rmax (Rabs (h - p)) (Rabs (l - p))))%R) /\
    ((forall h0 l0, nth_error hs 0 = Some h0 -> nth_error ls 0 = Some l0 ->
                    (l0 <= h0)%R) ->
     Forall (fun tr => 0 <= tr)%R trs /\
     forall t a,
       nth_error (rolling_mean n (map Some trs)) t = Some (Some a) ->
       (0 <= a)%R).
Proof.
  intros Lh Ll.
  destruct (exact_true_range hs ls cs Lh Ll) as (trs & Etr & Ltr).
  exists trs. split; [exact Etr|].
  assert (Hrow : forall t h l p,
             nth_error hs (S t) = Some h -> nth_error ls (S t) = Some l ->
             nth_error cs t = Some p ->
             nth_error trs (S t)
             = Some (Rmax (h - l) (Rmax (Rabs (h - p)) (Rabs (l - p)))) /\
             (0 <= Rmax (h - l) (Rmax (Rabs (h - p)) (Rabs (l - p))))%R).
  { intros t h l p Hh Hl Hp. split.
    - assert (Lt : (S t < List.length (map Some cs))%nat).
      { rewrite length_map, <- Lh. apply nth_error_Some. congruence. }
      pose proof (true_range_nth (map Some hs) (map Some ls) (map Some cs)
                    t (Some h) (Some l) (Some p)) as E.
      rewrite !nth_error_map, Hh, Hl, Hp in E.
      specialize (E eq_refl eq_refl eq_refl Lt).
      rewrite Etr, nth_error_map in E.
      change (Some h - Some l)%fl with (Some (h - l)%R) in E.
      change (fabs (Some h - Some p)%fl) with (Some (Rabs (h - p))) in E.
      change (fabs (Some l - Some p)%fl) with (Some (Rabs (l - p))) in E.
      rewrite exact_row_max_3 in E.
      destruct (nth_error trs (S t)); [|discriminate].
      cbn in E. congruence.
    - pose proof (Rabs_pos (h - p)).
      pose proof (Rmax_l (Rabs (h - p)) (Rabs (l - p))).
      pose proof (Rmax_r (h - l) (Rmax (Rabs (h - p)) (Rabs (l - p)))).
      lra. }
  split; [exact Hrow|].
  intros H0.
  assert (Hpos : Forall (fun tr => 0 <= tr)%R trs).
  { apply Forall_forall. intros tr Hin.
    destruct (In_nth_error _ _ Hin) as [t Ht].
    assert (Lt : (t < List.length cs)%nat)
      by (rewrite <- Ltr; apply nth_error_Some; congruence).
    destruct t as [|t].
    - destruct hs as [|h hs']; [simpl in Lh; lia|].
      destruct ls as [|l ls']; [simpl in Ll; lia|].
      destruct cs as [|c cs']; [simpl in Lt; lia|].
      destruct trs as [|tr0 trs']; [discriminate|].
      cbn in Etr. injection Etr as E _. injection Ht as <-.
      subst tr0. pose proof (H0 h l eq_refl eq_refl). lra.
    - destruct (nth_error hs (S t)) as [h|] eqn:Hh;
        [|apply nth_error_None in Hh; lia].
      destruct (nth_error ls (S t)) as [l|] eqn:Hl;
        [|apply nth_error_None in Hl; lia].
      destruct (nth_error cs t) as [p|] eqn:Hp;
        [|apply nth_error_None in Hp; lia].
      destruct (Hrow t h l p Hh Hl Hp) as [E P]. congruence. }
  split; [exact Hpos|].
  intros t a Ht. rewrite exact_rolling_mean in Ht.
  assert (Lt : (t < List.length (map Some trs))%nat)
    by (rewrite <- (length_rolling n mean); apply nth_error_Some; congruence).
  rewrite (rolling_nth n mean (map Some trs) t Lt) in Ht.
  destruct (Nat.ltb_spec (t + 1) n) as [|Ln]; [discriminate|].
  unfold window in Ht. rewrite window_map, exact_not_missing in Ht.
  set (w := firstn n (skipn (t + 1 - n) trs)) in *.
  assert (Hw : Forall (fun tr => 0 <= tr)%R w).
  { apply Forall_forall. intros x Hx. rewrite Forall_forall in Hpos.
    apply Hpos. unfold w in Hx.
    rewrite <- (firstn_skipn (t + 1 - n) trs). apply in_or_app. right.
    rewrite <- (firstn_skipn n (skipn (t + 1 - n) trs)).
    apply in_or_app. left. exact Hx. }
  destruct w as [|x w'] eqn:Ew; [discriminate|].
  rewrite exact_mean in Ht by discriminate.
  assert (Ea : a = (fold_left Rplus (x :: w') 0
                    / INR (List.length (x :: w')))%R) by congruence.
  rewrite Ea.
  apply Rmult_le_pos; [exact (sum_nonneg (x :: w') Hw)|].
  left. apply Rinv_0_lt_compat. apply lt_0_INR. simpl. lia.
Qed.

Lemma atr_is_not_negative_witness :
  exists trs,
    true_range (map Some [11; 12; 13]%R) (map Some [9; 10; 11]%R)
               (map Some [10; 11; 14]%R) = map Some trs /\
    nth_error trs 1
    = Some (Rmax (12 - 10) (Rmax (Rabs (12 - 10)) (Rabs (10 - 10)))) /\
    Forall (fun tr => 0 <= tr)%R trs.
Proof.
  destruct (atr_is_not_negative [11; 12; 13]%R [9; 10; 11]%R
              [10; 11; 14]%R 2 eq_refl eq_refl) as (trs & E & Hrow & Hall).
  exists trs. split; [exact E|]. split.
  - exact (proj1 (Hrow 0%nat 12%R 10%R 10%R eq_refl eq_refl eq_refl)).
  - apply Hall. intros h0 l0 [= <-] [= <-]. lra.
Defined.

(** ** Constant series in the arithmetic of the program *)

Section ConstantWindows.

Context {F : Type} `{Float F}.

Variable c : F.

Hypothesis Hnum : (c == c)%fl = true.
Hypothesis Hfin : missing c = false.

Lemma prep_values_repeat (n : nat) : prep_values (repeat c n) = repeat c n.
Proof. unfold prep_values. rewrite map_repeat. now rewrite Hfin. Qed.

Lemma slice_repeat (a b n : nat) :
  slice a b (repeat c n) = repeat c (Nat.min (b - a) (n - a)).
Proof. unfold slice. now rewrite skipn_repeat, firstn_repeat. Qed.

Lemma nth_repeat_some (i n : nat) :
  (i < n)%nat -> nth i (repeat c n) nan = c.
Proof. intros L. apply nth_error_nth. now apply nth_error_repeat. Qed.

Lemma add_mean_same (k : nat) (a : mean_acc F) :
  mean_same c k a -> mean_same c (S k) (add_mean c a).
Proof.
  intros (En & Ls & Ep). unfold add_mean. rewrite Hnum, Ep, Hnum.
  repeat split; cbn; lia.
Qed.

Lemma remove_mean_same (k : nat) (a : mean_acc F) :
  mean_same c k a -> mean_same c (pred k) (remove_mean c a).
Proof.
  intros (En & Ls & Ep). unfold remove_mean. rewrite Hnum.
  repeat split; cbn; [lia | lia | exact Ep].
Qed.

Lemma fold_add_mean_same (j : nat) :
  forall k a, mean_same c k a ->
    mean_same c (k + j)
      (fold_left (fun a val => add_mean val a) (repeat c j) a).
Proof.
  induction j as [|j IH]; intros k a Ha; cbn [repeat fold_left].
  - now rewrite Nat.add_0_r.
  - replace (k + S j)%nat with (S k + j)%nat by lia.
    apply IH. now apply add_mean_same.
Qed.

Lemma fold_remove_mean_same (j : nat) :
  forall k a, mean_same c k a ->
    mean_same c (k - j)
      (fold_left (fun a val => remove_mean val a) (repeat c j) a).
Proof.
  induction j as [|j IH]; intros k a Ha; cbn [repeat fold_left].
  - now rewrite Nat.sub_0_r.
  - replace (k - S j)%nat with (pred k - j)%nat by lia.
    apply IH. now apply remove_mean_same.
Qed.

Lemma mean_step_same (d n i : nat) (a : mean_acc F) :
  (1 <= d)%nat -> (i < n)%nat ->
  i = 0%nat \/ mean_same c (Nat.min i d) a ->
  mean_same c (Nat.min (i + 1) d) (mean_step (repeat c n) d i a).
Proof.
  intros Ld Li Ha. unfold mean_step. cbv zeta. rewrite !slice_repeat.
  destruct ((i =? 0)%nat || (i <=? i + 1 - d)%nat) eqn:E.
  - assert (Es : (i + 1 - d)%nat = i).
    { apply orb_true_iff in E. destruct E as [E|E].
      - apply Nat.eqb_eq in E. lia.
      - apply Nat.leb_le in E. lia. }
    rewrite Es, nth_repeat_some by exact Li.
    replace (Nat.min (i + 1) d) with (0 + Nat.min (i + 1 - i) (n - i))%nat
      by lia.
    apply fold_add_mean_same. repeat split; cbn; lia.
  - apply orb_false_iff in E. destruct E as [E1 E2].
    apply Nat.eqb_neq in E1. apply Nat.leb_gt in E2.
    destruct Ha as [|Ha]; [lia|].
    replace (Nat.min (i + 1) d)
      with (Nat.min i d - Nat.min (i + 1 - d - (i - d)) (n - (i - d))
            + Nat.min (i + 1 - i) (n - i))%nat by lia.
    apply fold_add_mean_same, fold_remove_mean_same, Ha.
Qed.

Lemma mean_run_same (d n : nat) (a : mean_acc F) (t : nat) :
  (1 <= d)%nat -> (t < n)%nat ->
  mean_same c (Nat.min (t + 1) d) (mean_run (repeat c n) d a 0 t).
Proof.
  intros Ld. induction t as [|t IH]; intros Lt.
  - cbn [mean_run]. apply mean_step_same; auto.
  - rewrite mean_run_S. cbn [Nat.add].
    apply mean_step_same; [lia | lia |]. right.
    replace (S t) with (t + 1)%nat by lia. apply IH. lia.
Qed.

(** The running mean of a constant series is the constant, bit for bit. *)
Lemma rolling_mean_repeat (d n : nat) :
  (1 <= d)%nat ->
  rolling_mean d (repeat c n)
  = map (fun t => if (t + 1 <? d)%nat then nan else c) (seq 0 n).
Proof.
  intros Ld. apply list_eq_nth_error.
  { now rewrite length_rolling_mean, length_map, length_seq, repeat_length. }
  rewrite length_rolling_mean, repeat_length. intros t Lt.
  rewrite nth_error_map, nth_error_seq_some by exact Lt. cbn [option_map].
  unfold rolling_mean. cbv zeta. rewrite prep_values_repeat, repeat_length.
  rewrite roll_mean_nth by exact Lt. f_equal.
  destruct (mean_run_same d n (mean_start nan) t Ld Lt) as (En & Ls & Ep).
  unfold calc_mean. rewrite En, Ep.
  destruct (Nat.ltb_spec (t + 1) d) as [Lw|Lw].
  - destruct (Nat.leb_spec d (Nat.min (t + 1) d)); [lia | reflexivity].
  - destruct (Nat.leb_spec d (Nat.min (t + 1) d)); [|lia].
    destruct (Nat.ltb_spec 0 (Nat.min (t + 1) d)); [|lia]. cbn [andb].
    cbv zeta.
    destruct (Nat.leb_spec (Nat.min (t + 1) d)
                (num_consecutive_same_value
                   (mean_run (repeat c n) d (mean_start nan) 0 t)));
      [reflexivity | lia].
Qed.

Lemma add_var_same (k : nat) (a : var_acc F) :
  var_same c k a -> var_same c (S k) (add_var c a).
Proof.
  intros (En & Ls & Ep). unfold add_var. rewrite Hnum, Ep, Hnum.
  repeat split; cbn; lia.
Qed.

Lemma remove_var_same (k : nat) (a : var_acc F) :
  var_same c k a -> var_same c (pred k) (remove_var c a).
Proof.
  intros (En & Ls & Ep). unfold remove_var. rewrite Hnum. cbv zeta.
  destruct (pred (var_nobs a) =? 0)%nat;
    repeat split; cbn; [lia | lia | exact Ep | lia | lia | exact Ep].
Qed.

Lemma fold_add_var_same (j : nat) :
  forall k a, var_same c k a ->
    var_same c (k + j)
      (fold_left (fun a val => add_var val a) (repeat c j) a).
Proof.
  induction j as [|j IH]; intros k a Ha; cbn [repeat fold_left].
  - now rewrite Nat.add_0_r.
  - replace (k + S j)%nat with (S k + j)%nat by lia.
    apply IH. now apply add_var_same.
Qed.

Lemma fold_remove_var_same (j : nat) :
  forall k a, var_same c k a ->
    var_same c (k - j)
      (fold_left (fun a val => remove_var val a) (repeat c j) a).
Proof.
  induction j as [|j IH]; intros k a Ha; cbn [repeat fold_left].
  - now rewrite Nat.sub_0_r.
  - replace (k - S j)%nat with (pred k - j)%nat by lia.
    apply IH. now apply remove_var_same.
Qed.

Lemma var_step_same (d n i : nat) (a : var_acc F) :
  (1 <= d)%nat -> (i < n)%nat ->
  i = 0%nat \/ var_same c (Nat.min i d) a ->
  var_same c (Nat.min (i + 1) d) (var_step (repeat c n) d i a).
Proof.
  intros Ld Li Ha. unfold var_step. cbv zeta. rewrite !slice_repeat.
  destruct ((i =? 0)%nat || (i <=? i + 1 - d)%nat) eqn:E.
  - assert (Es : (i + 1 - d)%nat = i).
    { apply orb_true_iff in E. destruct E as [E|E].
      - apply Nat.eqb_eq in E. lia.
      - apply Nat.leb_le in E. lia. }
    rewrite Es, nth_repeat_some by exact Li.
    replace (Nat.min (i + 1) d) with (0 + Nat.min (i + 1 - i) (n - i))%nat
      by lia.
    apply fold_add_var_same. repeat split; cbn; lia.
  - apply orb_false_iff in E. destruct E as [E1 E2].
    apply Nat.eqb_neq in E1. apply Nat.leb_gt in E2.
    destruct Ha as [|Ha]; [lia|].
    replace (Nat.min (i + 1) d)
      with (Nat.min i d - Nat.min (i + 1 - d - (i - d)) (n - (i - d))
            + Nat.min (i + 1 - i) (n - i))%nat by lia.
    apply fold_add_var_same, fold_remove_var_same, Ha.
Qed.

Lemma var_run_same (d n : nat) (a : var_acc F) (t : nat) :
  (1 <= d)%nat -> (t < n)%nat ->
  var_same c (Nat.min (t + 1) d) (var_run (repeat c n) d a 0 t).
Proof.
  intros Ld. induction t as [|t IH]; intros Lt.
  - cbn [var_run]. apply var_step_same; auto.
  - rewrite var_run_S. cbn [Nat.add].
    apply var_step_same; [lia | lia |]. right.
    replace (S t) with (t + 1)%nat by lia. apply IH. lia.
Qed.

(** The running deviation of a constant series is [zsqrt] of zero. *)
Lemma rolling_std_repeat (d n : nat) :
  (2 <= d)%nat ->
  rolling_std d (repeat c n)
  = map (fun t => zsqrt (if (t + 1 <? d)%nat then nan else fzero))
        (seq 0 n).
Proof.
  intros Ld. apply list_eq_nth_error.
  { now rewrite length_rolling_std, length_map, length_seq, repeat_length. }
  rewrite length_rolling_std, repeat_length. intros t Lt.
  rewrite nth_error_map, nth_error_seq_some by exact Lt. cbn [option_map].
  unfold rolling_std. cbv zeta. rewrite prep_values_repeat, repeat_length.
  rewrite nth_error_map, roll_var_nth by exact Lt. cbn [option_map].
  f_equal. f_equal.
  destruct (var_run_same d n (var_start nan) t) as (En & Ls & Ep);
    [lia | exact Lt |].
  unfold calc_var. rewrite En. replace (Nat.max d 1) with d by lia.
  destruct (Nat.ltb_spec (t + 1) d) as [Lw|Lw].
  - destruct (Nat.leb_spec d (Nat.min (t + 1) d)); [lia | reflexivity].
  - destruct (Nat.leb_spec d (Nat.min (t + 1) d)); [|lia].
    destruct (Nat.ltb_spec 1 (Nat.min (t + 1) d)); [|lia]. cbn [andb].
    destruct (Nat.leb_spec (Nat.min (t + 1) d)
                (var_same_value
                   (var_run (repeat c n) d (var_start nan) 0 t)));
      [|lia].
    now rewrite orb_true_r.
Qed.

(** The frame [calculate_bollinger_bands] returns for a constant series. *)
Lemma bollinger_flat (df : DataFrame F) (k : F) (d n : nat) :
  (2 <= d)%nat ->
  col "Close" df = Ok (repeat c n) ->
  calculate_bollinger_bands df d k
  = Ok (assign "Lower_Track" (map (flat_band fsub c k d) (seq 0 n))
       (assign "Upper_Track" (map (flat_band fadd c k d) (seq 0 n))
       (assign "STD"
          (map (fun t => zsqrt (if (t + 1 <? d)%nat then nan else fzero))
               (seq 0 n))
       (assign "MA" (map (fun t => if (t + 1 <? d)%nat then nan else c)
                         (seq 0 n)) df)))).
Proof.
  intros Ld Hc. rewrite (bollinger_result df d k _ Hc). cbv zeta.
  rewrite rolling_mean_repeat, rolling_std_repeat by lia.
  rewrite map_map, !zip_with_map.
  assert (E : forall op : F -> F -> F,
             map (fun t =>
                    op (if (t + 1 <? d)%nat then nan else c)
                       (k * zsqrt (if (t + 1 <? d)%nat then nan else fzero))%fl)
                 (seq 0 n)
             = map (flat_band op c k d) (seq 0 n)).
  { intros op. apply map_ext. intros t. unfold flat_band.
    now destruct (t + 1 <? d)%nat. }
  now rewrite !E.
Qed.

Lemma c_bars_flat (df : DataFrame F) (k : F) (d n : nat) (ma sd : Series F) :
  len df = n ->
  col "Close" df = Ok (repeat c n) ->
  c_bars (assign "Lower_Track" (map (flat_band fsub c k d) (seq 0 n))
         (assign "Upper_Track" (map (flat_band fadd c k d) (seq 0 n))
         (assign "STD" sd (assign "MA" ma df))))
  = Ok (map (flat_bar c k d) (seq 0 n)).
Proof.
  intros Ln Hc. unfold c_bars, len. cbn [index assign]. fold (len df).
  rewrite Ln. apply traverse_map. intros t Ht. apply in_seq in Ht.
  unfold c_read_bar, cell. cols. rewrite Hc. cbn [bind].
  rewrite nth_error_repeat by lia. cbn [bind].
  rewrite !nth_error_map, nth_error_seq_some by lia. reflexivity.
Qed.

Lemma c_simulate_no_entry (bars : list (c_bar F)) (a : c_account F)
    (pv : list F) :
  c_position a = 0 ->
  Forall (fun b => (c_close b <= c_lower b)%fl = false) bars ->
  exists pv', c_simulate bars (a, pv) = Ok (a, pv').
Proof.
  intros Hp Hb; revert pv; induction Hb as [|b bars Hl _ IH]; intros pv;
    simpl; [eauto|].
  unfold c_loop_body, c_trade. cbn [fst snd]. rewrite Hp, Hl.
  cbn [Z.eqb andb bind]. apply IH.
Qed.

Lemma c_simulate_snoc (l : list (c_bar F)) (b : c_bar F)
    (v : c_account F * list F) :
  c_simulate (l ++ [b]) v = bind (c_simulate l v) (c_loop_body b).
Proof.
  revert v; induction l as [|b0 l IH]; intros v; simpl.
  - now destruct (c_loop_body b v).
  - destruct (c_loop_body b0 v); simpl; auto.
Qed.

Lemma flat_bar_warm_up (L : nan_laws F) (k : F) (d t : nat) :
  (t + 1 < d)%nat ->
  (c_close (flat_bar c k d t) <= c_lower (flat_bar c k d t))%fl = false.
Proof.
  intros Lt. unfold flat_bar, flat_band. cbn [c_close c_lower].
  destruct (Nat.ltb_spec (t + 1) d); [|lia].
  apply (leb_nan L), (sub_nan L), (nan_is_nan L).
Qed.

End ConstantWindows.

(** The classical strategy on a constant series, in the arithmetic of the
    program: it is FLAT through the warm-up bars, whatever the arithmetic,
    and at bar [d - 1], the first with bands, it compares the close [c] with
    the lower track [c - k * sqrt 0]; when that comparison holds and [c] is
    not zero, it buys [initial_capital / c] shares there. *)
Lemma flat_series_entry {F : Type} `{Float F}
    (L : nan_laws F) (df : DataFrame F) (ic c k : F) (d n : nat) :
  (c == c)%fl = true -> missing c = false ->
  (2 <= d)%nat -> (d <= n)%nat -> len df = n ->
  col "Close" df = Ok (repeat c n) ->
  (c <= c - k * zsqrt fzero)%fl = true -> (c == fzero)%fl = false ->
  c_bars (assign "Lower_Track" (map (flat_band fsub c k d) (seq 0 n))
         (assign "Upper_Track" (map (flat_band fadd c k d) (seq 0 n))
         (assign "STD"
            (map (fun t => zsqrt (if (t + 1 <? d)%nat then nan else fzero))
                 (seq 0 n))
         (assign "MA" (map (fun t => if (t + 1 <? d)%nat then nan else c)
                           (seq 0 n)) df))))
  = Ok (map (flat_bar c k d) (seq 0 n)) /\
  (forall t : nat, (t + 1 < d)%nat ->
      exists pv,
        c_simulate (firstn (S t) (map (flat_bar c k d) (seq 0 n)))
                   (c_start ic, [])
        = Ok (c_start ic, pv)) /\
  exists pv,
    c_simulate (firstn d (map (flat_bar c k d) (seq 0 n))) (c_start ic, [])
    = Ok ({| c_cash := fzero; c_position := 1;
             c_shares := (ic / c)%fl |}, pv).
Proof.
  intros Hnum Hfin Ld Ldn Ln Hc Hle Hz.
  split; [apply c_bars_flat; assumption|].
  assert (Hwarm : forall j, (j < d)%nat ->
            Forall (fun b => (c_close b <= c_lower b)%fl = false)
                   (firstn j (map (flat_bar c k d) (seq 0 n)))).
  { intros j Lj. rewrite firstn_map, firstn_seq_min.
    apply Forall_map, Forall_forall. intros t Ht. apply in_seq in Ht.
    apply flat_bar_warm_up; [exact L | lia]. }
  split.
  - intros t Lt. apply c_simulate_no_entry; [reflexivity|].
    apply Hwarm; lia.
  - assert (E : firstn d (map (flat_bar c k d) (seq 0 n))
                = firstn (d - 1) (map (flat_bar c k d) (seq 0 n))
                  ++ [flat_bar c k d (d - 1)]).
    { replace d with (S (d - 1)) at 1 by lia.
      apply firstn_succ.
      rewrite nth_error_map, nth_error_seq_some by lia. reflexivity. }
    rewrite E, c_simulate_snoc.
    destruct (c_simulate_no_entry
                (firstn (d - 1) (map (flat_bar c k d) (seq 0 n)))
                (c_start ic) []) as [pv Hpv];
      [reflexivity | apply Hwarm; lia |].
    rewrite Hpv. cbn [bind]. unfold c_loop_body, c_trade. cbn [fst snd].
    unfold flat_bar, flat_band.
    cbn [c_close c_lower c_start c_position c_cash].
    destruct (Nat.ltb_spec (d - 1 + 1) d); [lia|].
    rewrite Hle. cbn [Z.eqb andb]. unfold pydiv. rewrite Hz. cbn [bind].
    eauto.
Qed.

(** ** binary64: numbers that are not missing *)

Lemma binary64_number (x : float) :
  missing x = false ->
  (exists s, Prim2SF x = S754_zero s) \/
  (exists s m e, Prim2SF x = S754_finite s m e).
Proof.
  unfold missing. cbn [fsub feqb fzero binary64].
  rewrite negb_false_iff, eqb_spec, sub_spec.
  destruct (Prim2SF x) as [s|s| |s m e]; eauto.
  - destruct s; cbn; discriminate.
  - cbn; discriminate.
Qed.

Lemma SFleb_refl (x : spec_float) :
  x <> S754_nan -> SFleb x x = true.
Proof.
  intros N. unfold SFleb, SFcompare.
  destruct x as [s|s| |s m e]; try contradiction.
  - reflexivity.
  - destruct s; reflexivity.
  - rewrite Z.compare_refl, Pos.compare_refl. destruct s; reflexivity.
Qed.

Lemma binary64_eqb_refl (c : float) :
  missing c = false -> (c == c)%fl = true.
Proof.
  intros Hc. cbn [feqb binary64]. rewrite eqb_spec.
  unfold SFeqb, SFcompare.
  destruct (binary64_number c Hc) as [[s ->]|(s & m & e & ->)].
  - reflexivity.
  - rewrite Z.compare_refl, Pos.compare_refl. destruct s; reflexivity.
Qed.

(** The entry test on the first bar with bands of a constant series: the
    lower track [c - k * sqrt 0] is [c] again, and the test is not strict. *)
Lemma binary64_flat_entry (c k : float) :
  missing c = false -> missing k = false ->
  (c <= c - k * zsqrt fzero)%fl = true.
Proof.
  intros Hc Hk.
  change (zsqrt (@fzero float binary64)) with PrimFloat.zero.
  cbn [fleb fsub fmul binary64].
  rewrite leb_spec, sub_spec, mul_spec.
  change (Prim2SF PrimFloat.zero) with (S754_zero false).
  destruct (binary64_number k Hk) as [[s ->]|(s & m & e & ->)];
    destruct (binary64_number c Hc) as [[sc ->]|(sc & mc & ec & ->)];
    cbn [SF64mul SFmul SF64sub SFsub];
    try (apply SFleb_refl; discriminate);
    destruct sc, s; reflexivity.
Qed.

(** The tracks of a constant series of a number other than zero equal the
    constant, bit for bit. *)
Lemma binary64_flat_band (c k : float) :
  missing c = false -> missing k = false -> (c == fzero)%fl = false ->
  (c + k * zsqrt fzero)%fl = c /\ (c - k * zsqrt fzero)%fl = c.
Proof.
  intros Hc Hk Hz.
  change (zsqrt (@fzero float binary64)) with PrimFloat.zero.
  cbn [fadd fsub fmul binary64].
  cbn [feqb fzero binary64] in Hz. rewrite eqb_spec in Hz.
  change (Prim2SF PrimFloat.zero) with (S754_zero false) in Hz.
  split; apply Prim2SF_inj;
    rewrite ?add_spec, ?sub_spec, mul_spec;
    change (Prim2SF PrimFloat.zero) with (S754_zero false);
    destruct (binary64_number c Hc) as [[sc E]|(sc & mc & ec & E)];
    rewrite E in *;
    try (destruct sc; discriminate);
    destruct (binary64_number k Hk) as [[s ->]|(s & m & e & ->)];
    reflexivity.
Qed.

(** X19.  The bands of a constant series, in the arithmetic of the program
    (every instance of the float interface, binary64 included): when the
    constant [c] is a number, the moving average is [c] itself from bar
    [d - 1] on, and the deviation is the square root of an exact zero, because
    pandas keeps count of the equal values that end the window; so the tracks
    are [c + k * sqrt 0] and [c - k * sqrt 0].  Before bar [d - 1] the moving
    average is missing. *)
Theorem bollinger_bands_of_constant_series {F : Type} `{Float F}
    (df : DataFrame F) (c k : F) (d n : nat) :
  (c == c)%fl = true -> missing c = false -> (2 <= d)%nat ->
  col "Close" df = Ok (repeat c n) ->
  exists df',
    calculate_bollinger_bands df d k = Ok df' /\
    forall t : nat, (t < n)%nat ->
      ((t + 1 < d)%nat -> cell "MA" t df' = Ok nan) /\
      ((d <= t + 1)%nat ->
       cell "MA" t df' = Ok c /\
       cell "STD" t df' = Ok (zsqrt fzero) /\
       cell "Upper_Track" t df' = Ok (c + k * zsqrt fzero)%fl /\
       cell "Lower_Track" t df' = Ok (c - k * zsqrt fzero)%fl).
Proof.
  intros Hnum Hfin Ld Hc. eexists.
  split; [exact (bollinger_flat c Hnum Hfin df k d n Ld Hc)|].
  intros t Lt. unfold cell. cols. cbn [bind].
  rewrite !nth_error_map, nth_error_seq_some by exact Lt.
  cbn [option_map]. unfold flat_band.
  destruct (Nat.ltb_spec (t + 1) d); split; intros; try lia; auto.
Qed.

Lemma bollinger_bands_of_constant_series_witness :
  exists df',
    calculate_bollinger_bands tenth_prices 3 1%float = Ok df' /\
    cell "MA" 2 df' = Ok 0x1.999999999999ap-4%float /\
    cell "STD" 2 df' = Ok 0%float /\
    cell "Upper_Track" 2 df' = Ok 0x1.999999999999ap-4%float /\
    cell "Lower_Track" 2 df' = Ok 0x1.999999999999ap-4%float.
Proof.
  destruct (bollinger_bands_of_constant_series tenth_prices
              0x1.999999999999ap-4%float 1%float 3 6)
    as (df' & E & Hcells);
    [reflexivity | reflexivity | lia | reflexivity |].
  exists df'. split; [exact E|].
  destruct (Hcells 2%nat ltac:(lia)) as [_ Hb].
  exact (Hb ltac:(lia)).
Defined.

(** X20.  The classical strategy on every constant series of binary64
    numbers: when the constant [c] is finite and not zero and the multiplier
    [k] is finite, from bar [d - 1] on the moving average and both tracks
    are [c], bit for bit, and the deviation is 0.0; the strategy is FLAT
    through the warm-up bars and at bar [d - 1], where the close equals the
    lower track, it buys [initial_capital / c] shares. *)
Theorem classical_enters_on_every_constant_series (df : DataFrame float)
    (ic c k : float) (d n : nat) :
  missing c = false -> missing k = false -> (c == fzero)%fl = false ->
  (2 <= d)%nat -> (d <= n)%nat -> len df = n ->
  col "Close" df = Ok (repeat c n) ->
  exists df' bars,
    calculate_bollinger_bands df d k = Ok df' /\
    (forall t : nat, (t < n)%nat -> (d <= t + 1)%nat ->
        cell "MA" t df' = Ok c /\
        cell "STD" t df' = Ok 0%float /\
        cell "Upper_Track" t df' = Ok c /\
        cell "Lower_Track" t df' = Ok c) /\
    c_bars df' = Ok bars /\
    (forall t : nat, (t + 1 < d)%nat ->
        exists pv,
          c_simulate (firstn (S t) bars) (c_start ic, [])
          = Ok (c_start ic, pv)) /\
    exists pv,
      c_simulate (firstn d bars) (c_start ic, [])
      = Ok ({| c_cash := 0%float; c_position := 1;
               c_shares := (ic / c)%float |}, pv).
Proof.
  intros Hc Hk Hz Ld Ldn Ln Hcl.
  pose proof (binary64_eqb_refl c Hc) as Hnum.
  destruct (binary64_flat_band c k Hc Hk Hz) as [Eu El].
  eexists. exists (map (flat_bar c k d) (seq 0 n)).
  split; [exact (bollinger_flat c Hnum Hc df k d n Ld Hcl)|].
  split.
  { intros t Lt Lw. unfold cell. cols. cbn [bind].
    rewrite !nth_error_map, nth_error_seq_some by exact Lt.
    cbn [option_map]. unfold flat_band.
    destruct (Nat.ltb_spec (t + 1) d); [lia|].
    rewrite Eu, El. repeat split; reflexivity. }
  exact (flat_series_entry binary64_nan_laws df ic c k d n Hnum Hc Ld Ldn Ln
           Hcl (binary64_flat_entry c k Hc Hk) Hz).
Qed.

Lemma classical_enters_on_every_constant_series_witness :
  exists df' bars,
    calculate_bollinger_bands tenth_prices 3 1%float = Ok df' /\
    (forall t : nat, (t < 6)%nat -> (3 <= t + 1)%nat ->
        cell "MA" t df' = Ok 0x1.999999999999ap-4%float /\
        cell "STD" t df' = Ok 0%float /\
        cell "Upper_Track" t df' = Ok 0x1.999999999999ap-4%float /\
        cell "Lower_Track" t df' = Ok 0x1.999999999999ap-4%float) /\
    c_bars df' = Ok bars /\
    (forall t : nat, (t + 1 < 3)%nat ->
        exists pv,
          c_simulate (firstn (S t) bars) (c_start 100000%float, [])
          = Ok (c_start 100000%float, pv)) /\
    exists pv,
      c_simulate (firstn 3 bars) (c_start 100000%float, [])
      = Ok ({| c_cash := 0%float; c_position := 1;
               c_shares := (100000 / 0x1.999999999999ap-4)%float |}, pv).
Proof.
  apply (classical_enters_on_every_constant_series tenth_prices
           100000%float 0x1.999999999999ap-4%float 1%float 3 6);
    try reflexivity; lia.
Defined.
